(** * kubectlpf: the port-forwarding supervisor of [portforward.js]

    A shallow embedding of the supervision engine of [src/portforward.js]:
    the text scraping of [kubectl get pods] ([getPodId]), the classification
    of [kubectl port-forward] output ([processKubectlLog]), the health check
    with its reconnection timers ([healthCheck]), and the configuration merge
    ([_.merge]).

    JavaScript objects that are shared by reference (the pod records held by
    [runningPods] and captured by the callbacks, the child processes, the
    timers, the [attempt] counter of each [tryReinitPod] closure) live in
    stores indexed by [nat]; a reference is an index.  Asynchronous
    callbacks are events of a step function. *)

From Stdlib Require Import String Ascii ZArith Bool Lia.
From stdpp Require Import base option list.

Local Open Scope string_scope.

(** ** Strings *)

Module Text.

(** [s.startsWith(p)] *)
Fixpoint startsWith (s p : string) {struct p} : bool :=
  match p with
  | EmptyString => true
  | String c p' =>
      match s with
      | EmptyString => false
      | String d s' => Ascii.eqb c d && startsWith s' p'
      end
  end.

(** [s.match(/p/)] for a pattern [p] without metacharacters: [p] occurs
    somewhere in [s]. *)
Fixpoint includes (s p : string) : bool :=
  startsWith s p ||
  match s with
  | EmptyString => false
  | String _ s' => includes s' p
  end.

(** [s.split(sep)] for a one-character separator; the result is never
    empty. *)
Fixpoint split (sep : ascii) (s : string) : list string :=
  match s with
  | EmptyString => [EmptyString]
  | String c s' =>
      if Ascii.eqb c sep then EmptyString :: split sep s'
      else match split sep s' with
           | [] => [String c EmptyString]
           | l :: ls => String c l :: ls
           end
  end.

(** [xs.join(sep)] *)
Fixpoint join (sep : string) (xs : list string) : string :=
  match xs with
  | [] => EmptyString
  | [x] => x
  | x :: xs' => x ++ sep ++ join sep xs'
  end.

(** JavaScript truthiness of a string *)
Definition truthy (s : string) : bool :=
  match s with EmptyString => false | _ => true end.

End Text.

Definition nl : ascii := "010"%char.
Definition nl_str : string := String nl EmptyString.

(** Any character but the line feed. *)
Definition notLF (c : ascii) : bool := negb (Ascii.eqb c nl).

(** ** Regular expressions

    The fragment of the JavaScript patterns that the program builds:
    literal characters, character classes, [.], a greedy star over a class,
    sequencing and capture groups.  Matching backtracks as [RegExp.exec]
    does: a star takes as many characters as it can and gives them back one
    at a time when the rest of the pattern fails.  Text is taken to be
    ASCII. *)

Module RegExp.

Inductive re : Type :=
| Eps
| Chr (c : ascii)
| Cls (p : ascii -> bool)
| Star (p : ascii -> bool)
| Cat (r1 r2 : re)
| Grp (r : re).

Definition between (lo hi c : ascii) : bool :=
  (nat_of_ascii lo <=? nat_of_ascii c)%nat && (nat_of_ascii c <=? nat_of_ascii hi)%nat.

(** [\d] *)
Definition digit (c : ascii) : bool := between "0" "9" c.
(** [[a-z]] *)
Definition lower (c : ascii) : bool := between "a" "z" c.
(** [[a-zA-Z]] *)
Definition letter (c : ascii) : bool := lower c || between "A" "Z" c.
(** [[-\da-z]] *)
Definition idchar (c : ascii) : bool := Ascii.eqb c "-" || digit c || lower c.
(** [\s], ASCII part: tab, line feed, vertical tab, form feed, carriage
    return, space *)
Definition space (c : ascii) : bool := between "009" "013" c || Ascii.eqb c " ".
(** [.]: anything but a line terminator *)
Definition dot (c : ascii) : bool := negb (Ascii.eqb c "010" || Ascii.eqb c "013").

(** The characters, other than [.], that are syntax in a pattern source:
    the anchors, the backslash, the quantifiers, the brackets of groups,
    classes and counts, and the bar of alternation. *)
Definition syntaxChar (c : ascii) : bool :=
  existsb (Ascii.eqb c)
    ["^"; "$"; "\"; "*"; "+"; "?"; "("; ")"; "["; "]"; "{"; "}"; "|"]%char.

(** A string in which [.] is the only pattern syntax, and one with no
    pattern syntax at all. *)
Fixpoint modelled (s : string) : bool :=
  match s with
  | EmptyString => true
  | String c s' => negb (syntaxChar c) && modelled s'
  end.

Fixpoint plain (s : string) : bool :=
  match s with
  | EmptyString => true
  | String c s' => negb (syntaxChar c) && negb (Ascii.eqb c ".") && plain s'
  end.

(** A string spliced into a pattern source.  The program does not escape
    it.  [splice] is the pattern [new RegExp] builds for a [modelled]
    string: [.] is the wildcard and every other character stands for
    itself.  On a string with a [syntaxChar] the program's pattern is
    another one (an alternation, a group, a quantified character) or
    [new RegExp] throws a [SyntaxError]; there [splice] does not describe
    the program, and a statement that is to hold for every name carries
    [modelled] or [plain] as a hypothesis. *)
Fixpoint splice (s : string) : re :=
  match s with
  | EmptyString => Eps
  | String c s' => Cat (if Ascii.eqb c "." then Cls dot else Chr c) (splice s')
  end.

Section Run.
Context {A : Type}.

  (** The greedy star: [k] receives the consumed text and the rest. *)
Fixpoint star (p : ascii -> bool) (s : string)
      (k : string -> string -> option A) : option A :=
    match s with
    | EmptyString => k EmptyString s
    | String c s' =>
        if p c then
          match star p s' (fun t rest => k (String c t) rest) with
          | Some a => Some a
          | None => k EmptyString s
          end
        else k EmptyString s
    end.

  (** [run r s k]: match [r] at the start of [s]; [k] receives the consumed
      text, the captures of the groups of [r] in order, and the rest. *)
Fixpoint run (r : re) (s : string)
      (k : string -> list string -> string -> option A) : option A :=
    match r with
    | Eps => k EmptyString [] s
    | Chr c =>
        match s with
        | String d s' => if Ascii.eqb c d then k (String d EmptyString) [] s' else None
        | EmptyString => None
        end
    | Cls p =>
        match s with
        | String d s' => if p d then k (String d EmptyString) [] s' else None
        | EmptyString => None
        end
    | Star p => star p s (fun t rest => k t [] rest)
    | Cat r1 r2 =>
        run r1 s (fun t1 g1 s1 =>
          run r2 s1 (fun t2 g2 s2 => k (t1 ++ t2) (g1 ++ g2)%list s2))
    | Grp r' => run r' s (fun t g rest => k t (t :: g) rest)
    end.
End Run.

(** [new RegExp(r, 'g').exec(s)] on a fresh pattern object: the leftmost
    match, as the list [match[0]; match[1]; ...], or [None] for [null]. *)
Fixpoint exec (r : re) (s : string) : option (list string) :=
  match run r s (fun t g _ => Some (t :: g)) with
  | Some m => Some m
  | None =>
      match s with
      | EmptyString => None
      | String _ s' => exec r s'
      end
  end.

End RegExp.

(** ** Resolving the running instance of a workload: [getPodId] *)

Import RegExp.

(** What [getPodId] does: [return match[1]], [return false], or [throw]. *)
Inductive PodId : Type :=
| RetId (id : string)
| RetFalse
| Thrown (msg : string).

(** [chalk.cyan]: the colour escape sequences are left out. *)
Definition chalk_cyan (s : string) : string := s.

(** The loop over [lines] that fills [filterPods]. *)
Definition filterPods (lines : list string) (podName : string) : list string :=
  filter (fun l => Is_true (Text.startsWith l podName)) lines.

(** The pattern of the first [exec]: group 1 is [podName] followed by a
    greedy run of the class [[-\da-z]]; then a greedy run of [.]; then
    group 2, the word [Running]. *)
Definition runningPattern (podName : string) : re :=
  Cat (Grp (Cat (splice podName) (Star idchar)))
      (Cat (Star dot) (Grp (splice "Running"))).

(** The pattern of the second [exec]: the same group 1; a run of [\s];
    [\d], a slash, [\d]; a run of [\s]; group 2, a greedy run of
    [[a-zA-Z]]; one [\s]. *)
Definition statePattern (podName : string) : re :=
  Cat (Grp (Cat (splice podName) (Star idchar)))
   (Cat (Star space)
    (Cat (Cls digit) (Cat (Chr "/") (Cat (Cls digit)
     (Cat (Star space) (Cat (Grp (Star letter)) (Cls space))))))).

(** [match[i]] *)
Definition group (m : list string) (i : nat) : string := nth i m EmptyString.

Definition notRunningMsg (podName state : string) : string :=
  "Pod " ++ chalk_cyan podName ++ " is in " ++ chalk_cyan state
    ++ " state, needs to be " ++ chalk_cyan "Running".

Definition notFoundMsg (namespace : option string) (podName joined : string) : string :=
  "Could not find pod " ++ chalk_cyan podName ++ ", available pods"
    ++ match namespace with
       | Some ns => if Text.truthy ns then " (namespace: " ++ ns ++ ")" else ""
       | None => ""
       end
    ++ ": " ++ nl_str ++ joined.

(** [getPodId(rawPods, podName, silent)]; [namespace] is the global the
    error text reads. *)
Definition getPodId (namespace : option string)
    (rawPods podName : string) (silent : bool) : PodId :=
  let lines := Text.split nl rawPods in
  let joined := Text.join nl_str (filterPods lines podName) in
  match exec (runningPattern podName) joined with
  | Some m => RetId (group m 1)
  | None =>
      match exec (statePattern podName) joined with
      | Some errorMatch =>
          if silent then RetFalse
          else Thrown (notRunningMsg podName (group errorMatch 2))
      | None =>
          if silent then RetFalse
          else Thrown (notFoundMsg namespace podName joined)
      end
  end.

Definition table1 : string :=
  "NAME READY STATUS RESTARTS AGE" ++ nl_str ++
  "db-5d4f7 1/1 Running 0 9d" ++ nl_str ++
  "myapp-7f8c9 1/1 Running 0 3m" ++ nl_str ++
  "webapp-1a2b 1/1 Running 0 5m" ++ nl_str.

(** The only Running line belongs to [webapp]. *)
Definition table3 : string :=
  "NAME READY STATUS RESTARTS AGE" ++ nl_str ++
  "api-9e8f 1/1 Running 0 2h" ++ nl_str ++
  "webapp-1a2b 1/1 Running 0 5m" ++ nl_str.

(** The same with a [web] instance that is not Running. *)
Definition table4 : string :=
  "NAME READY STATUS RESTARTS AGE" ++ nl_str ++
  "web-6c7d 0/1 Pending 0 4s" ++ nl_str ++
  "webapp-1a2b 1/1 Running 0 5m" ++ nl_str.

Definition table2 : string :=
  "NAME READY STATUS RESTARTS AGE" ++ nl_str ++
  "myapp-7f8c9 0/1 Pending 0 10s" ++ nl_str.

(** An instance of [myapp] that is not Running comes before the Running
    one. *)
Definition table5 : string :=
  "NAME READY STATUS RESTARTS AGE" ++ nl_str ++
  "myapp-0aaa 0/1 Pending 0 4s" ++ nl_str ++
  "myapp-7f8c9 1/1 Running 0 3m" ++ nl_str ++
  "webapp-1a2b 1/1 Running 0 5m" ++ nl_str.

(** Two Running instances of [myapp]. *)
Definition table6 : string :=
  "NAME READY STATUS RESTARTS AGE" ++ nl_str ++
  "myapp-0aaa 1/1 Running 0 9m" ++ nl_str ++
  "myapp-7f8c9 1/1 Running 0 3m" ++ nl_str.

(** ** The supervisor state *)

Module Pod.
  (** An element of [runningPods]: the record [getPodMeta] returns, plus
      the properties the supervisor adds to it later.  A property that has
      not been assigned ([undefined]) reads as [None], or as [false] for
      the flags. *)
Record t : Type := mk {
    name : string;
    from : string;
    to : string;
    namespace : option string;
    id : option string;
    initialized : bool;
    restartingState : bool;
    excluded : bool;
    childProcess : option nat;
    initInterval : option nat
  }.

Definition set_id (v : string) (p : t) : t :=
    mk (name p) (from p) (to p) (namespace p) (Some v) (initialized p)
       (restartingState p) (excluded p) (childProcess p) (initInterval p).
Definition set_initialized (v : bool) (p : t) : t :=
    mk (name p) (from p) (to p) (namespace p) (id p) v
       (restartingState p) (excluded p) (childProcess p) (initInterval p).
Definition set_restartingState (v : bool) (p : t) : t :=
    mk (name p) (from p) (to p) (namespace p) (id p) (initialized p)
       v (excluded p) (childProcess p) (initInterval p).
Definition set_excluded (v : bool) (p : t) : t :=
    mk (name p) (from p) (to p) (namespace p) (id p) (initialized p)
       (restartingState p) v (childProcess p) (initInterval p).
Definition set_childProcess (v : nat) (p : t) : t :=
    mk (name p) (from p) (to p) (namespace p) (id p) (initialized p)
       (restartingState p) (excluded p) (Some v) (initInterval p).
Definition set_initInterval (v : nat) (p : t) : t :=
    mk (name p) (from p) (to p) (namespace p) (id p) (initialized p)
       (restartingState p) (excluded p) (childProcess p) (Some v).
End Pod.

(** A process started by [spawn("kubectl", args)].  Its listeners capture
    the pod they were registered for ([owner]). *)
Record Child : Type := mkChild {
  owner : nat;
  args : list string;
  killed : bool;
  closed : bool
}.

(** One [tryReinitPod] closure: the pod it captured and its [attempt]. *)
Record Chain : Type := mkChain {
  pod : nat;
  attempt : nat
}.

Inductive TimerFn : Type :=
| FormalInit
| TryReinitPod (c : nat).

(** A [setTimeout]: the function, the delay, and whether it is still due. *)
Record Timer : Type := mkTimer {
  fn : TimerFn;
  delay : Z;
  due : bool
}.

(** The callback given to [getPods]. *)
Inductive Callback : Type :=
| InitCb
| HealthCb
| ReinitCb (c : nat).

(** An [exec] of [kubectl get pods] whose callback has not run yet
    ([waiting = Some _]) or has ([None]). *)
Record Exec : Type := mkExec {
  command : string;
  waiting : option Callback
}.

Record State : Type := mkState {
  kubeConfig : option string;
  namespace : option string;
  healthInterval : Z;
  restartAttempt : nat;
  pods : list Pod.t;
  runningPods : list nat;
  children : list Child;
  chains : list Chain;
  timers : list Timer;
  execs : list Exec;
  interval : bool
}.

Definition set_restartAttempt (v : nat) (s : State) : State :=
  mkState (kubeConfig s) (namespace s) (healthInterval s) v (pods s)
    (runningPods s) (children s) (chains s) (timers s) (execs s) (interval s).
Definition set_pods (v : list Pod.t) (s : State) : State :=
  mkState (kubeConfig s) (namespace s) (healthInterval s) (restartAttempt s) v
    (runningPods s) (children s) (chains s) (timers s) (execs s) (interval s).
Definition set_runningPods (v : list nat) (s : State) : State :=
  mkState (kubeConfig s) (namespace s) (healthInterval s) (restartAttempt s) (pods s)
    v (children s) (chains s) (timers s) (execs s) (interval s).
Definition set_children (v : list Child) (s : State) : State :=
  mkState (kubeConfig s) (namespace s) (healthInterval s) (restartAttempt s) (pods s)
    (runningPods s) v (chains s) (timers s) (execs s) (interval s).
Definition set_chains (v : list Chain) (s : State) : State :=
  mkState (kubeConfig s) (namespace s) (healthInterval s) (restartAttempt s) (pods s)
    (runningPods s) (children s) v (timers s) (execs s) (interval s).
Definition set_timers (v : list Timer) (s : State) : State :=
  mkState (kubeConfig s) (namespace s) (healthInterval s) (restartAttempt s) (pods s)
    (runningPods s) (children s) (chains s) v (execs s) (interval s).
Definition set_execs (v : list Exec) (s : State) : State :=
  mkState (kubeConfig s) (namespace s) (healthInterval s) (restartAttempt s) (pods s)
    (runningPods s) (children s) (chains s) (timers s) v (interval s).
Definition set_interval (v : bool) (s : State) : State :=
  mkState (kubeConfig s) (namespace s) (healthInterval s) (restartAttempt s) (pods s)
    (runningPods s) (children s) (chains s) (timers s) (execs s) v.

(** ** Callbacks as state transformers

    A callback runs to completion on the state; it may end the process
    ([process.exit]) or throw past every handler. *)

Inductive Res (A : Type) : Type :=
| Val (a : A) (s : State)
| Exit (code : Z) (s : State)
| Uncaught (msg : string) (s : State).
Arguments Val {A} a s.
Arguments Exit {A} code s.
Arguments Uncaught {A} msg s.

Definition M (A : Type) : Type := State -> Res A.

Definition ret {A} (a : A) : M A := fun s => Val a s.
Definition bind {A B} (m : M A) (f : A -> M B) : M B :=
  fun s => match m s with
           | Val a s' => f a s'
           | Exit c s' => Exit c s'
           | Uncaught e s' => Uncaught e s'
           end.
Definition get : M State := fun s => Val s s.
Definition modify (f : State -> State) : M unit := fun s => Val tt (f s).
Definition throw {A} (msg : string) : M A := fun s => Uncaught msg s.

Declare Scope js_scope.
Delimit Scope js_scope with js.
Notation "x <- m ;; k" := (bind m (fun x => k))
  (at level 100, m at next level, right associativity) : js_scope.
Notation "m ;; k" := (bind m (fun _ => k))
  (at level 100, right associativity) : js_scope.
Local Open Scope js_scope.

(** [xs.forEach(f)] *)
Fixpoint forEach {A} (xs : list A) (f : A -> M unit) : M unit :=
  match xs with
  | [] => ret tt
  | x :: xs' => f x ;; forEach xs' f
  end.

(** [try { m } catch (error) { h }]: [process.exit] is not an exception. *)
Definition tryCatch (m : M unit) (h : string -> M unit) : M unit :=
  fun s => match m s with
           | Uncaught e s' => h e s'
           | r => r
           end.

(** Reading through a reference. *)
Definition thePod (i : nat) : M Pod.t :=
  fun s => match pods s !! i with
           | Some p => Val p s
           | None => Uncaught "dangling pod reference" s
           end.
Definition theChain (c : nat) : M Chain :=
  fun s => match chains s !! c with
           | Some ch => Val ch s
           | None => Uncaught "dangling closure reference" s
           end.

(** Assigning a property of a pod. *)
Definition update (i : nat) (f : Pod.t -> Pod.t) : M unit :=
  modify (fun s => set_pods (alter f i (pods s)) s).

(** [child.kill()] *)
Definition kill (c : nat) : M unit :=
  modify (fun s =>
    set_children
      (alter (fun ch => mkChild (owner ch) (args ch) true (closed ch)) c (children s)) s).

(** [pod.childProcess.kill()]: a [TypeError] when there is no child yet. *)
Definition killChildProcess (i : nat) : M unit :=
  p <- thePod i ;;
  match Pod.childProcess p with
  | Some c => kill c
  | None => throw "TypeError: Cannot read properties of undefined (reading 'kill')"
  end.

(** [setTimeout(f, d)] returns the new timer. *)
Definition setTimeout (f : TimerFn) (d : Z) : M nat :=
  fun s => Val (length (timers s)) (set_timers (timers s ++ [mkTimer f d true]) s).

(** [clearTimeout(t)] *)
Definition clearTimeout (t : nat) : M unit :=
  modify (fun s =>
    set_timers (alter (fun tm => mkTimer (fn tm) (delay tm) false) t (timers s)) s).

(** [cleanup], the [exit] listener: a failing [kill] is caught and counted. *)
Definition cleanup : M unit :=
  s <- get ;;
  forEach (runningPods s) (fun i => tryCatch (killChildProcess i) (fun _ => ret tt)).

(** [process.exit(code)].  Without an argument the exit code is
    [process.exitCode], which the program never assigns: the default 0. *)
Definition process_exit (code : option Z) : M unit :=
  fun s => match cleanup s with
           | Val _ s' => Exit (default 0%Z code) s'
           | r => r
           end.

(** ** Querying the cluster: [getPods] *)

Definition truthyOpt (o : option string) : bool :=
  match o with
  | Some v => Text.truthy v
  | None => false
  end.

(** How the [exec] of [kubectl get pods] ended. *)
Inductive ExecResult : Type :=
| Succeeded (stdout : string)
| Failed (stderr : string).

(** What [getPods] passes to its callback: [callback(true)] or
    [callback(false, stdout, true)].  The third argument is the constant
    [true]; [healthCheck] calls it [silent] and only guards a log line
    with it. *)
Inductive Reply : Type :=
| Error
| Table (rawPods : string).

(** The four [stderr.match] tests. *)
Definition networkError (stderr : string) : bool :=
  Text.includes stderr "network is unreachable"
  || Text.includes stderr "handshake timeout"
  || Text.includes stderr "network is down"
  || Text.includes stderr "i/o timeout".

(** The synchronous part of [getPods(callback)]: build the command and
    start it. *)
Definition getPods (callback : Callback) : M unit :=
  modify (fun s =>
    let command :=
      (["kubectl"; "get"; "pods"]
       ++ (if truthyOpt (kubeConfig s)
           then ["--kubeconfig"; default "" (kubeConfig s)] else [])
       ++ (if truthyOpt (namespace s)
           then ["--namespace"; default "" (namespace s)] else []))%list in
    set_execs (execs s ++ [mkExec (Text.join " " command) (Some callback)]) s).

(** The body of the [forEach] in the network-error branch. *)
Definition stopIfInitialized (i : nat) : M unit :=
  p <- thePod i ;;
  if Pod.initialized p then
    update i (Pod.set_initialized false) ;;
    killChildProcess i
  else ret tt.

(** The function [getPods] hands to [exec], up to the call of
    [callback]. *)
Definition getPods_exec (r : ExecResult) : M Reply :=
  match r with
  | Failed stderr =>
      if networkError stderr then
        modify (fun s => set_restartAttempt (S (restartAttempt s)) s) ;;
        s <- get ;;
        forEach (runningPods s) stopIfInitialized ;;
        ret Error
      else throw stderr
  | Succeeded stdout =>
      s <- get ;;
      (if (0 <? restartAttempt s)%nat then modify (set_restartAttempt 0) else ret tt) ;;
      ret (Table stdout)
  end.

(** ** Starting a tunnel: [portForwardPod] *)

Definition portForwardPod (i : nat) : M unit :=
  p <- thePod i ;;
  s <- get ;;
  let args :=
    (["port-forward"; default "undefined" (Pod.id p)]
     ++ [if Text.truthy (Pod.to p) then (Pod.from p ++ ":" ++ Pod.to p)%string else Pod.from p]
     ++ (if truthyOpt (kubeConfig s)
         then ["--kubeconfig"; default "" (kubeConfig s)] else [])
     ++ (if truthyOpt (Pod.namespace p)
         then ["--namespace"; default "" (Pod.namespace p)] else []))%list in
  let child := length (children s) in
  modify (fun s => set_children (children s ++ [mkChild i args false false]) s) ;;
  update i (Pod.set_childProcess child).

(** ** The health check and the reconnection closure *)

Definition maxAttempt : nat := 20.
Definition attemptDuration : Z := 5000.

(** [tryReinitPod()] *)
Definition tryReinitPod (c : nat) : M unit := getPods (ReinitCb c).

(** The callback of the [getPods] inside [tryReinitPod]. *)
Definition tryReinitPod_cb (c : nat) (reply : Reply) : M unit :=
  match reply with
  | Error => ret tt
  | Table rawPods =>
      ch <- theChain c ;;
      p <- thePod (pod ch) ;;
      s <- get ;;
      let waitOrExit : M unit :=
        if (maxAttempt <=? attempt ch)%nat then process_exit None
        else
          modify (fun s =>
            set_chains (alter (fun ch => mkChain (pod ch) (S (attempt ch))) c (chains s)) s) ;;
          t <- setTimeout (TryReinitPod c) attemptDuration ;;
          update (pod ch) (Pod.set_initInterval t) in
      match getPodId (namespace s) rawPods (Pod.name p) true with
      | RetId podId =>
          if Text.truthy podId then
            update (pod ch) (Pod.set_id podId) ;;
            portForwardPod (pod ch)
          else waitOrExit
      | RetFalse => waitOrExit
      | Thrown msg => throw msg
      end
  end.

(** [healthCheck()] *)
Definition healthCheck : M unit := getPods HealthCb.

(** The pattern [healthCheck] builds from [pod.id]: group 1 is the id, then
    a greedy run of [.], then group 2, the word [Running]. *)
Definition stillRunningPattern (podId : string) : re :=
  Cat (Grp (splice podId)) (Cat (Star dot) (Grp (splice "Running"))).

(** The body of the [forEach] in the callback of [healthCheck]. *)
Definition checkPod (rawPods : string) (i : nat) : M unit :=
  p <- thePod i ;;
  if Pod.restartingState p then ret tt
  else
    let match_ := exec (stillRunningPattern (default "undefined" (Pod.id p))) rawPods in
    if negb (bool_decide (is_Some match_)) || negb (Pod.initialized p) then
      update i (Pod.set_restartingState true) ;;
      killChildProcess i ;;
      update i (Pod.set_initialized false) ;;
      s <- get ;;
      let c := length (chains s) in
      modify (set_chains (chains s ++ [mkChain i 0])) ;;
      match Pod.initInterval p with
      | Some t => clearTimeout t
      | None => ret tt
      end ;;
      tryReinitPod c
    else ret tt.

(** The callback of the [getPods] inside [healthCheck]. *)
Definition healthCheck_cb (reply : Reply) : M unit :=
  match reply with
  | Error => ret tt
  | Table rawPods =>
      s <- get ;;
      forEach (runningPods s) (checkPod rawPods)
  end.

(** ** The output of a tunnel: [processKubectlLog] *)

Inductive LogKind : Type :=
| ForwardingFrom
| HandlingConnection
| ForwardingError
| AddressInUse
| PermissionDenied
| Unrecognised.

(** The conditions of the [if]/[else if] chain, in its order. *)
Definition classify (logLine : string) : LogKind :=
  if Text.includes logLine "Forwarding from" then ForwardingFrom
  else if Text.includes logLine "Handling connection" then HandlingConnection
  else if Text.includes logLine "an error occurred forwarding" then ForwardingError
  else if Text.includes logLine "address already in use"
          || Text.includes logLine "Unable to listen on any of the requested ports"
       then AddressInUse
  else if Text.includes logLine "bind: permission denied" then PermissionDenied
  else Unrecognised.

(** [_.pull(runningPods, pod)] *)
Definition pull (i : nat) (refs : list nat) : list nat :=
  filter (fun j => j <> i) refs.

Definition processKubectlLog (logLine : string) (i child : nat) : M unit :=
  p <- thePod i ;;
  match classify logLine with
  | ForwardingFrom =>
      if Pod.initialized p then ret tt
      else update i (Pod.set_initialized true)
  | HandlingConnection => ret tt
  | ForwardingError => healthCheck
  | AddressInUse =>
      if Pod.excluded p then ret tt
      else
        update i (Pod.set_excluded true) ;;
        kill child ;;
        modify (fun s => set_runningPods (pull i (runningPods s)) s) ;;
        s <- get ;;
        match runningPods s with
        | [] => process_exit (Some 0%Z)
        | _ => ret tt
        end
  | PermissionDenied => process_exit (Some 0%Z)
  | Unrecognised =>
      if Pod.initialized p then ret tt
      else process_exit None
  end.

(** The [close] listener [portForwardPod] registers on the child. *)
Definition onClose (i : nat) : M unit :=
  update i (Pod.set_restartingState false) ;;
  update i (Pod.set_initialized false).

(** ** Start-up: [formalInit] *)

Definition formalInit : M unit := getPods InitCb.

Definition formalInit_cb (reply : Reply) : M unit :=
  tryCatch
    (match reply with
     | Table rawPods =>
         s <- get ;;
         forEach (runningPods s) (fun i =>
           p <- thePod i ;;
           match getPodId (namespace s) rawPods (Pod.name p) false with
           | RetId podId => update i (Pod.set_id podId)
           | RetFalse => ret tt
           | Thrown msg => throw msg
           end) ;;
         forEach (runningPods s) portForwardPod ;;
         modify (set_interval true)
     | Error =>
         s <- get ;;
         _ <- setTimeout FormalInit (healthInterval s) ;;
         ret tt
     end)
    (fun _ => ret tt).

(** ** The event loop *)

Inductive Sig : Type := SIGHUP | SIGINT | SIGTERM.

Definition exitCodeOf (sg : Sig) : Z :=
  match sg with
  | SIGHUP => 1
  | SIGINT => 2
  | SIGTERM => 15
  end.

(** What the event loop can deliver: a firing of the
    [setInterval(healthCheck, healthInterval)] timer, the end of a
    [kubectl get pods], a [setTimeout] running out, output of a tunnel on
    [stdout] or [stderr], the [close] of a tunnel, a signal. *)
Inductive Event : Type :=
| Tick
| ExecDone (e : nat) (r : ExecResult)
| Timeout (t : nat)
| Data (child : nat) (chunk : string)
| Closed (child : nat)
| Signal (sg : Sig).

(** One turn of the event loop.  An event that cannot occur in [s] (no
    such call in flight, a timer that was cleared or has fired, a closed
    child) leaves [s] as it is. *)
Definition step (s : State) (ev : Event) : Res unit :=
  match ev with
  | Tick => if interval s then healthCheck s else Val tt s
  | ExecDone e r =>
      match execs s !! e with
      | Some (mkExec cmd (Some callback)) =>
          (modify (fun s => set_execs (<[e := mkExec cmd None]> (execs s)) s) ;;
           reply <- getPods_exec r ;;
           match callback with
           | InitCb => formalInit_cb reply
           | HealthCb => healthCheck_cb reply
           | ReinitCb c => tryReinitPod_cb c reply
           end) s
      | _ => Val tt s
      end
  | Timeout t =>
      match timers s !! t with
      | Some tm =>
          if due tm then
            (clearTimeout t ;;
             match fn tm with
             | FormalInit => formalInit
             | TryReinitPod c => tryReinitPod c
             end) s
          else Val tt s
      | None => Val tt s
      end
  | Data child chunk =>
      match children s !! child with
      | Some ch =>
          if closed ch then Val tt s
          else processKubectlLog chunk (owner ch) child s
      | None => Val tt s
      end
  | Closed child =>
      match children s !! child with
      | Some ch =>
          if closed ch then Val tt s
          else
            (modify (fun s =>
               set_children
                 (<[child := mkChild (owner ch) (args ch) (killed ch) true]> (children s)) s) ;;
             onClose (owner ch)) s
      | None => Val tt s
      end
  | Signal sg => process_exit (Some (exitCodeOf sg)) s
  end.

(** A sequence of turns; the loop stops when the process ends. *)
Fixpoint steps (s : State) (evs : list Event) : Res unit :=
  match evs with
  | [] => Val tt s
  | ev :: evs' =>
      match step s ev with
      | Val _ s' => steps s' evs'
      | r => r
      end
  end.

(** The state a callback leaves behind, however it ended. *)
Definition final {A} (r : Res A) : State :=
  match r with
  | Val _ s => s
  | Exit _ s => s
  | Uncaught _ s => s
  end.

(** The exit code of a run that has ended with [process.exit]. *)
Definition exitCode {A} (r : Res A) : option Z :=
  match r with
  | Exit code _ => Some code
  | _ => None
  end.

(** The state in which the program calls [formalInit()]: [runningPods]
    holds the records of [getPodMeta], nothing has been started. *)
Definition newPod (name from to : string) (ns : option string) : Pod.t :=
  Pod.mk name from to ns None false false false None None.

Definition boot (kubeConfig namespace : option string) (healthInterval : Z)
    (metas : list Pod.t) : State :=
  final (formalInit (mkState kubeConfig namespace healthInterval 0 metas
                       (seq 0 (length metas)) [] [] [] [] false)).

Definition reachable (s0 s : State) : Prop :=
  exists evs, steps s0 evs = Val tt s.

(** ** The phases of the specification

    The program keeps no phase field: a session's phase is read off the
    flags [excluded], [restartingState], [initialized] and its child
    process.  [healthCheck] sets [restartingState] and kills the child in
    one go, and nothing but the [close] of a child clears the flag, so the
    flag can still be set when a reconnection attempt has spawned the next
    child: a session is Restarting while the flag is set and the process
    it holds is the one that was killed, and has one of the forwarding
    phases as soon as it holds a process that has not been killed. *)

Inductive Phase : Type :=
| Resolving
| ForwardingInitializing
| ForwardingActive
| Restarting
| Excluded.

(** Whether [kill()] has been called on the process. *)
Definition wasKilled (s : State) (c : nat) : bool :=
  match children s !! c with
  | Some ch => killed ch
  | None => false
  end.

Definition phase (s : State) (p : Pod.t) : Phase :=
  if Pod.excluded p then Excluded
  else match Pod.childProcess p with
       | None => Resolving
       | Some c =>
           if Pod.restartingState p && wasKilled s c then Restarting
           else if Pod.initialized p then ForwardingActive
           else ForwardingInitializing
       end.

(** The reconnection closures of pod [i] that still have something
    scheduled: a [kubectl get pods] whose callback is theirs, or a timer
    that is due. *)
Definition inFlight (s : State) (c : nat) : bool :=
  existsb (fun e => match waiting e with
                    | Some (ReinitCb c') => Nat.eqb c c'
                    | _ => false
                    end) (execs s)
  || existsb (fun tm => due tm && match fn tm with
                                  | TryReinitPod c' => Nat.eqb c c'
                                  | FormalInit => false
                                  end) (timers s).

Definition ownedBy (s : State) (i c : nat) : bool :=
  bool_decide ((pod <$> chains s !! c) = Some i).

Definition protocolsInFlight (s : State) (i : nat) : nat :=
  length (filter (fun c => Is_true (inFlight s c && ownedBy s i c))
                 (seq 0 (length (chains s)))).

(** The timers of pod [i]'s closures that are due. *)
Definition dueTimers (s : State) (i : nat) : nat :=
  length (filter (fun tm => Is_true (due tm && match fn tm with
                                               | TryReinitPod c => ownedBy s i c
                                               | FormalInit => false
                                               end))
                 (timers s)).

(** ** The configuration merge: [_.merge(systemDefinedPods, localDefinedPods)]

    [_.merge] is lodash's; the program only calls it.  The model follows
    lodash's [baseMerge] and [baseMergeDeep] on the values [JSON.parse]
    yields for a configuration file: [null], booleans, numbers, strings and
    objects (a name maps to a port or to a record; arrays are not part of
    the format and are left out).  An object is the list of its own
    properties in the order of their creation; [Json.read] is the read
    [o[key]], which also finds what every object inherits, and
    [Json.ownKeys] is [Object.keys(o)], which lists the array indices
    first. *)

Module Json.
  #[local] Unset Elimination Schemes.
Inductive t : Type :=
  | Null
  | Bool (b : bool)
  | Num (n : Z)
  | Str (v : string)
  | Obj (props : list (string * t))
  | Builtin (name : string).
  #[local] Set Elimination Schemes.

  (** [Builtin name] is the member [name] of [Object.prototype]: a
      function, or for [__proto__] the prototype object itself.
      [JSON.parse] yields none; a read [o[key]] does. *)

Definition object : Type := list (string * t).

  (** The own property names, in the order of creation. *)
Definition keys (o : object) : list string := map fst o.

  (** The own property [key]; [None] when there is none. *)
Fixpoint prop (key : string) (o : object) : option t :=
    match o with
    | [] => None
    | (k, v) :: o' => if String.eqb key k then Some v else prop key o'
    end.

  (** The names of the members of [Object.prototype]. *)
Definition inherited (key : string) : bool :=
    existsb (String.eqb key)
      ["constructor"; "hasOwnProperty"; "isPrototypeOf"; "propertyIsEnumerable";
       "toLocaleString"; "toString"; "valueOf"; "__proto__";
       "__defineGetter__"; "__defineSetter__"; "__lookupGetter__";
       "__lookupSetter__"].

  (** [o[key]] on an object whose prototype is [Object.prototype] (an
      object literal, or one [JSON.parse] made): the own property, else
      the inherited member, else [undefined] ([None]). *)
Definition read (key : string) (o : object) : option t :=
    match prop key o with
    | Some v => Some v
    | None => if inherited key then Some (Builtin key) else None
    end.

  (** [o[key] = v] seen on the list of own properties: an existing
      property keeps its place, a new one is created last. *)
Fixpoint assign (key : string) (v : t) (o : object) : object :=
    match o with
    | [] => [(key, v)]
    | (k, w) :: o' =>
        if String.eqb key k then (k, v) :: o' else (k, w) :: assign key v o'
    end.

  (** The value of a string of decimal digits, most significant first. *)
Fixpoint digitsValue (acc : N) (s : string) : option N :=
    match s with
    | EmptyString => Some acc
    | String c s' =>
        if RegExp.digit c
        then digitsValue (acc * 10 + (N_of_ascii c - 48))%N s'
        else None
    end.

  (** A property name that is an array index: the canonical decimal form
      of an integer from 0 to 2^32 - 2. *)
Definition arrayIndex (key : string) : option N :=
    match key with
    | EmptyString => None
    | String c rest =>
        if Ascii.eqb c "0" && negb (String.eqb rest EmptyString) then None
        else match digitsValue 0 key with
             | Some n => if (n <=? 4294967294)%N then Some n else None
             | None => None
             end
    end.

  (** Insertion into a list of indices in ascending order. *)
Fixpoint insertIndex (n : N) (key : string) (l : list (N * string)) : list (N * string) :=
    match l with
    | [] => [(n, key)]
    | (m, k) :: l' =>
        if (n <=? m)%N then (n, key) :: l else (m, k) :: insertIndex n key l'
    end.

Fixpoint indexKeys (ks : list string) : list (N * string) :=
    match ks with
    | [] => []
    | k :: ks' =>
        match arrayIndex k with
        | Some n => insertIndex n k (indexKeys ks')
        | None => indexKeys ks'
        end
    end.

  (** [Object.keys(o)]: the array indices in ascending order, then the
      other names in the order of creation. *)
Definition ownKeys (o : object) : list string :=
    (map snd (indexKeys (keys o))
     ++ List.filter (fun k => negb (bool_decide (is_Some (arrayIndex k)))) (keys o))%list.
End Json.

Module Lodash.
Import Json.

  (** The value [baseMerge] leaves at a key whose destination value is
      [objValue] and whose source value is [srcValue].  A source value that
      is not an object is assigned as it is.  A source object is merged,
      property by property, into the destination value when that is an
      object, and into a fresh [{}] otherwise. *)
Fixpoint mergeValue (objValue : option t) (srcValue : t) {struct srcValue} : t :=
    match srcValue with
    | Obj source =>
        let newValue :=
          match objValue with
          | Some (Obj o) => o
          | _ => []
          end in
        Obj ((fix baseMerge (source object : Json.object) {struct source} : Json.object :=
                match source with
                | [] => object
                | (key, srcValue) :: rest =>
                    baseMerge rest
                      (assign key (mergeValue (prop key object) srcValue) object)
                end) source newValue)
    | _ => srcValue
    end.

  (** [baseMerge(object, source)] *)
Fixpoint baseMerge (source object : Json.object) {struct source} : Json.object :=
    match source with
    | [] => object
    | (key, srcValue) :: rest =>
        baseMerge rest (assign key (mergeValue (prop key object) srcValue) object)
    end.

  (** [_.merge(object, source)]: the destination after the call. *)
Definition merge (object source : Json.object) : Json.object :=
    baseMerge source object.
End Lodash.

(** The configuration the program works with after the merge. *)
Definition mergedPods (systemDefinedPods localDefinedPods : Json.object) : Json.object :=
  Lodash.merge systemDefinedPods localDefinedPods.

(** Every pod of [runningPods] exists and, when it is [initialized], has a
    child process (only a child's output sets [initialized]). *)
Definition attached (s : State) : bool :=
  forallb (fun i => match pods s !! i with
                    | Some p => implb (Pod.initialized p)
                                      (bool_decide (is_Some (Pod.childProcess p)))
                    | None => false
                    end) (runningPods s).

(** What a closure of pod [i] with counter [a] and query [e] in flight
    looks like in the state. *)
Definition awaiting (s : State) (e c i a : nat) (p : Pod.t) : Prop :=
  (exists cmd, execs s !! e = Some (mkExec cmd (Some (ReinitCb c))))
  /\ chains s !! c = Some (mkChain i a)
  /\ pods s !! i = Some p.

(** Between [s] and [s'] nothing new has happened for pod [i]:
    [runningPods] has not grown, the closures of [s] are still there with
    their pods, and, unless [i] was in [runningPods s], every closure of
    [i] in [s'] was already one in [s]. *)
Definition noNews (i : nat) (s s' : State) : Prop :=
  (forall j, j ∈ runningPods s' -> j ∈ runningPods s)
  /\ (forall c ch, chains s !! c = Some ch ->
        exists ch', chains s' !! c = Some ch' /\ pod ch' = pod ch)
  /\ (i ∉ runningPods s ->
      forall c ch', chains s' !! c = Some ch' -> pod ch' = i -> c < length (chains s)).

(** Every pod has a name, and an id if it has one, without pattern
    syntax, as the names Kubernetes gives have: the patterns built from
    them are then the ones [splice] describes.  An id that [getPodId]
    returns for such a name is again one. *)
Definition wellNamedPod (p : Pod.t) : bool :=
  plain (Pod.name p) && plain (default "undefined" (Pod.id p)).

Definition wellNamed (s : State) : bool := forallb wellNamedPod (pods s).

(** A callback leaves the pods well named. *)
Definition namesKept {A} (m : M A) : Prop :=
  forall s, wellNamed s = true -> wellNamed (final (m s)) = true.

(** Whether the event is an attempt of closure [c] that fails: one of its
    queries ends with a table in which [getPodId], silent, finds no
    running instance of the closure's pod. *)
Definition failsFor (c : nat) (s : State) (ev : Event) : bool :=
  match ev with
  | ExecDone e (Succeeded rawPods) =>
      match execs s !! e with
      | Some (mkExec _ (Some (ReinitCb c'))) =>
          Nat.eqb c c' &&
          match chains s !! c with
          | Some ch =>
              match pods s !! pod ch with
              | Some p =>
                  match getPodId (namespace s) rawPods (Pod.name p) true with
                  | RetId podId => negb (Text.truthy podId)
                  | RetFalse => true
                  | Thrown _ => false
                  end
              | None => false
              end
          | None => false
          end
      | _ => false
      end
  | _ => false
  end.

(** The number of failed attempts of closure [c] in a run of the event
    loop from [s]. *)
Fixpoint failures (c : nat) (s : State) (evs : list Event) : nat :=
  match evs with
  | [] => 0
  | ev :: evs' =>
      (if failsFor c s ev then 1 else 0)
      + match step s ev with
        | Val _ s' => failures c s' evs'
        | _ => 0
        end
  end.



(** ** Scenarios *)

(** A user-level and a project-level [pods.json] that both configure
    [db] with a record. *)
Definition systemPodsJson : Json.object :=
  [("web", Json.Num 8080);
   ("db", Json.Obj [("from", Json.Num 5432); ("to", Json.Num 5433)])].

Definition localPodsJson : Json.object :=
  [("db", Json.Obj [("from", Json.Num 6000)])].


(** Two sessions, as the end-to-end configuration of the specification
    gives them. *)
Definition demoBoot : State := Eval vm_compute in
  boot None None 5000
    [newPod "web" "8080" "8080" None; newPod "db" "5432" "5433" None].

Definition tableUp : string :=
  "NAME READY STATUS RESTARTS AGE" ++ nl_str ++
  "db-5d4f7 1/1 Running 0 9d" ++ nl_str ++
  "web-6c7d 1/1 Running 0 5m" ++ nl_str.

(** [web] has gone. *)
Definition tableDown : string :=
  "NAME READY STATUS RESTARTS AGE" ++ nl_str ++
  "db-5d4f7 1/1 Running 0 9d" ++ nl_str.

(** [web] is back under a new instance id. *)
Definition tableBack : string :=
  "NAME READY STATUS RESTARTS AGE" ++ nl_str ++
  "db-5d4f7 1/1 Running 0 9d" ++ nl_str ++
  "web-8e9f 1/1 Running 0 2s" ++ nl_str.

Definition forwardingLine (port : string) : string :=
  "Forwarding from 127.0.0.1:" ++ port ++ " -> " ++ port ++ nl_str.

Definition permissionLine : string :=
  "Unable to listen on port 80: Listeners failed to create with the following errors: [unable to create listener: Error listen tcp4 127.0.0.1:80: bind: permission denied]" ++ nl_str.

Definition inUseLine : string :=
  "Unable to listen on port 8080: Listeners failed to create with the following errors: [unable to create listener: Error listen tcp4 127.0.0.1:8080: bind: address already in use]" ++ nl_str.

Definition timeoutStderr : string :=
  "Unable to connect to the server: dial tcp 10.0.0.1:6443: i/o timeout" ++ nl_str.

(** Both tunnels have been started and have not reported yet. *)
Definition demoStarted : State := Eval vm_compute in
  final (steps demoBoot [ExecDone 0 (Succeeded tableUp)]).

(** Both tunnels forward. *)
Definition demoActive : State := Eval vm_compute in
  final (steps demoStarted
           [Data 0 (forwardingLine "8080"); Data 1 (forwardingLine "5432")]).

(** A health check has found [web] gone: its tunnel is killed and has
    closed, and the first query of the reconnection closure is in
    flight ([execs] entry 2). *)
Definition demoRestarting : State := Eval vm_compute in
  final (steps demoActive [Tick; ExecDone 1 (Succeeded tableDown); Closed 0]).

(** Both tunnels forward and a health check's query is in flight
    ([execs] entry 1). *)
Definition demoChecking : State := Eval vm_compute in
  final (steps demoActive [Tick]).

(** The tunnel of [web] ended by itself, the next health check found the
    pod gone and started a reconnection closure; its query is in flight
    ([execs] entry 2) and [restartingState] is set. *)
Definition demoReconnecting : State := Eval vm_compute in
  final (steps demoActive [Closed 0; Tick; ExecDone 1 (Succeeded tableDown)]).

(** A run in which the closed tunnel of [web] clears [restartingState]
    while the reconnection closure is still trying, so that the next
    health check starts a second closure for the same pod. *)
Definition overlappingRun : list Event :=
  [ExecDone 0 (Succeeded tableUp);
   Data 0 (forwardingLine "8080"); Data 1 (forwardingLine "5432");
   Tick; ExecDone 1 (Succeeded tableDown);
   Closed 0;
   ExecDone 2 (Succeeded tableDown);
   Timeout 0;
   Tick; ExecDone 4 (Succeeded tableDown)].

Definition overlapped : State := Eval vm_compute in
  final (steps demoBoot overlappingRun).

Definition overlappedLater : State := Eval vm_compute in
  final (steps overlapped
           [ExecDone 3 (Succeeded tableDown); ExecDone 5 (Succeeded tableDown)]).

(** The events of a reconnection closure whose query [e] is in flight
    and whose attempts fail on [tables] one after the other: the query
    ends, the timer it sets ([t], the next free timer) runs out and starts
    the next query ([e'], the next free [execs] entry). *)
Fixpoint retryRounds (e t e' : nat) (tables : list string) : list Event :=
  match tables with
  | [] => []
  | rawPods :: rest =>
      ExecDone e (Succeeded rawPods) :: Timeout t :: retryRounds e' (S t) (S e') rest
  end.

(** The closure of [web] has failed 20 times and waited 20 times; its
    21st query is in flight ([execs] entry 22). *)
Definition demoExhausting : State := Eval vm_compute in
  final (steps demoRestarting (retryRounds 2 0 3 (replicate 20 tableDown))).


(** The query in flight after [n] such rounds. *)
Definition queryAfter (e e' n : nat) : nat :=
  match n with
  | 0 => e
  | S m => e' + m
  end.

(** Both tunnels have been started and [db] forwards.  The tunnel of
    [web] has failed to bind its port and has written that to its
    [stderr], but the health check comes first: it finds [web] not
    [initialized], kills the tunnel and starts a reconnection closure,
    whose query is in flight ([execs] entry 2). *)
Definition demoPortTaken : State := Eval vm_compute in
  final (steps demoBoot
           [ExecDone 0 (Succeeded tableUp);
            Data 1 (forwardingLine "5432");
            Tick; ExecDone 1 (Succeeded tableUp)]).

(** The closure of [demoReconnecting] has found [web] again and has
    spawned the next tunnel (child 2); [restartingState] is still set. *)
Definition demoRespawned : State := Eval vm_compute in
  final (steps demoReconnecting [ExecDone 2 (Succeeded tableBack)]).

(** In [demoRestarting] the first attempt of the closure fails and its
    timer is set; the next health check (query 4) finds [restartingState]
    cleared by the [close] of the tunnel and starts a second closure
    (query 5), whose attempts fail one after the other. *)
Definition replacedRun : list Event :=
  [ExecDone 2 (Succeeded tableDown); Tick; ExecDone 3 (Succeeded tableDown)]
  ++ retryRounds 4 1 5 (replicate 20 tableDown).



(** A callback changes nothing for pod [i], however it ends. *)
Definition keeps {A} (i : nat) (m : M A) : Prop :=
  forall s, noNews i s (final (m s)).


(** ** Resolving the command line against the configuration

    The part of the program between the argument loop and
    [formalInit()]: [getPodName], [getPodMeta] and the construction of
    [runningPods].  The configuration objects are read with [Json.read]
    and listed with [Json.ownKeys]. *)

(** A value that is returned, or an exception that is thrown. *)
Inductive Try (A : Type) : Type :=
| Return (a : A)
| Raise (error : string).
Arguments Return {A} a.
Arguments Raise {A} error.

(** JavaScript truthiness of a value; [None] is [undefined]. *)
Definition truthyJson (v : option Json.t) : bool :=
  match v with
  | None => false
  | Some Json.Null => false
  | Some (Json.Bool b) => b
  | Some (Json.Num n) => negb (Z.eqb n 0)
  | Some (Json.Str t) => Text.truthy t
  | Some (Json.Obj _) => true
  | Some (Json.Builtin _) => true
  end.

(** [c.toLowerCase()] for an ASCII character *)
Definition lowerChar (c : ascii) : ascii :=
  if between "A" "Z" c then ascii_of_nat (nat_of_ascii c + 32) else c.

(** [s.toLowerCase()] *)
Fixpoint toLowerCase (s : string) : string :=
  match s with
  | EmptyString => EmptyString
  | String c s' => String (lowerChar c) (toLowerCase s')
  end.

(** The filter of [getPodName]. *)
Definition possiblePodsOf (systemDefinedPods : Json.object) (podName : string) : list string :=
  List.filter (fun pod => Text.startsWith (toLowerCase pod) (toLowerCase podName))
              (Json.ownKeys systemDefinedPods).

(** [getPodName(podName)]; [Return None] is [return false]. *)
Definition getPodName (systemDefinedPods : Json.object) (podName : string)
    : Try (option string) :=
  if truthyJson (Json.read podName systemDefinedPods) then Return (Some podName)
  else
    let possiblePods := possiblePodsOf systemDefinedPods podName in
    match possiblePods with
    | [pod] => Return (Some pod)
    | _ :: _ :: _ =>
        Raise ("More than one pod name matches " ++ chalk_cyan podName ++ ": "
               ++ chalk_cyan (Text.join "," possiblePods))
    | [] => Return None
    end.

Module Meta.
(** The record [getPodMeta] returns.  A port is whatever the
    configuration or the command line gave: [None] is [undefined]. *)
Record t : Type := mk {
  name : string;
  from : option Json.t;
  to : option Json.t;
  namespace : option string
}.
End Meta.

(** [v.to] and [v.from] for a value [v] that is not [null] or
    [undefined]: the own property of a record ([Object.prototype] has no
    member of these names), [undefined] on a number, a string, a boolean
    and on a member of [Object.prototype]. *)
Definition member (key : string) (v : Json.t) : option Json.t :=
  match v with
  | Json.Obj props => Json.prop key props
  | _ => None
  end.

(** [getPodMeta(podName)]; [namespace] is the global. *)
Definition getPodMeta (systemDefinedPods : Json.object) (namespace : option string)
    (podName : string) : Try Meta.t :=
  let split := Text.split ":" podName in
  match split with
  | fullPodName :: podPort :: rest =>
      let destPort :=
        match rest with
        | [third] => third
        | _ => podPort
        end in
      Return (Meta.mk fullPodName (Some (Json.Str podPort)) (Some (Json.Str destPort))
                      namespace)
  | _ =>
      match getPodName systemDefinedPods podName with
      | Raise error => Raise error
      | Return found =>
          match found with
          | Some fullPodName =>
              if Text.truthy fullPodName then
                match Json.read fullPodName systemDefinedPods with
                | None =>
                    Raise "TypeError: Cannot read properties of undefined (reading 'to')"
                | Some Json.Null =>
                    Raise "TypeError: Cannot read properties of null (reading 'to')"
                | Some podPort =>
                    if truthyJson (member "to" podPort)
                    then Return (Meta.mk fullPodName (member "from" podPort)
                                         (member "to" podPort) namespace)
                    else Return (Meta.mk fullPodName (Some podPort) (Some podPort)
                                         namespace)
                end
              else Raise ("Please specify port for " ++ chalk_cyan podName)
          | None => Raise ("Please specify port for " ++ chalk_cyan podName)
          end
      end
  end.

(** [podsToExclude.map(...)]: the first name that fails ends the map. *)
Fixpoint resolveExcluded (systemDefinedPods : Json.object) (podsToExclude : list string)
    : Try (list string) :=
  match podsToExclude with
  | [] => Return []
  | pod :: rest =>
      match getPodName systemDefinedPods pod with
      | Raise error => Raise error
      | Return (Some podMeta) =>
          if Text.truthy podMeta then
            match resolveExcluded systemDefinedPods rest with
            | Return names => Return (podMeta :: names)
            | Raise error => Raise error
            end
          else Raise ("Unknown pod to exclude: " ++ chalk_cyan pod)
      | Return None => Raise ("Unknown pod to exclude: " ++ chalk_cyan pod)
      end
  end.

(** [podsToForward.forEach(...)] pushing onto [runningPods]. *)
Fixpoint pushPods (systemDefinedPods : Json.object) (namespace : option string)
    (podsToExclude podsToForward : list string) (runningPods : list Meta.t)
    : Try (list Meta.t) :=
  match podsToForward with
  | [] => Return runningPods
  | podName :: rest =>
      match getPodMeta systemDefinedPods namespace podName with
      | Raise error => Raise error
      | Return podMeta =>
          if existsb (String.eqb (Meta.name podMeta)) podsToExclude
          then pushPods systemDefinedPods namespace podsToExclude rest runningPods
          else pushPods systemDefinedPods namespace podsToExclude rest
                        (runningPods ++ [podMeta])
      end
  end.

(** From the parsed arguments to the [runningPods] that [formalInit]
    finds, or to the exception the enclosing [try] logs. *)
Definition selectPods (systemDefinedPods localDefinedPods : Json.object)
    (namespace : option string) (podsToExclude podsToForward : list string)
    : Try (list Meta.t) :=
  match (match podsToForward with
         | [] =>
             match localDefinedPods with
             | [] => Raise "No pod names provided"
             | _ => Return (Json.ownKeys localDefinedPods)
             end
         | _ => Return podsToForward
         end) with
  | Raise error => Raise error
  | Return podsToForward' =>
      match resolveExcluded systemDefinedPods podsToExclude with
      | Raise error => Raise error
      | Return podsToExclude' =>
          match pushPods systemDefinedPods namespace podsToExclude' podsToForward' [] with
          | Raise error => Raise error
          | Return [] => Raise "No pod names provided"
          | Return runningPods => Return runningPods
          end
      end
  end.

(** The configuration of the end-to-end example. *)
Definition examplePodsJson : Json.object :=
  [("web", Json.Num 8080);
   ("db", Json.Obj [("from", Json.Num 5432); ("to", Json.Num 5433);
                    ("namespace", Json.Str "staging")])].

(** ** Leaving no tunnel behind *)

(** Every pod of [runningPods] that has a child process has had it
    killed. *)
Definition allKilled (s : State) : Prop :=
  forall i p c ch,
    i ∈ runningPods s -> pods s !! i = Some p -> Pod.childProcess p = Some c ->
    children s !! c = Some ch -> killed ch = true.

(** Whenever the callback ends the process, it has killed the tunnels. *)
Definition exitsClean {A} (m : M A) : Prop :=
  forall s code s', m s = Exit code s' -> allKilled s'.

(** ** Start-up *)

(** The arguments [portForwardPod] gives to [spawn] for pod [p]. *)
Definition tunnelArgs (s : State) (p : Pod.t) : list string :=
  (["port-forward"; default "undefined" (Pod.id p)]
   ++ [if Text.truthy (Pod.to p) then (Pod.from p ++ ":" ++ Pod.to p)%string else Pod.from p]
   ++ (if truthyOpt (kubeConfig s)
       then ["--kubeconfig"; default "" (kubeConfig s)] else [])
   ++ (if truthyOpt (Pod.namespace p)
       then ["--namespace"; default "" (Pod.namespace p)] else []))%list.

(** The first loop of [formalInit]'s callback, on one pod. *)
Definition resolveId (rawPods : string) (i : nat) : M unit :=
  p <- thePod i ;;
  s <- get ;;
  match getPodId (namespace s) rawPods (Pod.name p) false with
  | RetId podId => update i (Pod.set_id podId)
  | RetFalse => ret tt
  | Thrown msg => throw msg
  end.

(** * Properties *)

Local Open Scope list_scope.

(** ** [getPodId] on the tables of the examples *)

Example getPodId_table1 : getPodId None table1 "myapp" false = RetId "myapp-7f8c9".
Proof. reflexivity. Qed.

Example getPodId_table2_silent : getPodId None table2 "myapp" true = RetFalse.
Proof. reflexivity. Qed.

Example getPodId_table2_loud :
  getPodId None table2 "myapp" false
  = Thrown "Pod myapp is in Pending state, needs to be Running".
Proof. reflexivity. Qed.

Example getPodId_unknown :
  getPodId (Some "staging") table2 "cache" false
  = Thrown ("Could not find pod cache, available pods (namespace: staging): " ++ nl_str)%string.
Proof. reflexivity. Qed.

(** Without [silent] the function never returns [false]. *)
Lemma getPodId_loud ns rawPods podName :
  getPodId ns rawPods podName false <> RetFalse.
Proof.
  unfold getPodId.
  repeat (match goal with |- context [match ?x with _ => _ end] => destruct x end);
    discriminate.
Qed.

(** ** What a match of the patterns looks like *)

(** What the star hands to its continuation: a split of the text whose
    first part is in the class. *)
Lemma star_Some {A} (p : ascii -> bool) (s : string)
    (k : string -> string -> option A) (a : A) :
  star p s k = Some a ->
  exists t rest, s = (t ++ rest)%string
                 /\ forallb p (list_ascii_of_string t) = true
                 /\ k t rest = Some a.
Proof.
  revert k. induction s as [|c s IH]; intros k H; cbn in H.
  - exists ""%string, ""%string. auto.
  - destruct (p c) eqn:Hp.
    + destruct (star p s (fun t rest => k (String c t) rest)) as [a'|] eqn:Hs.
      * injection H as <-. destruct (IH _ Hs) as (t & rest & -> & Ht & Hk).
        exists (String c t), rest. cbn. rewrite Hp, Ht. auto.
      * exists ""%string, (String c s). auto.
    + exists ""%string, (String c s). auto.
Qed.

(** A name without pattern syntax spliced into a pattern matches itself
    only. *)
Lemma run_splice_Some {A} (name s : string)
    (k : string -> list string -> string -> option A) (a : A) :
  plain name = true ->
  run (splice name) s k = Some a ->
  exists rest, s = (name ++ rest)%string /\ k name [] rest = Some a.
Proof.
  revert s k. induction name as [|c name IH]; intros s k Hplain H.
  - cbn in H. exists s. auto.
  - cbn [plain] in Hplain.
    apply andb_prop in Hplain as [Hc Hname]. apply andb_prop in Hc as [_ Hc].
    apply negb_true_iff in Hc.
    cbn [splice] in H. rewrite Hc in H.
    cbn [run] in H. destruct s as [|d s]; [discriminate|].
    destruct (Ascii.eqb_spec c d) as [->|]; [|discriminate].
    destruct (IH _ _ Hname H) as (rest & -> & Hrest). exists rest. auto.
Qed.

Lemma exec_Some (r : re) (s : string) (m : list string) :
  exec r s = Some m ->
  exists s', run r s' (fun t g _ => Some (t :: g)) = Some m.
Proof.
  induction s as [|c s IH]; cbn; intros H.
  - destruct (run r "" _) eqn:E; [|discriminate]. exists ""%string. congruence.
  - destruct (run r (String c s) _) eqn:E.
    + exists (String c s). congruence.
    + auto.
Qed.

(** The id [getPodId] returns for a name without pattern syntax: the
    name, then characters of the class of the first star. *)
Lemma getPodId_shape
    (ns : option string) (rawPods podName id : string) (silent : bool) :
  plain podName = true ->
  getPodId ns rawPods podName silent = RetId id ->
  exists suffix,
    id = (podName ++ suffix)%string
    /\ forallb idchar (list_ascii_of_string suffix) = true.
Proof.
  intros Hplain H. unfold getPodId in H.
  destruct (exec (runningPattern podName) _) as [m|] eqn:Hm.
  - injection H as <-. apply exec_Some in Hm as [s' Hrun].
    unfold runningPattern in Hrun. cbn [run] in Hrun.
    apply (run_splice_Some _ _ _ _ Hplain) in Hrun as (rest1 & _ & Hrun).
    apply star_Some in Hrun as (suffix & rest2 & _ & Hsuffix & Hrun).
    apply star_Some in Hrun as (t & rest3 & _ & _ & Hrun).
    cbn in Hrun.
    repeat match type of Hrun with
           | match ?x with _ => _ end = Some _ => destruct x; try discriminate
           end.
    injection Hrun as <-. exists suffix. split; [|exact Hsuffix]. reflexivity.
  - destruct (exec (statePattern podName) _), silent; discriminate.
Qed.

Lemma plain_app (a b : string) : plain (a ++ b) = plain a && plain b.
Proof.
  induction a as [|c a IH]; cbn [String.append plain]; [reflexivity|].
  rewrite IH. apply andb_assoc.
Qed.

Lemma plain_idchars (s : string) :
  forallb idchar (list_ascii_of_string s) = true -> plain s = true.
Proof.
  induction s as [|c s IH]; cbn; [reflexivity|]. intros H.
  apply andb_prop in H as [Hc Hs]. rewrite (IH Hs), andb_true_r.
  unfold idchar, digit, lower, between in Hc.
  destruct c as [[] [] [] [] [] [] [] []]; cbn in Hc; try discriminate; reflexivity.
Qed.

(** Such an id is again without pattern syntax. *)
Lemma getPodId_plain
    (ns : option string) (rawPods podName podId : string) (silent : bool) :
  plain podName = true ->
  getPodId ns rawPods podName silent = RetId podId ->
  plain podId = true.
Proof.
  intros Hplain H.
  destruct (getPodId_shape ns rawPods podName podId silent Hplain H)
    as (suffix & -> & Hsuffix).
  rewrite plain_app, Hplain, (plain_idchars _ Hsuffix). reflexivity.
Qed.

(** ** Lines without the word [Running] are passed over *)

Lemma string_app_assoc (a b c : string) :
  ((a ++ b) ++ c = a ++ (b ++ c))%string.
Proof. induction a as [|x a IH]; cbn; [reflexivity | now rewrite IH]. Qed.

Lemma forallb_string_app (p : ascii -> bool) (a b : string) :
  forallb p (list_ascii_of_string (a ++ b))
  = forallb p (list_ascii_of_string a) && forallb p (list_ascii_of_string b).
Proof.
  induction a as [|x a IH]; cbn; [reflexivity|]. rewrite IH. apply andb_assoc.
Qed.

Lemma forallb_string_impl (p q : ascii -> bool) (a : string) :
  (forall c, p c = true -> q c = true) ->
  forallb p (list_ascii_of_string a) = true ->
  forallb q (list_ascii_of_string a) = true.
Proof.
  intros Hpq. induction a as [|x a IH]; cbn; [reflexivity|].
  intros H. apply andb_prop in H as [Hx Ha]. rewrite (Hpq _ Hx). auto.
Qed.

(** A text without line feed that begins [l], a line feed, ... lies
    within [l]. *)
Lemma prefix_within_line (P w l rest : string) :
  forallb notLF (list_ascii_of_string P) = true ->
  (P ++ w)%string = (l ++ String nl rest)%string ->
  exists l', l = (P ++ l')%string.
Proof.
  revert l. induction P as [|x P IH]; intros l HP H.
  - exists l. reflexivity.
  - cbn in HP. apply andb_prop in HP as [Hx HP].
    destruct l as [|y l]; cbn in H; injection H as Hxy H.
    + subst x. unfold notLF in Hx. rewrite Ascii.eqb_refl in Hx. discriminate.
    + subst y. destruct (IH l HP H) as [l' ->]. exists l'. reflexivity.
Qed.

Lemma startsWith_prefix (p rest : string) :
  Text.startsWith (p ++ rest)%string p = true.
Proof.
  induction p as [|c p IH]; cbn; [reflexivity|].
  rewrite Ascii.eqb_refl. exact IH.
Qed.

Lemma includes_middle (a p b : string) :
  Text.includes (a ++ p ++ b)%string p = true.
Proof.
  induction a as [|x a IH].
  - cbn [String.append]. destruct (p ++ b)%string eqn:E.
    + destruct p; [reflexivity | discriminate].
    + cbn [Text.includes]. rewrite <- E, startsWith_prefix. reflexivity.
  - cbn [String.append Text.includes]. rewrite IH. apply orb_true_r.
Qed.

(** The first pattern of [getPodId] has no match that starts in a line
    without the word [Running]: neither the name, nor the classes of the
    two stars (the second one is [.]) take a line feed. *)
Lemma run_runningPattern_line (name l rest : string) :
  plain name = true ->
  forallb notLF (list_ascii_of_string name) = true ->
  Text.includes l "Running" = false ->
  run (runningPattern name) (l ++ String nl rest) (fun t g _ => Some (t :: g)) = None.
Proof.
  intros Hplain Hname Hl.
  destruct (run _ _ _) as [m|] eqn:Hrun; [exfalso | reflexivity].
  unfold runningPattern in Hrun. cbn [run] in Hrun.
  apply (run_splice_Some _ _ _ _ Hplain) in Hrun as (r1 & E1 & Hrun).
  apply star_Some in Hrun as (u & r2 & -> & Hu & Hrun).
  apply star_Some in Hrun as (v & r3 & -> & Hv & Hrun).
  apply (run_splice_Some "Running") in Hrun as (r4 & -> & _); [|reflexivity].
  assert (E : ((name ++ u ++ v ++ "Running") ++ r4)%string
              = (l ++ String nl rest)%string).
  { rewrite E1. rewrite !string_app_assoc. reflexivity. }
  apply prefix_within_line in E as [l' ->].
  - rewrite !string_app_assoc in Hl.
    assert (H := includes_middle (name ++ u ++ v) "Running" l').
    rewrite !string_app_assoc in H. rewrite H in Hl. discriminate.
  - rewrite !forallb_string_app, Hname.
    rewrite (forallb_string_impl idchar notLF u), (forallb_string_impl dot notLF v);
      [reflexivity | | exact Hv | | exact Hu].
    + intros c Hc. unfold dot in Hc. unfold notLF, nl.
      apply negb_true_iff in Hc. apply orb_false_elim in Hc as [-> _]. reflexivity.
    + intros c Hc. unfold notLF, nl.
      destruct (Ascii.eqb_spec c "010"%char) as [->|]; [discriminate | reflexivity].
Qed.

Lemma includes_tail (c : ascii) (l p : string) :
  Text.includes (String c l) p = false -> Text.includes l p = false.
Proof. cbn [Text.includes]. intros H. apply orb_false_elim in H as [_ H]. exact H. Qed.

Lemma exec_skips_line (name l rest : string) :
  plain name = true ->
  forallb notLF (list_ascii_of_string name) = true ->
  Text.includes l "Running" = false ->
  exec (runningPattern name) (l ++ String nl rest) = exec (runningPattern name) rest.
Proof.
  intros Hplain Hname. induction l as [|c l IH]; intros Hl.
  - assert (H := run_runningPattern_line name "" rest Hplain Hname Hl).
    cbn [String.append exec] in *. rewrite H. reflexivity.
  - assert (H := run_runningPattern_line name (String c l) rest Hplain Hname Hl).
    cbn [String.append exec] in *. rewrite H. apply IH. eapply includes_tail, Hl.
Qed.

Lemma exec_skips_lines (name : string) (pre : list string) (line : string)
    (post : list string) :
  plain name = true ->
  forallb notLF (list_ascii_of_string name) = true ->
  Forall (fun l => Text.includes l "Running" = false) pre ->
  exec (runningPattern name) (Text.join nl_str (pre ++ line :: post))
  = exec (runningPattern name) (Text.join nl_str (line :: post)).
Proof.
  intros Hplain Hname. induction 1 as [|l pre Hl Hpre IH]; [reflexivity|].
  cbn [app]. rewrite <- IH.
  replace (Text.join nl_str (l :: pre ++ line :: post))
    with (l ++ String nl (Text.join nl_str (pre ++ line :: post)))%string.
  - apply exec_skips_line; assumption.
  - destruct pre; reflexivity.
Qed.

(** ** The two tables of the specification *)

(** The claim as the specification words it asks only that the table
    contains the line.  In [table6] another Running instance of [myapp]
    comes first, and that one is returned. *)
Lemma C9_counterexample :
  In "myapp-7f8c9 1/1 Running 0 3m"%string (Text.split nl table6)
  /\ getPodId None table6 "myapp" false = RetId "myapp-0aaa"
  /\ getPodId None table6 "myapp" true = RetId "myapp-0aaa"
  /\ getPodId None table6 "myapp" false <> RetId "myapp-7f8c9".
Proof. vm_compute. repeat split; auto. discriminate. Qed.

(** C9: on a table in which [myapp-7f8c9 1/1 Running 0 3m] is the first
    of the lines starting with [myapp] that holds the word [Running],
    whatever lines come before and after it, [getPodId] for [myapp]
    returns [myapp-7f8c9] in both modes; on a table whose only line
    starting with [myapp] is [myapp-7f8c9 0/1 Pending 0 10s] it returns
    [false] when [silent] and otherwise throws a message that mentions
    [Pending]. *)
Theorem C9_getPodId_examples
    (ns : option string) (t1 t2 : string) (earlier later : list string)
    (silent : bool) :
  filterPods (Text.split nl t1) "myapp"
  = earlier ++ "myapp-7f8c9 1/1 Running 0 3m" :: later ->
  Forall (fun l => Text.includes l "Running" = false) earlier ->
  filterPods (Text.split nl t2) "myapp" = ["myapp-7f8c9 0/1 Pending 0 10s"] ->
  getPodId ns t1 "myapp" silent = RetId "myapp-7f8c9"
  /\ getPodId ns t2 "myapp" true = RetFalse
  /\ exists msg, getPodId ns t2 "myapp" false = Thrown msg
                 /\ Text.includes msg "Pending" = true.
Proof.
  intros H1 Hearlier H2. unfold getPodId. rewrite H1, H2. split; [|split].
  - rewrite exec_skips_lines by (reflexivity || exact Hearlier).
    destruct later as [|o os]; reflexivity.
  - reflexivity.
  - eexists. split; reflexivity.
Qed.

Lemma C9_getPodId_examples_witness :
  (getPodId None table5 "myapp" false = RetId "myapp-7f8c9"
   /\ getPodId None table2 "myapp" true = RetFalse
   /\ exists msg, getPodId None table2 "myapp" false = Thrown msg
                  /\ Text.includes msg "Pending" = true)
  /\ getPodId None table1 "myapp" true = RetId "myapp-7f8c9".
Proof.
  split.
  - apply (C9_getPodId_examples None table5 table2
             ["myapp-0aaa 0/1 Pending 0 4s"%string] []).
    + reflexivity.
    + repeat constructor.
    + reflexivity.
  - apply (C9_getPodId_examples None table1 table2 [] [] true).
    + reflexivity.
    + constructor.
    + reflexivity.
Defined.

(** The line filter is a plain prefix test: a line of a longer-named
    workload passes the filter of every prefix of its name. *)
Lemma startsWith_app (p q rest : string) :
  Text.startsWith ((p ++ q) ++ rest)%string p = true.
Proof.
  induction p as [|c p IH]; simpl; [reflexivity|].
  rewrite Ascii.eqb_refl. exact IH.
Qed.

Example getPodId_table4 : getPodId None table4 "web" true = RetId "webapp-1a2b".
Proof. reflexivity. Qed.

(** C10: for the prefix [web] and a table whose first line starting with
    [web] is the Running line of [webapp-1a2b], [getPodId] returns
    [webapp-1a2b], the instance of the longer-named workload [webapp]. *)
Theorem C10_getPodId_longer_name
    (ns : option string) (rawPods : string) (others : list string) (silent : bool) :
  filterPods (Text.split nl rawPods) "web" = "webapp-1a2b 1/1 Running 0 5m" :: others ->
  getPodId ns rawPods "web" silent = RetId "webapp-1a2b"
  /\ Text.startsWith "webapp-1a2b 1/1 Running 0 5m" "web" = true
  /\ exec (runningPattern "web") "webapp-1a2b 1/1 Running 0 5m"
     = exec (runningPattern "webapp") "webapp-1a2b 1/1 Running 0 5m".
Proof.
  intros H. unfold getPodId. rewrite H. split; [|split].
  - destruct others as [|o os]; reflexivity.
  - reflexivity.
  - reflexivity.
Qed.

Lemma C10_getPodId_longer_name_witness :
  getPodId None table3 "web" true = RetId "webapp-1a2b"
  /\ Text.startsWith "webapp-1a2b 1/1 Running 0 5m" "web" = true
  /\ exec (runningPattern "web") "webapp-1a2b 1/1 Running 0 5m"
     = exec (runningPattern "webapp") "webapp-1a2b 1/1 Running 0 5m".
Proof.
  apply (C10_getPodId_longer_name None table3 []). reflexivity.
Defined.

(** ** Running callbacks *)

Lemma alter_insert {A} (f : A -> A) (l : list A) (i : nat) (x : A) :
  l !! i = Some x -> alter f i l = <[i := f x]> l.
Proof.
  revert i. induction l as [|y l IH]; intros [|i] H; simpl in *; try done.
  - congruence.
  - f_equal. apply IH, H.
Qed.

Lemma bind_val {A B} (m : M A) (f : A -> M B) s a s' :
  m s = Val a s' -> bind m f s = f a s'.
Proof. unfold bind. intros ->. reflexivity. Qed.

Lemma thePod_val s i p : pods s !! i = Some p -> thePod i s = Val p s.
Proof. unfold thePod. intros ->. reflexivity. Qed.

Lemma theChain_val s c ch : chains s !! c = Some ch -> theChain c s = Val ch s.
Proof. unfold theChain. intros ->. reflexivity. Qed.

(** ** Leaving the process: [cleanup] always completes *)

Lemma cleanup_loop_val (l : list nat) :
  forall s, exists s',
    forEach l (fun i => tryCatch (killChildProcess i) (fun _ => ret tt)) s = Val tt s'.
Proof.
  induction l as [|i l IH]; intros s; simpl.
  - eexists. reflexivity.
  - unfold bind at 1.
    assert (H : exists s1, tryCatch (killChildProcess i) (fun _ => ret tt) s = Val tt s1).
    { unfold tryCatch, killChildProcess, bind, thePod.
      destruct (pods s !! i) as [p|]; [|eexists; reflexivity].
      destruct (Pod.childProcess p); eexists; reflexivity. }
    destruct H as [s1 ->]. apply IH.
Qed.

Lemma process_exit_exits (code : option Z) (s : State) :
  exists s', process_exit code s = Exit (default 0%Z code) s'.
Proof.
  unfold process_exit, cleanup, bind, get.
  destruct (cleanup_loop_val (runningPods s) s) as [s' ->]. eauto.
Qed.

Lemma process_exit_empty (code : option Z) (s : State) :
  runningPods s = [] -> process_exit code s = Exit (default 0%Z code) s.
Proof.
  intros H. unfold process_exit, cleanup, bind, get. rewrite H. reflexivity.
Qed.

(** ** Forwarding established *)

(** A session in Forwarding-Initializing has not reported yet, and
    whether it still carries [restartingState] from the restart that
    spawned its process makes no difference. *)
Lemma phase_initializing (s : State) (p : Pod.t) :
  phase s p = ForwardingInitializing <->
  Pod.excluded p = false /\ Pod.initialized p = false
  /\ exists c, Pod.childProcess p = Some c
               /\ (Pod.restartingState p = false \/ wasKilled s c = false).
Proof.
  unfold phase.
  destruct (Pod.excluded p);
    [split; [discriminate | intros (? & _); discriminate]|].
  destruct (Pod.childProcess p) as [c|];
    [|split; [discriminate | intros (_ & _ & c' & ? & _); discriminate]].
  destruct (Pod.restartingState p), (wasKilled s c) eqn:K, (Pod.initialized p);
    cbn; split; try discriminate;
    solve [ intros _; repeat split; eauto
          | intros (_ & ? & c' & E & [?|?]); injection E as <-; congruence ].
Qed.

(** C8: for every session that has not reported forwarding yet, and so
    for every session in Forwarding-Initializing, the first chunk of
    output classified as forwarding-established sets [initialized] and
    nothing else, which moves a session in Forwarding-Initializing to
    Forwarding-Active; a further such chunk, from any open child of the
    session, leaves the whole state as it is. *)
Theorem C8_forwarding_established_once
    (s : State) (child child' : nat) (ch ch' : Child) (p : Pod.t)
    (line line' : string) :
  children s !! child = Some ch -> closed ch = false ->
  children s !! child' = Some ch' -> closed ch' = false ->
  owner ch' = owner ch ->
  pods s !! owner ch = Some p ->
  Pod.initialized p = false ->
  classify line = ForwardingFrom ->
  classify line' = ForwardingFrom ->
  let p1 := Pod.set_initialized true p in
  let s1 := set_pods (<[owner ch := p1]> (pods s)) s in
  step s (Data child line) = Val tt s1
  /\ (phase s p = ForwardingInitializing -> phase s1 p1 = ForwardingActive)
  /\ step s1 (Data child' line') = Val tt s1.
Proof.
  intros Hc Hopen Hc' Hopen' Hown Hp Hinit Hl Hl' p1 s1.
  assert (Hs1 : pods s1 !! owner ch = Some p1).
  { subst s1. simpl. apply list_lookup_insert_eq. eapply lookup_lt_Some; eauto. }
  split; [|split].
  - unfold step. rewrite Hc, Hopen. unfold processKubectlLog.
    rewrite (bind_val _ _ _ _ _ (thePod_val _ _ _ Hp)), Hl, Hinit.
    unfold update, modify. subst s1 p1. f_equal. f_equal.
    apply alter_insert. exact Hp.
  - unfold phase, wasKilled. subst s1 p1. cbn.
    destruct (Pod.excluded p), (Pod.childProcess p) as [c|]; try discriminate.
    destruct (Pod.restartingState p && _); [discriminate | reflexivity].
  - unfold step. replace (children s1) with (children s) by reflexivity.
    rewrite Hc', Hopen', Hown. unfold processKubectlLog.
    rewrite (bind_val _ _ _ _ _ (thePod_val _ _ _ Hs1)), Hl'. reflexivity.
Qed.


(** ** A successful query *)

Lemma set_restartAttempt_same (s : State) : set_restartAttempt (restartAttempt s) s = s.
Proof. destruct s. reflexivity. Qed.

Lemma getPods_exec_ok (rawPods : string) (s : State) :
  exists n, getPods_exec (Succeeded rawPods) s = Val (Table rawPods) (set_restartAttempt n s).
Proof.
  unfold getPods_exec, bind, get, modify, ret.
  destruct (0 <? restartAttempt s)%nat.
  - exists 0. reflexivity.
  - exists (restartAttempt s). rewrite set_restartAttempt_same. reflexivity.
Qed.

(** The turn that delivers the table of a reconnection query runs
    [tryReinitPod_cb] on the state with the query marked as done. *)
Lemma step_reinit_ok (s : State) (e c : nat) (cmd rawPods : string) :
  execs s !! e = Some (mkExec cmd (Some (ReinitCb c))) ->
  exists n,
    step s (ExecDone e (Succeeded rawPods))
    = tryReinitPod_cb c (Table rawPods)
        (set_restartAttempt n (set_execs (<[e := mkExec cmd None]> (execs s)) s)).
Proof.
  intros He. unfold step. rewrite He.
  destruct (getPods_exec_ok rawPods (set_execs (<[e := mkExec cmd None]> (execs s)) s))
    as [n Hn].
  exists n. unfold bind at 1. unfold modify at 1.
  rewrite (bind_val _ _ _ _ _ Hn). reflexivity.
Qed.

(** ** Exit codes *)

(** The run ends with code 0 on a permission error. *)
Lemma permission_denied_exit (s : State) (child : nat) (ch : Child) (line : string) :
  children s !! child = Some ch -> closed ch = false ->
  is_Some (pods s !! owner ch) ->
  classify line = PermissionDenied ->
  exists s', step s (Data child line) = Exit 0 s'.
Proof.
  intros Hc Hopen [p Hp] Hl. unfold step. rewrite Hc, Hopen.
  unfold processKubectlLog. rewrite (bind_val _ _ _ _ _ (thePod_val _ _ _ Hp)), Hl.
  apply (process_exit_exits (Some 0%Z)).
Qed.

(** The run ends with code 0 when an attempt fails at the ceiling. *)
Lemma retries_exhausted_exit
    (s : State) (e c : nat) (cmd rawPods : string) (ch : Chain) (p : Pod.t) :
  execs s !! e = Some (mkExec cmd (Some (ReinitCb c))) ->
  chains s !! c = Some ch ->
  pods s !! pod ch = Some p ->
  maxAttempt <= attempt ch ->
  getPodId (namespace s) rawPods (Pod.name p) true = RetFalse ->
  exists s', step s (ExecDone e (Succeeded rawPods)) = Exit 0 s'.
Proof.
  intros He Hc Hp Hmax Hno.
  destruct (step_reinit_ok s e c cmd rawPods He) as [n ->].
  unfold tryReinitPod_cb.
  erewrite bind_val by (apply theChain_val; exact Hc).
  erewrite bind_val by (apply thePod_val; exact Hp).
  unfold bind at 1. unfold get at 1. cbn [namespace set_restartAttempt set_execs].
  rewrite Hno.
  destruct (Nat.leb_spec maxAttempt (attempt ch)) as [_|Hlt]; [|lia].
  apply (process_exit_exits None).
Qed.

(** C2 (as the program has it): a run that ends because a tunnel reports
    a bind-permission error, or because a reconnection attempt fails with
    the attempt counter at the ceiling, exits with code 0. *)
Theorem C2_fatal_exit_code_is_zero
    (s : State) (child : nat) (chd : Child) (line : string)
    (s2 : State) (e c : nat) (cmd rawPods : string) (ch : Chain) (p : Pod.t) :
  children s !! child = Some chd -> closed chd = false ->
  is_Some (pods s !! owner chd) ->
  classify line = PermissionDenied ->
  execs s2 !! e = Some (mkExec cmd (Some (ReinitCb c))) ->
  chains s2 !! c = Some ch ->
  pods s2 !! pod ch = Some p ->
  maxAttempt <= attempt ch ->
  getPodId (namespace s2) rawPods (Pod.name p) true = RetFalse ->
  exitCode (step s (Data child line)) = Some 0%Z
  /\ exitCode (step s2 (ExecDone e (Succeeded rawPods))) = Some 0%Z.
Proof.
  intros Hc Hopen Hp Hl He Hch Hp2 Hmax Hno. split.
  - destruct (permission_denied_exit s child chd line Hc Hopen Hp Hl) as [s' ->].
    reflexivity.
  - destruct (retries_exhausted_exit s2 e c cmd rawPods ch p He Hch Hp2 Hmax Hno)
      as [s' ->].
    reflexivity.
Qed.

(** ** The reconnection closure *)

(** A failed attempt below the ceiling: the counter goes up by one and one
    timer of [attemptDuration] is set and stored in [initInterval]. *)
Lemma failed_attempt
    (s : State) (e c i a : nat) (rawPods : string) (p : Pod.t) :
  awaiting s e c i a p ->
  a < maxAttempt ->
  getPodId (namespace s) rawPods (Pod.name p) true = RetFalse ->
  exists s',
    step s (ExecDone e (Succeeded rawPods)) = Val tt s'
    /\ chains s' = <[c := mkChain i (S a)]> (chains s)
    /\ timers s' = timers s ++ [mkTimer (TryReinitPod c) attemptDuration true]
    /\ pods s' = <[i := Pod.set_initInterval (length (timers s)) p]> (pods s)
    /\ length (execs s') = length (execs s)
    /\ children s' = children s
    /\ runningPods s' = runningPods s
    /\ namespace s' = namespace s
    /\ kubeConfig s' = kubeConfig s
    /\ interval s' = interval s.
Proof.
  intros ([cmd He] & Hc & Hp) Ha Hno.
  destruct (step_reinit_ok s e c cmd rawPods He) as [n ->].
  unfold tryReinitPod_cb.
  erewrite bind_val by (apply theChain_val; exact Hc).
  erewrite bind_val by (apply thePod_val; exact Hp).
  unfold bind at 1. unfold get at 1. cbn [namespace set_restartAttempt set_execs].
  rewrite Hno. cbn [attempt pod].
  destruct (Nat.leb_spec maxAttempt a) as [Hge|_]; [lia|].
  unfold bind, modify, setTimeout, update. cbn.
  eexists. split; [reflexivity|]. cbn.
  rewrite (alter_insert _ _ _ _ Hc), (alter_insert _ _ _ _ Hp), length_insert.
  repeat split; reflexivity.
Qed.

(** The timer of a closure runs out: its next query starts. *)
Lemma timer_fires (s : State) (t c : nat) (d : Z) :
  timers s !! t = Some (mkTimer (TryReinitPod c) d true) ->
  exists cmd,
    step s (Timeout t)
    = Val tt (set_execs (execs s ++ [mkExec cmd (Some (ReinitCb c))])
                (set_timers (<[t := mkTimer (TryReinitPod c) d false]> (timers s)) s)).
Proof.
  intros Ht. unfold step. rewrite Ht. cbn [due fn].
  unfold bind, clearTimeout, tryReinitPod, getPods, modify. cbn.
  rewrite (alter_insert _ _ _ _ Ht). eexists. reflexivity.
Qed.

Lemma insert_app_last {A} (l : list A) (x y : A) :
  <[length l := y]> (l ++ [x]) = l ++ [y].
Proof. induction l as [|z l IH]; simpl; [reflexivity|]. f_equal. exact IH. Qed.

(** One round: a failed attempt, then the wait. *)
Lemma failed_round
    (s : State) (e c i a : nat) (rawPods : string) (p : Pod.t) :
  awaiting s e c i a p ->
  a < maxAttempt ->
  getPodId (namespace s) rawPods (Pod.name p) true = RetFalse ->
  exists s',
    steps s [ExecDone e (Succeeded rawPods); Timeout (length (timers s))] = Val tt s'
    /\ awaiting s' (length (execs s)) c i (S a)
         (Pod.set_initInterval (length (timers s)) p)
    /\ timers s' = timers s ++ [mkTimer (TryReinitPod c) attemptDuration false]
    /\ length (execs s') = S (length (execs s))
    /\ children s' = children s
    /\ runningPods s' = runningPods s
    /\ namespace s' = namespace s
    /\ kubeConfig s' = kubeConfig s
    /\ interval s' = interval s.
Proof.
  intros Haw Ha Hno.
  destruct (failed_attempt s e c i a rawPods p Haw Ha Hno)
    as (s1 & Hstep & Hch & Htm & Hpods & Hlen & Hkids & Hrp & Hns & Hkc & Hiv).
  destruct Haw as (_ & Hc & Hp).
  assert (Ht : timers s1 !! length (timers s)
               = Some (mkTimer (TryReinitPod c) attemptDuration true)).
  { rewrite Htm. apply list_lookup_middle. reflexivity. }
  destruct (timer_fires s1 _ _ _ Ht) as [cmd Hfire].
  eexists. split.
  { cbn [steps]. rewrite Hstep, Hfire. reflexivity. }
  cbn. rewrite Htm, insert_app_last.
  repeat split; try assumption.
  - exists cmd. cbn. apply list_lookup_middle. symmetry. exact Hlen.
  - cbn. rewrite Hch. apply list_lookup_insert_eq. eapply lookup_lt_Some; eauto.
  - cbn. rewrite Hpods. apply list_lookup_insert_eq. eapply lookup_lt_Some; eauto.
  - rewrite length_app. simpl. lia.
Qed.

Lemma retryRounds_app (tables : list string) (rawPods : string) :
  forall e t e',
    retryRounds e t e' (tables ++ [rawPods])
    = retryRounds e t e' tables
      ++ [ExecDone (queryAfter e e' (length tables)) (Succeeded rawPods);
          Timeout (t + length tables)].
Proof.
  induction tables as [|x tables IH]; intros e t e'; simpl.
  - rewrite Nat.add_0_r. reflexivity.
  - rewrite IH.
    replace (queryAfter e' (S e') (length tables)) with (e' + length tables)
      by (destruct tables; simpl; lia).
    replace (S t + length tables) with (t + S (length tables)) by lia.
    reflexivity.
Qed.

Lemma steps_app (evs1 evs2 : list Event) :
  forall s s', steps s evs1 = Val tt s' -> steps s (evs1 ++ evs2) = steps s' evs2.
Proof.
  induction evs1 as [|ev evs1 IH]; intros s s' H; simpl in *.
  - congruence.
  - destruct (step s ev) as [[] s1| |]; try discriminate. apply IH, H.
Qed.

(** Any number of rounds up to the ceiling. *)
Lemma failed_rounds (tables : list string) :
  forall (s : State) (e c i : nat) (p : Pod.t),
    awaiting s e c i 0 p ->
    length tables <= maxAttempt ->
    Forall (fun rawPods => getPodId (namespace s) rawPods (Pod.name p) true = RetFalse)
           tables ->
    exists s' p',
      steps s (retryRounds e (length (timers s)) (length (execs s)) tables) = Val tt s'
      /\ awaiting s' (queryAfter e (length (execs s)) (length tables)) c i
           (length tables) p'
      /\ timers s'
         = timers s
           ++ replicate (length tables) (mkTimer (TryReinitPod c) attemptDuration false)
      /\ length (execs s') = length (execs s) + length tables
      /\ Pod.name p' = Pod.name p
      /\ Pod.id p' = Pod.id p
      /\ Pod.childProcess p' = Pod.childProcess p
      /\ children s' = children s
      /\ runningPods s' = runningPods s
      /\ namespace s' = namespace s
      /\ kubeConfig s' = kubeConfig s
      /\ interval s' = interval s.
Proof.
  induction tables as [|rawPods tables IH] using rev_ind; intros s e c i p Haw Hlen Hall.
  - exists s, p. simpl. rewrite app_nil_r, Nat.add_0_r. repeat split; try reflexivity.
    all: apply Haw.
  - rewrite length_app in *. simpl in Hlen.
    apply Forall_app in Hall as [Hall Hlast]. apply Forall_inv in Hlast.
    destruct (IH s e c i p Haw ltac:(lia) Hall)
      as (s1 & p1 & Hsteps & Haw1 & Htm & Hex & Hnm & Hid & Hcp & Hkids & Hrp & Hns & Hkc & Hiv).
    assert (Hno : getPodId (namespace s1) rawPods (Pod.name p1) true = RetFalse)
      by (rewrite Hns, Hnm; exact Hlast).
    destruct (failed_round s1 _ c i (length tables) rawPods p1 Haw1 ltac:(lia) Hno)
      as (s2 & Hround & Haw2 & Htm2 & Hex2 & Hkids2 & Hrp2 & Hns2 & Hkc2 & Hiv2).
    exists s2, (Pod.set_initInterval (length (timers s1)) p1).
    rewrite retryRounds_app, (steps_app _ _ _ _ Hsteps).
    assert (Hlt : length (timers s) + length tables = length (timers s1)).
    { rewrite Htm, length_app, length_replicate. reflexivity. }
    rewrite Hlt. split; [exact Hround|].
    simpl length. replace (length tables + 1) with (S (length tables)) by lia.
    split.
    { cbn [queryAfter]. rewrite <- Hex. exact Haw2. }
    repeat split; cbn [Pod.name Pod.id Pod.childProcess Pod.set_initInterval];
      try congruence.
    + rewrite Htm2, Htm, <- app_assoc. f_equal.
      change [mkTimer (TryReinitPod c) attemptDuration false]
        with (replicate 1 (mkTimer (TryReinitPod c) attemptDuration false)).
      rewrite <- replicate_add. f_equal. lia.
    + lia.
Qed.


(** A health check that finds a pod gone, or not yet forwarding, and not
    marked as restarting: the tunnel is killed, a fresh closure with its
    counter at zero is created, the timer in [initInterval] is cleared and
    the closure's first query starts. *)
Lemma checkPod_restarts
    (s : State) (rawPods : string) (i child : nat) (p : Pod.t) :
  pods s !! i = Some p ->
  Pod.restartingState p = false ->
  Pod.childProcess p = Some child ->
  exec (stillRunningPattern (default "undefined"%string (Pod.id p))) rawPods = None
  \/ Pod.initialized p = false ->
  exists s' cmd,
    checkPod rawPods i s = Val tt s'
    /\ chains s' = chains s ++ [mkChain i 0]
    /\ execs s' = execs s ++ [mkExec cmd (Some (ReinitCb (length (chains s))))]
    /\ pods s'
       = <[i := Pod.set_initialized false (Pod.set_restartingState true p)]> (pods s)
    /\ children s'
       = alter (fun ch => mkChild (owner ch) (args ch) true (closed ch)) child (children s)
    /\ timers s'
       = match Pod.initInterval p with
         | Some t => alter (fun tm => mkTimer (fn tm) (delay tm) false) t (timers s)
         | None => timers s
         end
    /\ runningPods s' = runningPods s.
Proof.
  intros Hp Hrs Hcp Hdead. unfold checkPod.
  erewrite bind_val by (apply thePod_val; exact Hp).
  rewrite Hrs.
  assert (Hcond : negb (bool_decide (is_Some
            (exec (stillRunningPattern (default "undefined"%string (Pod.id p))) rawPods)))
          || negb (Pod.initialized p) = true).
  { destruct Hdead as [-> | ->].
    - rewrite bool_decide_false; [reflexivity|]. intros [? ?]. discriminate.
    - apply orb_true_r. }
  rewrite Hcond.
  unfold bind at 1. unfold update at 1. unfold modify at 1.
  unfold bind at 1. unfold killChildProcess.
  assert (Hp1 : pods (set_pods (alter (Pod.set_restartingState true) i (pods s)) s) !! i
                = Some (Pod.set_restartingState true p)).
  { cbn. rewrite list_lookup_alter_eq, Hp. reflexivity. }
  erewrite bind_val by (apply thePod_val; exact Hp1).
  cbn [Pod.childProcess Pod.set_restartingState]. rewrite Hcp.
  unfold kill, bind, modify, update, get, tryReinitPod, getPods, clearTimeout. cbn.
  destruct (Pod.initInterval p) as [t|]; cbn; eexists _, _;
    (split; [reflexivity|]); cbn; repeat split.
  all: rewrite (alter_insert _ _ _ _ Hp);
    erewrite alter_insert by (apply list_lookup_insert_eq; eapply lookup_lt_Some; eauto);
    apply list_insert_insert_eq.
Qed.


(** The theorem on a session that has just been started, and on one that
    a reconnection attempt has re-spawned and that still carries
    [restartingState]. *)
Lemma C8_forwarding_established_once_witness :
  (let p := Pod.mk "web" "8080" "8080" None (Some "web-6c7d") false false false (Some 0) None in
   let p1 := Pod.set_initialized true p in
   let s1 := set_pods (<[0 := p1]> (pods demoStarted)) demoStarted in
   step demoStarted (Data 0 (forwardingLine "8080")) = Val tt s1
   /\ (phase demoStarted p = ForwardingInitializing -> phase s1 p1 = ForwardingActive)
   /\ step s1 (Data 0 (forwardingLine "8080")) = Val tt s1)
  /\ (let p := Pod.mk "web" "8080" "8080" None (Some "web-8e9f") false true false (Some 2) None in
      let p1 := Pod.set_initialized true p in
      let s1 := set_pods (<[0 := p1]> (pods demoRespawned)) demoRespawned in
      step demoRespawned (Data 2 (forwardingLine "8080")) = Val tt s1
      /\ (phase demoRespawned p = ForwardingInitializing -> phase s1 p1 = ForwardingActive)
      /\ step s1 (Data 2 (forwardingLine "8080")) = Val tt s1).
Proof.
  split.
  - exact (C8_forwarding_established_once demoStarted 0 0
             (mkChild 0 ["port-forward"; "web-6c7d"; "8080:8080"]%string false false)
             (mkChild 0 ["port-forward"; "web-6c7d"; "8080:8080"]%string false false)
             (Pod.mk "web" "8080" "8080" None (Some "web-6c7d"%string)
                false false false (Some 0) None)
             (forwardingLine "8080") (forwardingLine "8080")
             eq_refl eq_refl eq_refl eq_refl eq_refl eq_refl eq_refl eq_refl eq_refl).
  - exact (C8_forwarding_established_once demoRespawned 2 2
             (mkChild 0 ["port-forward"; "web-8e9f"; "8080:8080"]%string false false)
             (mkChild 0 ["port-forward"; "web-8e9f"; "8080:8080"]%string false false)
             (Pod.mk "web" "8080" "8080" None (Some "web-8e9f"%string)
                false true false (Some 2) None)
             (forwardingLine "8080") (forwardingLine "8080")
             eq_refl eq_refl eq_refl eq_refl eq_refl eq_refl eq_refl eq_refl eq_refl).
Defined.

(** The re-spawned session of [demoRespawned] is in
    Forwarding-Initializing although [restartingState] is set, and its
    first chunk that reports forwarding makes it Forwarding-Active. *)
Example respawned_session_phases :
  (Pod.restartingState <$> pods demoRespawned !! 0) = Some true
  /\ (phase demoRespawned <$> pods demoRespawned !! 0) = Some ForwardingInitializing
  /\ (phase demoReconnecting <$> pods demoReconnecting !! 0) = Some Restarting
  /\ (let s1 := final (step demoRespawned (Data 2 (forwardingLine "8080"))) in
      (phase s1 <$> pods s1 !! 0) = Some ForwardingActive).
Proof. vm_compute. auto. Qed.

(** C2, as stated, fails: the run that a permission error ends, and the
    run that the exhausted retries end, both exit with code 0. *)
Lemma C2_counterexample :
  classify permissionLine = PermissionDenied
  /\ ~ (forall code, exitCode (step demoStarted (Data 0 permissionLine)) = Some code ->
                     code <> 0%Z)
  /\ ~ (forall code,
          exitCode (step demoExhausting (ExecDone 22 (Succeeded tableDown))) = Some code ->
          code <> 0%Z).
Proof.
  split; [reflexivity|]. split; intros H; apply (H 0%Z); reflexivity.
Qed.

Lemma C2_fatal_exit_code_is_zero_witness :
  exitCode (step demoStarted (Data 0 permissionLine)) = Some 0%Z
  /\ exitCode (step demoExhausting (ExecDone 22 (Succeeded tableDown))) = Some 0%Z.
Proof.
  apply (C2_fatal_exit_code_is_zero demoStarted 0
           (mkChild 0 ["port-forward"; "web-6c7d"; "8080:8080"]%string false false)
           permissionLine demoExhausting 22 0 "kubectl get pods" tableDown
           (mkChain 0 20)
           (Pod.mk "web" "8080" "8080" None (Some "web-6c7d"%string)
              false false false (Some 0) (Some 19))).
  - reflexivity.
  - reflexivity.
  - eexists. reflexivity.
  - reflexivity.
  - reflexivity.
  - reflexivity.
  - reflexivity.
  - unfold maxAttempt. simpl. lia.
  - reflexivity.
Defined.



(** ** A query that fails on the network *)

Lemma set_initialized_false_id (p : Pod.t) :
  Pod.initialized p = false -> Pod.set_initialized false p = p.
Proof. destruct p. simpl. intros ->. reflexivity. Qed.

Lemma set_children_pods_same (s : State) :
  set_children (children s) (set_pods (pods s) s) = s.
Proof. destruct s. reflexivity. Qed.

(** The loop of the network-error branch: every pod of the list that was
    [initialized] loses the flag and has its child killed; nothing else
    changes. *)
Lemma stop_loop (l : list nat) :
  forall s,
    (forall i, i ∈ l -> exists p, pods s !! i = Some p
                 /\ (Pod.initialized p = true -> is_Some (Pod.childProcess p))) ->
    exists P K,
      forEach l stopIfInitialized s = Val tt (set_children K (set_pods P s))
      /\ (forall i p, pods s !! i = Some p ->
            P !! i = Some (if decide (i ∈ l) then Pod.set_initialized false p else p))
      /\ (forall c ch, children s !! c = Some ch ->
            exists k, K !! c = Some (mkChild (owner ch) (args ch) k (closed ch))
              /\ (k = true <->
                  killed ch = true
                  \/ exists i p, i ∈ l /\ pods s !! i = Some p
                       /\ Pod.initialized p = true /\ Pod.childProcess p = Some c)).
Proof.
  induction l as [|j l IH]; intros s Hwf.
  - exists (pods s), (children s). rewrite set_children_pods_same.
    split; [reflexivity|]. split.
    + intros i p Hp. rewrite decide_False by apply not_elem_of_nil. exact Hp.
    + intros c ch Hc. exists (killed ch). split; [destruct ch; exact Hc|].
      split; [auto|]. intros [H|(i & p & Hi & _)]; [exact H|].
      exfalso. revert Hi. apply not_elem_of_nil.
  - destruct (Hwf j) as (pj & Hpj & Hkid); [left|].
    cbn [forEach]. unfold bind at 1. unfold stopIfInitialized at 1.
    rewrite (bind_val _ _ _ _ _ (thePod_val _ _ _ Hpj)).
    destruct (Pod.initialized pj) eqn:Hinit.
    + destruct (Hkid eq_refl) as [cj Hcj].
      unfold bind at 1. unfold update at 1. unfold modify at 1.
      unfold killChildProcess.
      assert (Hpj' : pods (set_pods (alter (Pod.set_initialized false) j (pods s)) s) !! j
                     = Some (Pod.set_initialized false pj)).
      { cbn. rewrite list_lookup_alter_eq, Hpj. reflexivity. }
      rewrite (bind_val _ _ _ _ _ (thePod_val _ _ _ Hpj')).
      cbn [Pod.childProcess Pod.set_initialized]. rewrite Hcj.
      unfold kill, modify.
      set (s1 := set_children _ _).
      assert (Hpods1 : forall i, pods s1 !! i
                = if decide (j = i) then Pod.set_initialized false <$> pods s !! i
                  else pods s !! i).
      { intros i. subst s1. cbn. rewrite list_lookup_alter.
        destruct (decide (j = i)) as [->|]; reflexivity. }
      assert (Hkids1 : forall c, children s1 !! c
                = if decide (cj = c)
                  then (fun ch => mkChild (owner ch) (args ch) true (closed ch))
                         <$> children s !! c
                  else children s !! c).
      { intros c. subst s1. cbn. rewrite list_lookup_alter.
        destruct (decide (cj = c)) as [->|]; reflexivity. }
      destruct (IH s1) as (P & K & Hrun & HP & HK).
      { intros i Hi. destruct (Hwf i) as (p & Hp & Hk); [right; exact Hi|].
        rewrite Hpods1. destruct (decide (j = i)) as [->|Hne].
        - rewrite Hp. eexists. split; [reflexivity|]. cbn. discriminate.
        - exists p. auto. }
      exists P, K. split; [rewrite Hrun; subst s1; reflexivity|]. split.
      * intros i p Hp. specialize (Hpods1 i). rewrite Hp in Hpods1.
        destruct (decide (j = i)) as [->|Hne].
        -- rewrite (HP _ _ Hpods1).
           rewrite (decide_True (P := i ∈ i :: l)) by left.
           destruct (decide (i ∈ l)); reflexivity.
        -- rewrite (HP _ _ Hpods1).
           destruct (decide (i ∈ l)) as [Hin|Hnin].
           ++ rewrite decide_True by (right; exact Hin). reflexivity.
           ++ rewrite decide_False; [reflexivity|].
              intros Hin. apply elem_of_cons in Hin as [->|Hin]; contradiction.
      * intros c ch Hc. specialize (Hkids1 c). rewrite Hc in Hkids1.
        destruct (decide (cj = c)) as [->|Hne].
        -- destruct (HK _ _ Hkids1) as (k & HKc & Hk). cbn in HKc, Hk.
           exists k. split; [exact HKc|]. split.
           ++ intros _. right. exists j, pj. repeat split; auto. left.
           ++ intros _. apply Hk. left. reflexivity.
        -- destruct (HK _ _ Hkids1) as (k & HKc & Hk).
           exists k. split; [exact HKc|]. rewrite Hk. split.
           ++ intros [H|(i & p & Hi & Hp & Hin & Hcp)]; [left; exact H|].
              right. rewrite Hpods1 in Hp. destruct (decide (j = i)) as [->|Hji].
              ** rewrite Hpj in Hp. injection Hp as <-. discriminate.
              ** exists i, p. repeat split; auto. right. exact Hi.
           ++ intros [H|(i & p & Hi & Hp & Hin & Hcp)]; [left; exact H|].
              apply elem_of_cons in Hi as [->|Hi].
              ** congruence.
              ** right. exists i, p. repeat split; auto.
                 rewrite Hpods1. destruct (decide (j = i)) as [->|Hji]; [|exact Hp].
                 congruence.
    + destruct (IH s) as (P & K & Hrun & HP & HK).
      { intros i Hi. apply Hwf. right. exact Hi. }
      exists P, K. split; [exact Hrun|]. split.
      * intros i p Hp. rewrite (HP _ _ Hp).
        destruct (decide (i ∈ l)) as [Hin|Hnin].
        -- rewrite decide_True by (right; exact Hin). reflexivity.
        -- destruct (decide (i ∈ j :: l)) as [Hin|_]; [|reflexivity].
           apply elem_of_cons in Hin as [->|Hin]; [|contradiction].
           assert (p = pj) as -> by congruence.
           rewrite set_initialized_false_id; auto.
      * intros c ch Hc. destruct (HK _ _ Hc) as (k & HKc & Hk).
        exists k. split; [exact HKc|]. rewrite Hk. split.
        -- intros [H|(i & p & Hi & Hrest)]; [left; exact H|].
           right. exists i, p. split; [right; exact Hi | exact Hrest].
        -- intros [H|(i & p & Hi & Hp & Hin & Hcp)]; [left; exact H|].
           apply elem_of_cons in Hi as [->|Hi]; [congruence|].
           right. exists i, p. auto.
Qed.

Lemma attached_spec (s : State) :
  attached s = true ->
  forall i, i ∈ runningPods s ->
    exists p, pods s !! i = Some p
      /\ (Pod.initialized p = true -> is_Some (Pod.childProcess p)).
Proof.
  unfold attached. rewrite forallb_forall. intros H i Hi.
  apply list_elem_of_In in Hi. specialize (H i Hi).
  destruct (pods s !! i) as [p|]; [|discriminate].
  exists p. split; [reflexivity|]. intros Hinit. rewrite Hinit in H. cbn in H.
  apply bool_decide_eq_true in H. exact H.
Qed.

(** What any query that fails with one of the four network signatures
    does before its callback runs, and all that the turn does when the
    callback is the health check's or a reconnection closure's (both
    return at once on [error]). *)
Lemma network_error_turn
    (s : State) (e : nat) (cmd stderr : string) (callback : Callback) :
  execs s !! e = Some (mkExec cmd (Some callback)) ->
  callback <> InitCb ->
  networkError stderr = true ->
  attached s = true ->
  exists s',
    step s (ExecDone e (Failed stderr)) = Val tt s'
    /\ runningPods s' = runningPods s
    /\ chains s' = chains s
    /\ timers s' = timers s
    /\ execs s' = <[e := mkExec cmd None]> (execs s)
    /\ restartAttempt s' = S (restartAttempt s)
    /\ (forall i p, pods s !! i = Some p ->
          pods s' !! i
          = Some (if decide (i ∈ runningPods s) then Pod.set_initialized false p else p))
    /\ (forall c ch, children s !! c = Some ch ->
          exists k, children s' !! c = Some (mkChild (owner ch) (args ch) k (closed ch))
            /\ (k = true <->
                killed ch = true
                \/ exists i p, i ∈ runningPods s /\ pods s !! i = Some p
                     /\ Pod.initialized p = true /\ Pod.childProcess p = Some c)).
Proof.
  intros He Hcb Hnet Hwf. unfold step. rewrite He.
  unfold bind at 1. unfold modify at 1.
  unfold bind at 1. unfold getPods_exec. rewrite Hnet.
  unfold bind at 1. unfold modify at 1.
  unfold bind at 1. unfold get at 1.
  set (s0 := set_restartAttempt _ _).
  destruct (stop_loop (runningPods s) s0) as (P & K & Hrun & HP & HK).
  { subst s0. cbn. apply (attached_spec s Hwf). }
  unfold bind at 1. replace (runningPods s0) with (runningPods s) by reflexivity.
  rewrite Hrun. unfold ret at 1.
  exists (set_children K (set_pods P s0)).
  split; [destruct callback; [congruence | reflexivity | reflexivity]|].
  subst s0. cbn. repeat (split; [reflexivity|]). split; [exact HP | exact HK].
Qed.

(** C1, as stated, fails: the health check whose query fails on the
    network leaves [web] and [db], which were forwarding, without
    [initialized] and with their tunnels killed. *)
Lemma C1_counterexample :
  networkError timeoutStderr = true
  /\ execs demoChecking !! 1 = Some (mkExec "kubectl get pods" (Some HealthCb))
  /\ ~ (forall s', step demoChecking (ExecDone 1 (Failed timeoutStderr)) = Val tt s' ->
                   pods s' = pods demoChecking /\ children s' = children demoChecking)
  /\ exists s' p p' ch ch',
       step demoChecking (ExecDone 1 (Failed timeoutStderr)) = Val tt s'
       /\ pods demoChecking !! 0 = Some p /\ pods s' !! 0 = Some p'
       /\ phase demoChecking p = ForwardingActive /\ phase s' p' = ForwardingInitializing
       /\ children demoChecking !! 0 = Some ch /\ children s' !! 0 = Some ch'
       /\ killed ch = false /\ killed ch' = true.
Proof.
  split; [reflexivity|]. split; [reflexivity|]. split.
  - intros H. destruct (H _ eq_refl) as [Hp _]. vm_compute in Hp. discriminate.
  - do 5 eexists. split; [vm_compute; reflexivity|].
    repeat (split; [reflexivity|]). reflexivity.
Qed.

(** C1 (as the program has it): when the query of a health check fails
    with a network signature, the health check's callback returns at once:
    no closure, timer or query is created, [runningPods] is unchanged and
    no pod's [id], [restartingState], [excluded], [childProcess] or
    [initInterval] changes.  But [getPods] itself first clears
    [initialized] on every pod of [runningPods] and kills the tunnel of
    each one that was [initialized]; a pod that was not [initialized] is
    left exactly as it was. *)
Theorem C1_network_error_tick
    (s : State) (e : nat) (cmd stderr : string) :
  execs s !! e = Some (mkExec cmd (Some HealthCb)) ->
  networkError stderr = true ->
  attached s = true ->
  exists s',
    step s (ExecDone e (Failed stderr)) = Val tt s'
    /\ runningPods s' = runningPods s
    /\ chains s' = chains s
    /\ timers s' = timers s
    /\ execs s' = <[e := mkExec cmd None]> (execs s)
    /\ (forall i p, pods s !! i = Some p ->
          exists p', pods s' !! i = Some p'
            /\ Pod.id p' = Pod.id p
            /\ Pod.restartingState p' = Pod.restartingState p
            /\ Pod.excluded p' = Pod.excluded p
            /\ Pod.childProcess p' = Pod.childProcess p
            /\ Pod.initInterval p' = Pod.initInterval p
            /\ Pod.initialized p'
               = Pod.initialized p && negb (bool_decide (i ∈ runningPods s))
            /\ (Pod.initialized p = false -> p' = p))
    /\ (forall c ch, children s !! c = Some ch ->
          exists k, children s' !! c = Some (mkChild (owner ch) (args ch) k (closed ch))
            /\ (k = true <->
                killed ch = true
                \/ exists i p, i ∈ runningPods s /\ pods s !! i = Some p
                     /\ Pod.initialized p = true /\ Pod.childProcess p = Some c)).
Proof.
  intros He Hnet Hwf.
  destruct (network_error_turn s e cmd stderr HealthCb He ltac:(discriminate) Hnet Hwf)
    as (s' & Hstep & Hrp & Hch & Htm & Hex & _ & HP & HK).
  exists s'. repeat (split; [assumption|]). split; [|exact HK].
  intros i p Hp. rewrite (HP i p Hp).
  destruct (decide (i ∈ runningPods s)) as [Hin|Hnin].
  - eexists. split; [reflexivity|]. cbn.
    rewrite bool_decide_true by exact Hin. rewrite andb_false_r.
    repeat (split; [reflexivity|]). apply set_initialized_false_id.
  - exists p. rewrite bool_decide_false by exact Hnin. rewrite andb_true_r.
    repeat split.
Qed.

Lemma C1_network_error_tick_witness :
  exists s',
    step demoChecking (ExecDone 1 (Failed timeoutStderr)) = Val tt s'
    /\ runningPods s' = runningPods demoChecking
    /\ chains s' = chains demoChecking
    /\ timers s' = timers demoChecking.
Proof.
  destruct (C1_network_error_tick demoChecking 1 "kubectl get pods" timeoutStderr
              eq_refl eq_refl eq_refl)
    as (s' & H1 & H2 & H3 & H4 & _).
  exists s'. auto.
Defined.

(** C4 (what the program does): when the query of a reconnection attempt
    fails with a network signature, the callback returns without
    incrementing the counter, but also without setting a timer or starting
    a query: when that query was all the closure had in flight, nothing of
    the closure is left to run. *)
Theorem C4_network_error_ends_retry_chain
    (s : State) (e c : nat) (cmd stderr : string) :
  execs s !! e = Some (mkExec cmd (Some (ReinitCb c))) ->
  networkError stderr = true ->
  attached s = true ->
  inFlight (set_execs (<[e := mkExec cmd None]> (execs s)) s) c = false ->
  exists s',
    step s (ExecDone e (Failed stderr)) = Val tt s'
    /\ chains s' = chains s
    /\ timers s' = timers s
    /\ execs s' = <[e := mkExec cmd None]> (execs s)
    /\ inFlight s' c = false.
Proof.
  intros He Hnet Hwf Hlast.
  destruct (network_error_turn s e cmd stderr (ReinitCb c) He ltac:(discriminate) Hnet Hwf)
    as (s' & Hstep & Hrp & Hch & Htm & Hex & _).
  exists s'. repeat (split; [assumption|]).
  unfold inFlight in *. rewrite Hex, Htm. exact Hlast.
Qed.

Lemma C4_network_error_ends_retry_chain_witness :
  exists s',
    step demoReconnecting (ExecDone 2 (Failed timeoutStderr)) = Val tt s'
    /\ chains s' = chains demoReconnecting
    /\ timers s' = timers demoReconnecting
    /\ execs s' = <[2 := mkExec "kubectl get pods" None]> (execs demoReconnecting)
    /\ inFlight s' 0 = false.
Proof.
  exact (C4_network_error_ends_retry_chain demoReconnecting 2 0 "kubectl get pods"
           timeoutStderr eq_refl eq_refl eq_refl eq_refl).
Defined.

(** The consequence: the session of [web] is marked as restarting and
    has nothing in flight; the next health check, which sees the workload
    Running again, passes it over. *)
Lemma network_error_strands_session :
  exists s1 s2 p,
    step demoReconnecting (ExecDone 2 (Failed timeoutStderr)) = Val tt s1
    /\ protocolsInFlight s1 0 = 0
    /\ getPodId None tableBack "web" true = RetId "web-8e9f"
    /\ steps s1 [Tick; ExecDone 3 (Succeeded tableBack)] = Val tt s2
    /\ pods s1 !! 0 = Some p /\ pods s2 !! 0 = Some p
    /\ Pod.restartingState p = true
    /\ children s2 !! 0
       = Some (mkChild 0 ["port-forward"; "web-6c7d"; "8080:8080"]%string true true)
    /\ length (children s2) = 2
    /\ protocolsInFlight s2 0 = 0.
Proof.
  do 3 eexists. split; [vm_compute; reflexivity|].
  split; [vm_compute; reflexivity|]. split; [vm_compute; reflexivity|].
  split; [vm_compute; reflexivity|].
  repeat (split; [reflexivity|]). vm_compute. reflexivity.
Qed.

(** A health check passes over a pod whose [restartingState] is set. *)
Lemma checkPod_skips (s : State) (rawPods : string) (i : nat) (p : Pod.t) :
  pods s !! i = Some p ->
  Pod.restartingState p = true ->
  checkPod rawPods i s = Val tt s.
Proof.
  intros Hp Hrs. unfold checkPod.
  rewrite (bind_val _ _ _ _ _ (thePod_val _ _ _ Hp)), Hrs. reflexivity.
Qed.

(** The [close] of a tunnel clears [restartingState] whatever the
    closures of the pod are doing. *)
Lemma close_clears_restartingState (s : State) (child : nat) (ch : Child) (p : Pod.t) :
  children s !! child = Some ch -> closed ch = false ->
  pods s !! owner ch = Some p ->
  exists s',
    step s (Closed child) = Val tt s'
    /\ pods s' !! owner ch
       = Some (Pod.set_initialized false (Pod.set_restartingState false p))
    /\ chains s' = chains s /\ timers s' = timers s /\ execs s' = execs s.
Proof.
  intros Hc Hopen Hp. unfold step. rewrite Hc, Hopen.
  unfold bind, modify, onClose, update, bind, modify. cbn.
  eexists. split; [reflexivity|]. cbn. split; [|auto].
  rewrite list_lookup_alter_eq, list_lookup_alter_eq, Hp. reflexivity.
Qed.

(** C5 (what the program does): in the run [overlappingRun] the health
    check marks [web] as restarting and starts a reconnection closure;
    the [close] of the killed tunnel clears the mark; the closure's first
    attempt fails and its timer runs out; the next health check, finding
    the mark cleared, starts a second closure.  Two closures of the same
    pod then have a query in flight, and after both fail two timers of
    the pod are due. *)
Theorem C5_two_protocols_in_flight :
  steps demoBoot overlappingRun = Val tt overlapped
  /\ reachable demoBoot overlapped
  /\ protocolsInFlight overlapped 0 = 2
  /\ steps overlapped [ExecDone 3 (Succeeded tableDown); ExecDone 5 (Succeeded tableDown)]
     = Val tt overlappedLater
  /\ reachable demoBoot overlappedLater
  /\ dueTimers overlappedLater 0 = 2.
Proof.
  assert (H1 : steps demoBoot overlappingRun = Val tt overlapped)
    by (vm_compute; reflexivity).
  assert (H2 : steps overlapped
                 [ExecDone 3 (Succeeded tableDown); ExecDone 5 (Succeeded tableDown)]
               = Val tt overlappedLater) by (vm_compute; reflexivity).
  split; [exact H1|]. split; [eexists; exact H1|].
  split; [vm_compute; reflexivity|].
  split; [exact H2|]. split.
  - exists (overlappingRun
            ++ [ExecDone 3 (Succeeded tableDown); ExecDone 5 (Succeeded tableDown)]).
    rewrite (steps_app _ _ _ _ H1). exact H2.
  - vm_compute. reflexivity.
Qed.

(** ** What never happens to a pod outside [runningPods] *)

Lemma noNews_refl (i : nat) (s : State) : noNews i s s.
Proof.
  split; [auto|]. split; [eauto|].
  intros _ c ch Hc _. eapply lookup_lt_Some; eauto.
Qed.

Lemma noNews_trans (i : nat) (s1 s2 s3 : State) :
  noNews i s1 s2 -> noNews i s2 s3 -> noNews i s1 s3.
Proof.
  intros (Hrp1 & Hkeep1 & Hnew1) (Hrp2 & Hkeep2 & Hnew2).
  split; [auto|]. split.
  - intros c ch Hc. destruct (Hkeep1 c ch Hc) as (ch' & Hc' & Hpod').
    destruct (Hkeep2 c ch' Hc') as (ch'' & Hc'' & Hpod''). exists ch''.
    split; [exact Hc''|congruence].
  - intros Hout c ch3 Hc3 Hpod.
    assert (Hout2 : i ∉ runningPods s2) by (intros H; apply Hout, Hrp1, H).
    specialize (Hnew2 Hout2 c ch3 Hc3 Hpod).
    destruct (lookup_lt_is_Some_2 (chains s2) c Hnew2) as [ch2 Hc2].
    destruct (Hkeep2 c ch2 Hc2) as (ch3' & Hc3' & Hpod3).
    apply (Hnew1 Hout c ch2 Hc2). congruence.
Qed.

Lemma noNews_same (i : nat) (s s' : State) :
  runningPods s' = runningPods s -> chains s' = chains s -> noNews i s s'.
Proof.
  intros Hrp Hch. unfold noNews. rewrite Hrp, Hch. apply noNews_refl.
Qed.

Section Keeps.
Variable i : nat.

Lemma keeps_ret {A} (a : A) : keeps i (ret a).
  Proof. intros s. apply noNews_refl. Qed.

Lemma keeps_throw {A} (msg : string) : keeps i (throw (A := A) msg).
  Proof. intros s. apply noNews_refl. Qed.

Lemma keeps_get : keeps i get.
  Proof. intros s. apply noNews_refl. Qed.

Lemma keeps_bind {A B} (m : M A) (f : A -> M B) :
    keeps i m -> (forall a, keeps i (f a)) -> keeps i (bind m f).
  Proof.
    intros Hm Hf s. unfold bind. specialize (Hm s).
    destruct (m s) as [a s1|code s1|msg s1]; cbn in *; [|assumption|assumption].
    eapply noNews_trans; [exact Hm | apply Hf].
  Qed.

Lemma keeps_modify (f : State -> State) :
    (forall s, runningPods (f s) = runningPods s) ->
    (forall s, chains (f s) = chains s) ->
    keeps i (modify f).
  Proof. intros Hrp Hch s. apply noNews_same; [apply Hrp | apply Hch]. Qed.

Lemma keeps_tryCatch (m : M unit) (h : string -> M unit) :
    keeps i m -> (forall e, keeps i (h e)) -> keeps i (tryCatch m h).
  Proof.
    intros Hm Hh s. unfold tryCatch. specialize (Hm s).
    destruct (m s) as [a s1|code s1|msg s1]; cbn in *; [assumption|assumption|].
    eapply noNews_trans; [exact Hm | apply Hh].
  Qed.

Lemma keeps_forEach {A} (l : list A) (f : A -> M unit) :
    (forall x, keeps i (f x)) -> keeps i (forEach l f).
  Proof.
    intros Hf. induction l as [|x l IH]; cbn [forEach].
    - apply keeps_ret.
    - apply keeps_bind; [apply Hf | intros _; exact IH].
  Qed.

Lemma keeps_thePod (j : nat) : keeps i (thePod j).
  Proof. intros s. unfold thePod. destruct (pods s !! j); apply noNews_refl. Qed.

Lemma keeps_theChain (c : nat) : keeps i (theChain c).
  Proof. intros s. unfold theChain. destruct (chains s !! c); apply noNews_refl. Qed.

Lemma keeps_update (j : nat) (f : Pod.t -> Pod.t) : keeps i (update j f).
  Proof. apply keeps_modify; reflexivity. Qed.

Lemma keeps_kill (c : nat) : keeps i (kill c).
  Proof. apply keeps_modify; reflexivity. Qed.

Lemma keeps_killChildProcess (j : nat) : keeps i (killChildProcess j).
  Proof.
    apply keeps_bind; [apply keeps_thePod|]. intros p.
    destruct (Pod.childProcess p); [apply keeps_kill | apply keeps_throw].
  Qed.

Lemma keeps_clearTimeout (t : nat) : keeps i (clearTimeout t).
  Proof. apply keeps_modify; reflexivity. Qed.

Lemma keeps_setTimeout (f : TimerFn) (d : Z) : keeps i (setTimeout f d).
  Proof. intros s. apply noNews_same; reflexivity. Qed.

Lemma keeps_getPods (k : Callback) : keeps i (getPods k).
  Proof. apply keeps_modify; reflexivity. Qed.

Lemma keeps_process_exit (code : option Z) : keeps i (process_exit code).
  Proof.
    intros s. unfold process_exit.
    assert (H : keeps i cleanup).
    { apply keeps_bind; [apply keeps_get|]. intros s0. apply keeps_forEach. intros j.
      apply keeps_tryCatch; [apply keeps_killChildProcess | intros; apply keeps_ret]. }
    specialize (H s). destruct (cleanup s); exact H.
  Qed.

Lemma keeps_portForwardPod (j : nat) : keeps i (portForwardPod j).
  Proof.
    apply keeps_bind; [apply keeps_thePod|]. intros p.
    apply keeps_bind; [apply keeps_get|]. intros s0.
    apply keeps_bind; [apply keeps_modify; reflexivity|]. intros _.
    apply keeps_update.
  Qed.

Lemma keeps_getPods_exec (r : ExecResult) : keeps i (getPods_exec r).
  Proof.
    destruct r as [stdout|stderr]; unfold getPods_exec.
    - apply keeps_bind; [apply keeps_get|]. intros s0.
      apply keeps_bind; [|intros; apply keeps_ret].
      destruct (0 <? restartAttempt s0)%nat;
        [apply keeps_modify; reflexivity | apply keeps_ret].
    - destruct (networkError stderr); [|apply keeps_throw].
      apply keeps_bind; [apply keeps_modify; reflexivity|]. intros _.
      apply keeps_bind; [apply keeps_get|]. intros s0.
      apply keeps_bind; [|intros; apply keeps_ret].
      apply keeps_forEach. intros j. unfold stopIfInitialized.
      apply keeps_bind; [apply keeps_thePod|]. intros p.
      destruct (Pod.initialized p); [|apply keeps_ret].
      apply keeps_bind; [apply keeps_update | intros; apply keeps_killChildProcess].
  Qed.

Lemma keeps_formalInit_cb (reply : Reply) : keeps i (formalInit_cb reply).
  Proof.
    unfold formalInit_cb.
    apply keeps_tryCatch; [|intros; apply keeps_ret].
    destruct reply as [|rawPods].
    - apply keeps_bind; [apply keeps_get|]. intros s0.
      apply keeps_bind; [apply keeps_setTimeout | intros; apply keeps_ret].
    - apply keeps_bind; [apply keeps_get|]. intros s0.
      apply keeps_bind.
      { apply keeps_forEach. intros j.
        apply keeps_bind; [apply keeps_thePod|]. intros p.
        destruct (getPodId _ _ _ _);
          [apply keeps_update | apply keeps_ret | apply keeps_throw]. }
      intros _. apply keeps_bind; [apply keeps_forEach, keeps_portForwardPod|].
      intros _. apply keeps_modify; reflexivity.
  Qed.

Lemma keeps_tryReinitPod_cb (c : nat) (reply : Reply) :
    keeps i (tryReinitPod_cb c reply).
  Proof.
    unfold tryReinitPod_cb. destruct reply as [|rawPods]; [apply keeps_ret|].
    apply keeps_bind; [apply keeps_theChain|]. intros ch.
    apply keeps_bind; [apply keeps_thePod|]. intros p.
    apply keeps_bind; [apply keeps_get|]. intros s0.
    assert (Hwait : keeps i
              (if (maxAttempt <=? attempt ch)%nat then process_exit None
               else
                 modify (fun s =>
                   set_chains
                     (alter (fun ch => mkChain (pod ch) (S (attempt ch))) c (chains s)) s) ;;
                 t <- setTimeout (TryReinitPod c) attemptDuration ;;
                 update (pod ch) (Pod.set_initInterval t))).
    { destruct (maxAttempt <=? attempt ch)%nat; [apply keeps_process_exit|].
      apply keeps_bind.
      - intros s. unfold modify. cbn. split; [auto|]. split.
        + intros c' ch' Hc'. cbn. rewrite list_lookup_alter.
          destruct (decide (c = c')) as [->|_]; [|eauto].
          rewrite Hc'. eexists. split; reflexivity.
        + intros _ c' ch' Hc' _. cbn in Hc'.
          apply lookup_lt_Some in Hc'. rewrite length_alter in Hc'. exact Hc'.
      - intros _. apply keeps_bind; [apply keeps_setTimeout | intros; apply keeps_update]. }
    destruct (getPodId _ _ _ _) as [podId| |msg]; [|exact Hwait|apply keeps_throw].
    destruct (Text.truthy podId); [|exact Hwait].
    apply keeps_bind; [apply keeps_update | intros; apply keeps_portForwardPod].
  Qed.

  (** The health check looks only at the pods of [runningPods]; a closure
      it creates belongs to one of them. *)
Lemma checkPod_noNews (rawPods : string) (j : nat) (s : State) :
    j ∈ runningPods s ->
    noNews i s (final (checkPod rawPods j s))
    /\ runningPods (final (checkPod rawPods j s)) = runningPods s.
  Proof.
    intros Hj. remember (checkPod rawPods j s) as r eqn:Hr.
    assert (Hgrow : forall s' : State,
              runningPods s' = runningPods s ->
              chains s' = chains s ++ [mkChain j 0] ->
              noNews i s s').
    { intros s' Hrp Hch. split; [rewrite Hrp; auto|]. split.
      - intros c ch Hc. exists ch. split; [|reflexivity].
        rewrite Hch. apply lookup_app_l_Some. exact Hc.
      - intros Hout c ch' Hc' Hpod. rewrite Hch in Hc'.
        destruct (decide (c < length (chains s))) as [Hlt|Hge]; [exact Hlt|].
        exfalso. apply Hout.
        rewrite lookup_app_r in Hc' by lia.
        destruct (c - length (chains s)) as [|n]; cbn in Hc'; [|discriminate].
        injection Hc' as <-. cbn in Hpod. subst j. exact Hj. }
    unfold checkPod in Hr. unfold bind at 1 in Hr. unfold thePod at 1 in Hr.
    destruct (pods s !! j) as [p|] eqn:Hp;
      [|subst r; split; [apply noNews_refl|reflexivity]].
    destruct (Pod.restartingState p);
      [subst r; split; [apply noNews_refl|reflexivity]|].
    destruct (_ || _); [|subst r; split; [apply noNews_refl|reflexivity]].
    unfold bind at 1 in Hr. unfold update at 1 in Hr. unfold modify at 1 in Hr.
    unfold bind at 1 in Hr. unfold killChildProcess in Hr.
    erewrite bind_val in Hr
      by (apply thePod_val; cbn; rewrite list_lookup_alter_eq, Hp; reflexivity).
    cbn [Pod.childProcess Pod.set_restartingState] in Hr.
    destruct (Pod.childProcess p) as [child|];
      [|subst r; cbn; split; [apply noNews_same; reflexivity|reflexivity]].
    unfold kill, bind, modify, update, get, tryReinitPod, getPods, clearTimeout in Hr.
    destruct (Pod.initInterval p); cbn in Hr; subst r; cbn;
      (split; [apply Hgrow; reflexivity|reflexivity]).
  Qed.

Lemma healthCheck_loop_noNews (rawPods : string) (l : list nat) :
    forall s, (forall j, j ∈ l -> j ∈ runningPods s) ->
      noNews i s (final (forEach l (checkPod rawPods) s)).
  Proof.
    induction l as [|j l IH]; intros s Hl; cbn [forEach].
    - apply noNews_refl.
    - unfold bind.
      destruct (checkPod_noNews rawPods j s) as [Hnn Hrp]; [apply Hl; left|].
      destruct (checkPod rawPods j s) as [[] s1|code s1|msg s1]; cbn in *;
        [|assumption|assumption].
      eapply noNews_trans; [exact Hnn|]. apply IH.
      intros j' Hj'. rewrite Hrp. apply Hl. right. exact Hj'.
  Qed.

Lemma keeps_healthCheck_cb (reply : Reply) : keeps i (healthCheck_cb reply).
  Proof.
    intros s. destruct reply as [|rawPods]; [apply noNews_refl|].
    unfold healthCheck_cb, bind, get. apply healthCheck_loop_noNews. auto.
  Qed.

Lemma keeps_processKubectlLog (line : string) (j child : nat) :
    keeps i (processKubectlLog line j child).
  Proof.
    unfold processKubectlLog.
    apply keeps_bind; [apply keeps_thePod|]. intros p.
    destruct (classify line).
    - destruct (Pod.initialized p); [apply keeps_ret | apply keeps_update].
    - apply keeps_ret.
    - apply keeps_getPods.
    - destruct (Pod.excluded p); [apply keeps_ret|].
      apply keeps_bind; [apply keeps_update|]. intros _.
      apply keeps_bind; [apply keeps_kill|]. intros _.
      apply keeps_bind.
      { intros s. unfold modify. cbn. split; [|split].
        - intros j' Hj'. cbn in Hj'. unfold pull in Hj'.
          apply list_elem_of_filter in Hj'. apply Hj'.
        - eauto.
        - intros _ c ch' Hc' _. eapply lookup_lt_Some. exact Hc'. }
      intros _. apply keeps_bind; [apply keeps_get|]. intros s0.
      destruct (runningPods s0); [apply keeps_process_exit | apply keeps_ret].
    - apply keeps_process_exit.
    - destruct (Pod.initialized p); [apply keeps_ret | apply keeps_process_exit].
  Qed.

  (** One turn of the event loop. *)
Lemma step_noNews (s : State) (ev : Event) : noNews i s (final (step s ev)).
  Proof.
    destruct ev as [|e r|t|child chunk|child|sg]; unfold step.
    - destruct (interval s); [apply keeps_getPods | apply noNews_refl].
    - destruct (execs s !! e) as [[cmd [callback|]]|]; try apply noNews_refl.
      apply keeps_bind; [apply keeps_modify; reflexivity|]. intros _.
      apply keeps_bind; [apply keeps_getPods_exec|]. intros reply.
      destruct callback;
        [apply keeps_formalInit_cb | apply keeps_healthCheck_cb
         | apply keeps_tryReinitPod_cb].
    - destruct (timers s !! t) as [tm|]; [|apply noNews_refl].
      destruct (due tm); [|apply noNews_refl].
      apply keeps_bind; [apply keeps_clearTimeout|]. intros _.
      destruct (fn tm); apply keeps_getPods.
    - destruct (children s !! child) as [ch|]; [|apply noNews_refl].
      destruct (closed ch); [apply noNews_refl | apply keeps_processKubectlLog].
    - destruct (children s !! child) as [ch|]; [|apply noNews_refl].
      destruct (closed ch); [apply noNews_refl|].
      apply keeps_bind; [apply keeps_modify; reflexivity|]. intros _.
      apply keeps_bind; [apply keeps_update | intros; apply keeps_update].
    - apply keeps_process_exit.
  Qed.

  (** Any number of turns. *)
Lemma steps_noNews (evs : list Event) :
    forall s, noNews i s (final (steps s evs)).
  Proof.
    induction evs as [|ev evs IH]; intros s; cbn [steps].
    - apply noNews_refl.
    - pose proof (step_noNews s ev) as H.
      destruct (step s ev) as [[] s1|code s1|msg s1]; cbn in *; [|assumption|assumption].
      eapply noNews_trans; [exact H | apply IH].
  Qed.
End Keeps.

(** ** Port already in use *)

Lemma not_elem_of_pull (i : nat) (refs : list nat) : i ∉ pull i refs.
Proof. unfold pull. intros H. apply list_elem_of_filter in H. destruct H as [H _]. auto. Qed.

(** The turn in which a tunnel of a session that is not yet excluded
    reports that the port is already in use: the tunnel that wrote the
    chunk is killed, the session is marked [excluded] and taken out of
    [runningPods], and the turn creates no closure, timer or query; if
    [runningPods] is then empty the run exits with code 0.  From then on,
    whatever events follow, the session never returns to [runningPods] and
    no new reconnection closure is created for it.  Nothing is said of a
    closure that already exists. *)
Lemma address_in_use_turn
    (s : State) (child : nat) (ch : Child) (p : Pod.t) (line : string) :
  children s !! child = Some ch -> closed ch = false ->
  pods s !! owner ch = Some p ->
  Pod.excluded p = false ->
  classify line = AddressInUse ->
  let i := owner ch in
  let s' :=
    set_runningPods (pull i (runningPods s))
      (set_children (<[child := mkChild (owner ch) (args ch) true (closed ch)]> (children s))
         (set_pods (<[i := Pod.set_excluded true p]> (pods s)) s)) in
  step s (Data child line)
  = match pull i (runningPods s) with
    | [] => Exit 0%Z s'
    | _ => Val tt s'
    end
  /\ children s' !! child = Some (mkChild (owner ch) (args ch) true (closed ch))
  /\ pods s' !! i = Some (Pod.set_excluded true p)
  /\ phase s' (Pod.set_excluded true p) = Excluded
  /\ (i ∉ runningPods s')
  /\ chains s' = chains s /\ timers s' = timers s /\ execs s' = execs s
  /\ (forall evs,
        (i ∉ runningPods (final (steps s' evs)))
        /\ (forall c ch', chains (final (steps s' evs)) !! c = Some ch' ->
                          pod ch' = i -> c < length (chains s))).
Proof.
  intros Hc Hopen Hp Hex Hl i s'.
  assert (Hout : i ∉ runningPods s') by apply not_elem_of_pull.
  split; [|split; [|split; [|split; [|split; [|split; [|split; [|split]]]]]]];
    try reflexivity.
  - unfold step. rewrite Hc, Hopen. unfold processKubectlLog.
    rewrite (bind_val _ _ _ _ _ (thePod_val _ _ _ Hp)), Hl, Hex.
    unfold bind, update, kill, modify, get. cbn [runningPods set_runningPods].
    rewrite (alter_insert _ _ _ _ Hp), (alter_insert _ _ _ _ Hc).
    subst s' i.
    replace (runningPods (set_children
               (<[child := mkChild (owner ch) (args ch) true (closed ch)]> (children s))
               (set_pods (<[owner ch := Pod.set_excluded true p]> (pods s)) s)))
      with (runningPods s) by reflexivity.
    destruct (pull (owner ch) (runningPods s)) eqn:Hpull; [|reflexivity].
    apply (process_exit_empty (Some 0%Z)). reflexivity.
  - subst s'. cbn. apply list_lookup_insert_eq. eapply lookup_lt_Some; eauto.
  - subst s'. cbn. apply list_lookup_insert_eq. eapply lookup_lt_Some; eauto.
  - exact Hout.
  - intros evs. destruct (steps_noNews i evs s') as (Hrp & _ & Hnew). split.
    + intros H. apply Hout, Hrp, H.
    + intros c ch' Hc' Hpod. apply (Hnew Hout c ch' Hc' Hpod).
Qed.

(** C7: the process that reported the port in use is killed, the session
    is marked [excluded] and leaves [runningPods], and the run goes on
    while another session is left; but a restart can still follow.  In
    [demoPortTaken] the health check has already started a reconnection
    closure for [web] when the output of the killed tunnel arrives.  The
    closure's callback never reads [excluded]: when its query is answered
    it spawns a new tunnel (child 2) for the excluded session, and as the
    session is no longer in [runningPods], that tunnel is not killed when
    the run ends. *)
Theorem C7_excluded_session_respawned :
  classify inUseLine = AddressInUse
  /\ steps demoBoot
       [ExecDone 0 (Succeeded tableUp); Data 1 (forwardingLine "5432");
        Tick; ExecDone 1 (Succeeded tableUp)] = Val tt demoPortTaken
  /\ exists s1 s2 s3 : State,
       step demoPortTaken (Data 0 inUseLine) = Val tt s1
       /\ (Pod.excluded <$> pods s1 !! 0) = Some true
       /\ (phase s1 <$> pods s1 !! 0) = Some Excluded
       /\ wasKilled s1 0 = true
       /\ runningPods s1 = [1]
       /\ step s1 (ExecDone 2 (Succeeded tableUp)) = Val tt s2
       /\ pods s2 !! 0
          = Some (Pod.mk "web" "8080" "8080" None (Some "web-6c7d")
                    false true true (Some 2) None)
       /\ children s2 !! 2
          = Some (mkChild 0 ["port-forward"; "web-6c7d"; "8080:8080"] false false)
       /\ length (children s1) = 2
       /\ runningPods s2 = [1]
       /\ step s2 (Signal SIGINT) = Exit 2%Z s3
       /\ (killed <$> children s3 !! 1) = Some true
       /\ (killed <$> children s3 !! 2) = Some false.
Proof.
  split; [reflexivity|]. split; [vm_compute; reflexivity|].
  do 3 eexists.
  split; [vm_compute; reflexivity|].
  do 4 (split; [reflexivity|]).
  split; [vm_compute; reflexivity|].
  do 4 (split; [reflexivity|]).
  split; [vm_compute; reflexivity|].
  split; reflexivity.
Qed.

(** The same when the reply comes first: the chunk of the old tunnel then
    kills the old tunnel once more, and the tunnel the session holds by
    then goes on. *)
Example excluded_session_keeps_newer_tunnel :
  exists s1 s2 : State,
    step demoPortTaken (ExecDone 2 (Succeeded tableUp)) = Val tt s1
    /\ (Pod.childProcess <$> pods s1 !! 0) = Some (Some 2)
    /\ step s1 (Data 0 inUseLine) = Val tt s2
    /\ (Pod.excluded <$> pods s2 !! 0) = Some true
    /\ runningPods s2 = [1]
    /\ (killed <$> children s2 !! 0) = Some true
    /\ (killed <$> children s2 !! 2) = Some false.
Proof.
  do 2 eexists. split; [vm_compute; reflexivity|]. split; [reflexivity|].
  split; [vm_compute; reflexivity|]. repeat split.
Qed.

(** With two closures of one session alive ([overlapped]), no late
    output is needed: the first closure finds [web] and spawns child 2,
    child 2 reports the port in use and is killed, [web] is excluded;
    then the second closure finds [web] and spawns child 3 for it. *)
Example excluded_session_respawned_by_second_closure :
  exists s : State,
    steps overlapped
      [ExecDone 3 (Succeeded tableBack); Data 2 inUseLine;
       ExecDone 5 (Succeeded tableBack)] = Val tt s
    /\ (Pod.excluded <$> pods s !! 0) = Some true
    /\ (Pod.childProcess <$> pods s !! 0) = Some (Some 3)
    /\ runningPods s = [1]
    /\ (killed <$> children s !! 2) = Some true
    /\ children s !! 3
       = Some (mkChild 0 ["port-forward"; "web-8e9f"; "8080:8080"] false false).
Proof. eexists. split; [vm_compute; reflexivity|]. repeat split. Qed.

(** The last session to be excluded ends the run with code 0. *)
Example last_session_excluded :
  exists s1 s2,
    step demoStarted (Data 0 inUseLine) = Val tt s1
    /\ step s1 (Data 1 inUseLine) = Exit 0%Z s2
    /\ runningPods s2 = [].
Proof.
  do 2 eexists. split; [vm_compute; reflexivity|].
  split; [vm_compute; reflexivity|]. reflexivity.
Qed.

(** ** The configuration merge *)

Import Json.

Lemma prop_assign_eq (key : string) (v : Json.t) (o : Json.object) :
  prop key (assign key v o) = Some v.
Proof.
  induction o as [|[k w] o IH]; simpl.
  - rewrite String.eqb_refl. reflexivity.
  - destruct (String.eqb key k) eqn:E; simpl; rewrite E; [reflexivity | exact IH].
Qed.

Lemma prop_assign_ne (key key' : string) (v : Json.t) (o : Json.object) :
  key <> key' -> prop key' (assign key v o) = prop key' o.
Proof.
  intros Hne. induction o as [|[k w] o IH]; simpl.
  - destruct (String.eqb_spec key' key); [congruence | reflexivity].
  - destruct (String.eqb_spec key k) as [->|Hk]; simpl.
    + destruct (String.eqb_spec key' k); [congruence | reflexivity].
    + destruct (String.eqb key' k); [reflexivity | exact IH].
Qed.

Lemma prop_None_keys (key : string) (o : Json.object) :
  key ∉ keys o -> prop key o = None.
Proof.
  induction o as [|[k w] o IH]; simpl; intros H; [reflexivity|].
  destruct (String.eqb_spec key k) as [->|Hk].
  - exfalso. apply H. left.
  - apply IH. intros Hin. apply H. right. exact Hin.
Qed.

(** [baseMergeDeep] on a source object is [baseMerge] into the
    destination object, or into a fresh one. *)
Lemma mergeValue_Obj (objValue : option Json.t) (source : Json.object) :
  Lodash.mergeValue objValue (Obj source)
  = Obj (Lodash.baseMerge source
           match objValue with
           | Some (Obj o) => o
           | _ => []
           end).
Proof. reflexivity. Qed.

(** After the merge a key of the source holds the merged value, and any
    other key what the destination had. *)
Lemma prop_baseMerge (key : string) (source : Json.object) :
  NoDup (keys source) ->
  forall object,
    prop key (Lodash.baseMerge source object)
    = match prop key source with
      | Some srcValue => Some (Lodash.mergeValue (prop key object) srcValue)
      | None => prop key object
      end.
Proof.
  induction source as [|[k sv] rest IH]; intros Hnd object; [reflexivity|].
  apply NoDup_cons in Hnd as [Hk Hnd].
  cbn [Lodash.baseMerge]. rewrite (IH Hnd). cbn [prop].
  destruct (String.eqb_spec key k) as [->|Hne].
  - cbn [keys map fst] in Hk. rewrite (prop_None_keys k rest Hk).
    apply prop_assign_eq.
  - rewrite prop_assign_ne by congruence. reflexivity.
Qed.

(** C6, as stated, fails: both files configure [db] with a record, and
    the merged entry keeps the [to] of the user-level file, which the
    project-level entry does not have. *)
Lemma C6_counterexample :
  "db"%string ∈ keys systemPodsJson
  /\ "db"%string ∈ keys localPodsJson
  /\ prop "db" (mergedPods systemPodsJson localPodsJson)
     = Some (Obj [("from"%string, Num 6000); ("to"%string, Num 5433)])
  /\ prop "db" (mergedPods systemPodsJson localPodsJson) <> prop "db" localPodsJson.
Proof.
  split; [right; left|]. split; [left|]. split; [reflexivity|].
  intros H. vm_compute in H. discriminate.
Qed.

(** C6 (as the program has it): for a key of the project-level file, the
    merged entry is lodash's merge of the two entries.  A project-level
    entry that is not a record (a bare port) replaces the user-level entry
    whole.  A project-level record is merged field by field: its own
    fields win, and, when the user-level entry is a record too, the fields
    only that one has are kept. *)
Theorem C6_merge_by_key
    (systemDefinedPods localDefinedPods : Json.object) (K : string) (v : Json.t) :
  NoDup (keys localDefinedPods) ->
  prop K localDefinedPods = Some v ->
  prop K (mergedPods systemDefinedPods localDefinedPods)
  = Some (Lodash.mergeValue (prop K systemDefinedPods) v)
  /\ ((forall props, v <> Obj props) ->
      prop K (mergedPods systemDefinedPods localDefinedPods) = Some v)
  /\ (forall local,
        v = Obj local -> NoDup (keys local) ->
        exists merged,
          prop K (mergedPods systemDefinedPods localDefinedPods) = Some (Obj merged)
          /\ (forall f x, prop f local = Some x -> (forall props, x <> Obj props) ->
                          prop f merged = Some x)
          /\ (forall g, prop g local = None ->
                        prop g merged
                        = match prop K systemDefinedPods with
                          | Some (Obj system) => prop g system
                          | _ => None
                          end)).
Proof.
  intros Hnd Hv.
  assert (Hm : prop K (mergedPods systemDefinedPods localDefinedPods)
               = Some (Lodash.mergeValue (prop K systemDefinedPods) v)).
  { unfold mergedPods, Lodash.merge. rewrite (prop_baseMerge K _ Hnd), Hv. reflexivity. }
  split; [exact Hm|]. split.
  - intros Hscalar. rewrite Hm. f_equal.
    destruct v as [| | | |props|]; try reflexivity. exfalso. apply (Hscalar props eq_refl).
  - intros local -> Hndl. rewrite Hm, mergeValue_Obj.
    eexists. split; [reflexivity|]. split.
    + intros f x Hf Hscalar. rewrite (prop_baseMerge f _ Hndl), Hf. f_equal.
      destruct x as [| | | |props|]; try reflexivity.
      exfalso. apply (Hscalar props eq_refl).
    + intros g Hg. rewrite (prop_baseMerge g _ Hndl), Hg.
      destruct (prop K systemDefinedPods) as [[| | | |system|]|]; reflexivity.
Qed.

Lemma C6_merge_by_key_witness :
  prop "db" (mergedPods systemPodsJson localPodsJson)
  = Some (Lodash.mergeValue (prop "db" systemPodsJson) (Obj [("from"%string, Num 6000)])).
Proof.
  assert (Hnd : NoDup (keys localPodsJson)).
  { apply NoDup_cons. split; [apply not_elem_of_nil | apply NoDup_nil_2]. }
  exact (proj1 (C6_merge_by_key systemPodsJson localPodsJson "db"
                  (Obj [("from"%string, Num 6000)]) Hnd eq_refl)).
Defined.

(** ** The closures of a run: only their own attempts change them *)





























(** ** Names without pattern syntax stay so

    The patterns of [getPodId] and of the health check are built from the
    names and ids of the pods.  A run that starts with names and ids
    without pattern syntax never builds a pattern from anything else: a
    name is never assigned, and an id is only ever replaced by what
    [getPodId] returns for the pod's name. *)

Lemma wellNamed_lookup (s : State) (i : nat) (p : Pod.t) :
  wellNamed s = true -> pods s !! i = Some p -> wellNamedPod p = true.
Proof.
  unfold wellNamed. intros H Hp. rewrite forallb_forall in H.
  apply H, list_elem_of_In. eapply list_elem_of_lookup_2, Hp.
Qed.

Lemma wellNamed_alter (s : State) (i : nat) (f : Pod.t -> Pod.t) :
  (forall p, wellNamedPod p = true -> wellNamedPod (f p) = true) ->
  wellNamed s = true ->
  forallb wellNamedPod (alter f i (pods s)) = true.
Proof.
  unfold wellNamed. intros Hf. generalize (pods s). intros l. revert i.
  induction l as [|p l IH]; intros i H; [reflexivity|].
  cbn in H. apply andb_prop in H as [Hp Hl].
  destruct i as [|i]; cbn; [rewrite (Hf _ Hp), Hl | rewrite Hp, (IH i Hl)]; reflexivity.
Qed.

Lemma namesKept_ret {A} (a : A) : namesKept (ret a).
Proof. intros s H. exact H. Qed.

Lemma namesKept_throw {A} (msg : string) : namesKept (throw (A := A) msg).
Proof. intros s H. exact H. Qed.

Lemma namesKept_get : namesKept get.
Proof. intros s H. exact H. Qed.

Lemma namesKept_bind {A B} (m : M A) (f : A -> M B) :
  namesKept m -> (forall a, namesKept (f a)) -> namesKept (bind m f).
Proof.
  intros Hm Hf s H. unfold bind. specialize (Hm s H).
  destruct (m s) as [a s1|code s1|msg s1]; cbn in *; [|assumption|assumption].
  apply Hf, Hm.
Qed.

(** What is read through a reference is well named. *)
Lemma namesKept_thePod {B} (i : nat) (f : Pod.t -> M B) :
  (forall p, wellNamedPod p = true -> namesKept (f p)) ->
  namesKept (bind (thePod i) f).
Proof.
  intros Hf s H. unfold bind, thePod.
  destruct (pods s !! i) as [p|] eqn:Hp; [|exact H].
  apply (Hf p (wellNamed_lookup s i p H Hp)), H.
Qed.

Lemma namesKept_modify (f : State -> State) :
  (forall s, pods (f s) = pods s) -> namesKept (modify f).
Proof. intros Hf s H. unfold modify, wellNamed. cbn. rewrite Hf. exact H. Qed.

Lemma namesKept_update (i : nat) (f : Pod.t -> Pod.t) :
  (forall p, wellNamedPod p = true -> wellNamedPod (f p) = true) ->
  namesKept (update i f).
Proof. intros Hf s H. apply (wellNamed_alter s i f Hf H). Qed.

Lemma namesKept_tryCatch (m : M unit) (h : string -> M unit) :
  namesKept m -> (forall e, namesKept (h e)) -> namesKept (tryCatch m h).
Proof.
  intros Hm Hh s H. unfold tryCatch. specialize (Hm s H).
  destruct (m s) as [a s1|code s1|msg s1]; cbn in *; [assumption|assumption|].
  apply Hh, Hm.
Qed.

Lemma namesKept_forEach {A} (l : list A) (f : A -> M unit) :
  (forall x, namesKept (f x)) -> namesKept (forEach l f).
Proof.
  intros Hf. induction l as [|x l IH]; cbn [forEach].
  - apply namesKept_ret.
  - apply namesKept_bind; [apply Hf | intros _; exact IH].
Qed.

Lemma namesKept_killChildProcess (j : nat) : namesKept (killChildProcess j).
Proof.
  apply namesKept_thePod. intros p _.
  destruct (Pod.childProcess p);
    [apply namesKept_modify; reflexivity | apply namesKept_throw].
Qed.

Lemma namesKept_setTimeout (f : TimerFn) (d : Z) : namesKept (setTimeout f d).
Proof. intros s H. exact H. Qed.

Lemma namesKept_process_exit (code : option Z) : namesKept (process_exit code).
Proof.
  intros s H. unfold process_exit.
  assert (Hc : namesKept cleanup).
  { apply namesKept_bind; [apply namesKept_get|]. intros s0. apply namesKept_forEach.
    intros j.
    apply namesKept_tryCatch;
      [apply namesKept_killChildProcess | intros; apply namesKept_ret]. }
  specialize (Hc s H). destruct (cleanup s); exact Hc.
Qed.

Lemma namesKept_portForwardPod (j : nat) : namesKept (portForwardPod j).
Proof.
  apply namesKept_thePod. intros p _.
  apply namesKept_bind; [apply namesKept_get|]. intros s0.
  apply namesKept_bind; [apply namesKept_modify; reflexivity|]. intros _.
  apply namesKept_update. intros q Hq. exact Hq.
Qed.

Lemma namesKept_getPods_exec (r : ExecResult) : namesKept (getPods_exec r).
Proof.
  destruct r as [stdout|stderr]; unfold getPods_exec.
  - apply namesKept_bind; [apply namesKept_get|]. intros s0.
    apply namesKept_bind; [|intros; apply namesKept_ret].
    destruct (0 <? restartAttempt s0)%nat;
      [apply namesKept_modify; reflexivity | apply namesKept_ret].
  - destruct (networkError stderr); [|apply namesKept_throw].
    apply namesKept_bind; [apply namesKept_modify; reflexivity|]. intros _.
    apply namesKept_bind; [apply namesKept_get|]. intros s0.
    apply namesKept_bind; [|intros; apply namesKept_ret].
    apply namesKept_forEach. intros j. unfold stopIfInitialized.
    apply namesKept_thePod. intros p _.
    destruct (Pod.initialized p); [|apply namesKept_ret].
    apply namesKept_bind; [|intros; apply namesKept_killChildProcess].
    apply namesKept_update. intros q Hq. exact Hq.
Qed.

(** The id a pod is given is the one [getPodId] returns for its name. *)
Lemma wellNamedPod_set_id (p q : Pod.t) (ns : option string)
    (rawPods podId : string) (silent : bool) :
  wellNamedPod p = true ->
  getPodId ns rawPods (Pod.name p) silent = RetId podId ->
  wellNamedPod q = true -> wellNamedPod (Pod.set_id podId q) = true.
Proof.
  unfold wellNamedPod. intros Hp Hid Hq.
  apply andb_prop in Hp as [Hp _]. apply andb_prop in Hq as [Hq _].
  cbn. rewrite Hq, (getPodId_plain _ _ _ _ _ Hp Hid). reflexivity.
Qed.

Lemma namesKept_formalInit_cb (reply : Reply) : namesKept (formalInit_cb reply).
Proof.
  unfold formalInit_cb.
  apply namesKept_tryCatch; [|intros; apply namesKept_ret].
  destruct reply as [|rawPods].
  - apply namesKept_bind; [apply namesKept_get|]. intros s0.
    apply namesKept_bind; [apply namesKept_setTimeout | intros; apply namesKept_ret].
  - apply namesKept_bind; [apply namesKept_get|]. intros s0.
    apply namesKept_bind.
    { apply namesKept_forEach. intros j.
      apply namesKept_thePod. intros p Hp.
      destruct (getPodId _ _ _ _) as [podId| |msg] eqn:Hid;
        [|apply namesKept_ret | apply namesKept_throw].
      apply namesKept_update. intros q. apply (wellNamedPod_set_id p q _ _ _ _ Hp Hid). }
    intros _. apply namesKept_bind; [apply namesKept_forEach, namesKept_portForwardPod|].
    intros _. apply namesKept_modify; reflexivity.
Qed.

Lemma namesKept_tryReinitPod_cb (c : nat) (reply : Reply) :
  namesKept (tryReinitPod_cb c reply).
Proof.
  unfold tryReinitPod_cb. destruct reply as [|rawPods]; [apply namesKept_ret|].
  apply namesKept_bind;
    [intros s H; unfold theChain; destruct (chains s !! c); exact H|].
  intros ch. apply namesKept_thePod. intros p Hp.
  apply namesKept_bind; [apply namesKept_get|]. intros s0.
  assert (Hwait : namesKept
            (if (maxAttempt <=? attempt ch)%nat then process_exit None
             else
               modify (fun s =>
                 set_chains
                   (alter (fun ch => mkChain (pod ch) (S (attempt ch))) c (chains s)) s) ;;
               t <- setTimeout (TryReinitPod c) attemptDuration ;;
               update (pod ch) (Pod.set_initInterval t))).
  { destruct (maxAttempt <=? attempt ch)%nat; [apply namesKept_process_exit|].
    apply namesKept_bind; [apply namesKept_modify; reflexivity|]. intros _.
    apply namesKept_bind; [apply namesKept_setTimeout|]. intros t.
    apply namesKept_update. intros q Hq. exact Hq. }
  destruct (getPodId _ _ _ _) as [podId| |msg] eqn:Hid;
    [|exact Hwait | apply namesKept_throw].
  destruct (Text.truthy podId); [|exact Hwait].
  apply namesKept_bind; [|intros; apply namesKept_portForwardPod].
  apply namesKept_update. intros q. apply (wellNamedPod_set_id p q _ _ _ _ Hp Hid).
Qed.

Lemma namesKept_checkPod (rawPods : string) (j : nat) : namesKept (checkPod rawPods j).
Proof.
  unfold checkPod. apply namesKept_thePod. intros p _.
  destruct (Pod.restartingState p); [apply namesKept_ret|].
  destruct (_ || _); [|apply namesKept_ret].
  apply namesKept_bind; [apply namesKept_update; intros q Hq; exact Hq|]. intros _.
  apply namesKept_bind; [apply namesKept_killChildProcess|]. intros _.
  apply namesKept_bind; [apply namesKept_update; intros q Hq; exact Hq|]. intros _.
  apply namesKept_bind; [apply namesKept_get|]. intros s0.
  apply namesKept_bind; [apply namesKept_modify; reflexivity|]. intros _.
  apply namesKept_bind;
    [destruct (Pod.initInterval p);
       [apply namesKept_modify; reflexivity | apply namesKept_ret]|].
  intros _. apply namesKept_modify; reflexivity.
Qed.

Lemma namesKept_processKubectlLog (line : string) (j child : nat) :
  namesKept (processKubectlLog line j child).
Proof.
  unfold processKubectlLog. apply namesKept_thePod. intros p _.
  destruct (classify line).
  - destruct (Pod.initialized p);
      [apply namesKept_ret | apply namesKept_update; intros q Hq; exact Hq].
  - apply namesKept_ret.
  - apply namesKept_modify; reflexivity.
  - destruct (Pod.excluded p); [apply namesKept_ret|].
    apply namesKept_bind; [apply namesKept_update; intros q Hq; exact Hq|]. intros _.
    apply namesKept_bind; [apply namesKept_modify; reflexivity|]. intros _.
    apply namesKept_bind; [apply namesKept_modify; reflexivity|]. intros _.
    apply namesKept_bind; [apply namesKept_get|]. intros s0.
    destruct (runningPods s0); [apply namesKept_process_exit | apply namesKept_ret].
  - apply namesKept_process_exit.
  - destruct (Pod.initialized p); [apply namesKept_ret | apply namesKept_process_exit].
Qed.

(** One turn of the event loop, and any number of them. *)
Lemma step_wellNamed (s : State) (ev : Event) :
  wellNamed s = true -> wellNamed (final (step s ev)) = true.
Proof.
  revert s.
  change (namesKept (fun s => step s ev)).
  destruct ev as [|e r|t|child chunk|child|sg]; intros s; cbn [step].
  - destruct (interval s); [apply namesKept_modify; reflexivity | auto].
  - destruct (execs s !! e) as [[cmd [callback|]]|]; auto.
    apply namesKept_bind; [apply namesKept_modify; reflexivity|]. intros _.
    apply namesKept_bind; [apply namesKept_getPods_exec|]. intros reply.
    destruct callback;
      [apply namesKept_formalInit_cb
      |destruct reply as [|rawPods];
         [apply namesKept_ret
         |apply namesKept_bind; [apply namesKept_get|]; intros s0;
          apply namesKept_forEach, namesKept_checkPod]
      |apply namesKept_tryReinitPod_cb].
  - destruct (timers s !! t) as [tm|]; auto.
    destruct (due tm); auto.
    apply namesKept_bind; [apply namesKept_modify; reflexivity|]. intros _.
    destruct (fn tm); apply namesKept_modify; reflexivity.
  - destruct (children s !! child) as [ch|]; auto.
    destruct (closed ch); [auto | apply namesKept_processKubectlLog].
  - destruct (children s !! child) as [ch|]; auto.
    destruct (closed ch); auto.
    apply namesKept_bind; [apply namesKept_modify; reflexivity|]. intros _.
    apply namesKept_bind; [|intros _]; apply namesKept_update; intros q Hq; exact Hq.
  - apply namesKept_process_exit.
Qed.

Lemma steps_wellNamed (evs : list Event) :
  forall s, wellNamed s = true -> wellNamed (final (steps s evs)) = true.
Proof.
  induction evs as [|ev evs IH]; intros s H; cbn [steps]; [exact H|].
  pose proof (step_wellNamed s ev H) as H1.
  destruct (step s ev) as [[] s1|code s1|msg s1]; cbn in *; [|assumption|assumption].
  apply IH, H1.
Qed.



(** The count is the closure's, not the session's.  In [demoRestarting]
    the [close] of the killed tunnel has cleared [restartingState]; after
    the first failed attempt the next health check replaces the closure by
    a second one, whose counter starts at zero, and the run ends on the
    22nd failed attempt for [web]: the first closure's one and the second
    closure's 21. *)
Example session_fails_22_times :
  let last := ExecDone 24 (Succeeded tableDown) in
  failures 0 demoRestarting (replacedRun ++ [last]) = 1
  /\ failures 1 demoRestarting (replacedRun ++ [last]) = 21
  /\ exitCode (steps demoRestarting replacedRun) = None
  /\ (chains (final (steps demoRestarting replacedRun)))
     = [mkChain 0 1; mkChain 0 20]
  /\ exitCode (steps demoRestarting (replacedRun ++ [last])) = Some 0%Z.
Proof. vm_compute. repeat split. Qed.

(** * Further properties *)

(** ** [getPodId] *)

(** For a name in which [.] is the only pattern syntax: when no line of
    the table starts with the name, silent mode returns [false] and the
    other mode throws the "Could not find pod" message with an empty list
    of available pods. *)
Theorem getPodId_no_line
    (ns : option string) (rawPods : string) (c : ascii) (rest : string) :
  modelled (String c rest) = true ->
  filterPods (Text.split nl rawPods) (String c rest) = [] ->
  getPodId ns rawPods (String c rest) true = RetFalse
  /\ getPodId ns rawPods (String c rest) false
     = Thrown (notFoundMsg ns (String c rest) "").
Proof.
  intros _ H. unfold getPodId. rewrite H. cbn [Text.join].
  assert (H1 : exec (runningPattern (String c rest)) "" = None).
  { cbn. destruct (Ascii.eqb c "."); reflexivity. }
  assert (H2 : exec (statePattern (String c rest)) "" = None).
  { cbn. destruct (Ascii.eqb c "."); reflexivity. }
  rewrite H1, H2. split; reflexivity.
Qed.

Lemma getPodId_no_line_witness :
  getPodId None tableDown "web" true = RetFalse
  /\ getPodId None tableDown "web" false = Thrown (notFoundMsg None "web" "").
Proof.
  apply (getPodId_no_line None tableDown "w" "eb"); reflexivity.
Defined.

(** The id [getPodId] returns for a name without pattern syntax is the
    name followed by characters of [[-0-9a-z]] only. *)
Theorem getPodId_id_shape
    (ns : option string) (rawPods podName id : string) (silent : bool) :
  plain podName = true ->
  getPodId ns rawPods podName silent = RetId id ->
  exists suffix,
    id = (podName ++ suffix)%string
    /\ forallb idchar (list_ascii_of_string suffix) = true.
Proof. apply getPodId_shape. Qed.

Lemma getPodId_id_shape_witness :
  exists suffix,
    "webapp-1a2b"%string = ("web" ++ suffix)%string
    /\ forallb idchar (list_ascii_of_string suffix) = true.
Proof.
  apply (getPodId_id_shape None table3 "web" "webapp-1a2b" true); reflexivity.
Defined.

(** ** The first line with [Running] wins *)

Lemma string_app_nil_r (s : string) : (s ++ "")%string = s.
Proof. induction s as [|c s IH]; cbn; [reflexivity | now rewrite IH]. Qed.

Lemma run_splice_plain {A} (name rest : string)
    (k : string -> list string -> string -> option A) :
  plain name = true ->
  run (splice name) (name ++ rest) k = k name [] rest.
Proof.
  revert k. induction name as [|c name IH]; intros k Hplain; [reflexivity|].
  cbn [plain] in Hplain.
  apply andb_prop in Hplain as [Hc Hname]. apply andb_prop in Hc as [_ Hc].
  apply negb_true_iff in Hc.
  cbn [splice String.append]. rewrite Hc. cbn [run]. rewrite Ascii.eqb_refl.
  rewrite (IH _ Hname). reflexivity.
Qed.

(** The star first offers its continuation the longest run of the
    class. *)
Lemma star_longest {A} (p : ascii -> bool) (t rest : string)
    (k : string -> string -> option A) (a : A) :
  forallb p (list_ascii_of_string t) = true ->
  match rest with
  | EmptyString => True
  | String c _ => p c = false
  end ->
  k t rest = Some a ->
  star p (t ++ rest) k = Some a.
Proof.
  revert k. induction t as [|c t IH]; intros k Ht Hrest Hk.
  - cbn [String.append]. destruct rest as [|d rest]; cbn [star]; [exact Hk|].
    rewrite Hrest. exact Hk.
  - cbn in Ht. apply andb_prop in Ht as [Hc Ht].
    cbn [String.append star]. rewrite Hc.
    rewrite (IH (fun t0 rest0 => k (String c t0) rest0) Ht Hrest Hk). reflexivity.
Qed.

(** It finds a split that its continuation accepts whenever there is
    one. *)
Lemma star_complete {A} (p : ascii -> bool) (t rest : string)
    (k : string -> string -> option A) :
  forallb p (list_ascii_of_string t) = true ->
  is_Some (k t rest) ->
  is_Some (star p (t ++ rest) k).
Proof.
  revert k. induction t as [|c t IH]; intros k Ht Hk.
  - cbn [String.append]. destruct rest as [|d rest]; cbn [star]; [exact Hk|].
    destruct (p d); [|exact Hk].
    destruct (star p rest _); [eauto | exact Hk].
  - cbn in Ht. apply andb_prop in Ht as [Hc Ht].
    cbn [String.append star]. rewrite Hc.
    destruct (IH (fun t0 rest0 => k (String c t0) rest0) Ht Hk) as [a ->]. eauto.
Qed.

Lemma star_longest_ex {A} (p : ascii -> bool) (t rest : string)
    (k : string -> string -> option A) (P : A -> Prop) :
  forallb p (list_ascii_of_string t) = true ->
  match rest with
  | EmptyString => True
  | String c _ => p c = false
  end ->
  (exists a, k t rest = Some a /\ P a) ->
  exists a, star p (t ++ rest) k = Some a /\ P a.
Proof.
  intros Ht Hrest (a & Hk & Ha). exists a. split; [|exact Ha].
  apply star_longest; assumption.
Qed.

Lemma star_complete_ex {A} (p : ascii -> bool) (t rest : string)
    (k : string -> string -> option A) (P : A -> Prop) :
  forallb p (list_ascii_of_string t) = true ->
  is_Some (k t rest) ->
  (forall t0 r0 x, k t0 r0 = Some x -> P x) ->
  exists x, star p (t ++ rest) k = Some x /\ P x.
Proof.
  intros Ht Hk HP. destruct (star_complete p t rest k Ht Hk) as [x Hx].
  exists x. split; [exact Hx|].
  apply star_Some in Hx as (t0 & r0 & _ & _ & Hx). exact (HP _ _ _ Hx).
Qed.

(** On a line that starts with the name, the first pattern of [getPodId]
    matches when the word [Running] follows the instance id, and group 1
    is the id: the name and the longest run of [[-0-9a-z]] after it. *)
Lemma run_runningPattern_ok (name suffix a rest : string) :
  plain name = true ->
  forallb idchar (list_ascii_of_string suffix) = true ->
  forallb dot (list_ascii_of_string a) = true ->
  match a with
  | EmptyString => True
  | String c _ => idchar c = false
  end ->
  exists m,
    run (runningPattern name) (name ++ suffix ++ a ++ "Running" ++ rest)
        (fun t g _ => Some (t :: g)) = Some m
    /\ group m 1 = (name ++ suffix)%string.
Proof.
  intros Hplain Hsuffix Ha Hfirst.
  unfold runningPattern. cbn [run]. rewrite run_splice_plain by exact Hplain.
  apply star_longest_ex; [exact Hsuffix | destruct a; [reflexivity | exact Hfirst] |].
  apply star_complete_ex; [exact Ha | |].
  - cbn [run]. rewrite (run_splice_plain "Running") by reflexivity. eauto.
  - intros t0 r0 m Hm. cbn [run] in Hm.
    apply (run_splice_Some "Running") in Hm as (r1 & _ & Hm); [|reflexivity].
    injection Hm as <-. reflexivity.
Qed.

(** For a name without pattern syntax: when, of the lines that start with
    the name, the first to hold the word [Running] holds it after the
    instance id (the name and the longest run of [[-0-9a-z]] that follows
    it), with no carriage return in between, [getPodId] returns that id,
    in both modes, whatever lines come after. *)
Theorem getPodId_first_running_line
    (ns : option string) (rawPods name suffix a rest : string)
    (earlier later : list string) (silent : bool) :
  plain name = true ->
  forallb notLF (list_ascii_of_string name) = true ->
  filterPods (Text.split nl rawPods) name
  = earlier ++ (name ++ suffix ++ a ++ "Running" ++ rest)%string :: later ->
  Forall (fun l => Text.includes l "Running" = false) earlier ->
  forallb idchar (list_ascii_of_string suffix) = true ->
  forallb dot (list_ascii_of_string a) = true ->
  match a with
  | EmptyString => True
  | String c _ => idchar c = false
  end ->
  getPodId ns rawPods name silent = RetId (name ++ suffix).
Proof.
  intros Hplain Hname Hlines Hearlier Hsuffix Ha Hfirst.
  unfold getPodId. rewrite Hlines, exec_skips_lines by assumption.
  set (tail := match later with
               | [] => ""%string
               | _ => String nl (Text.join nl_str later)
               end).
  assert (Hjoin : Text.join nl_str ((name ++ suffix ++ a ++ "Running" ++ rest)%string :: later)
                  = (name ++ suffix ++ a ++ "Running" ++ rest ++ tail)%string).
  { transitivity ((name ++ suffix ++ a ++ "Running" ++ rest) ++ tail)%string.
    - subst tail. destruct later as [|l later]; [|reflexivity].
      cbn [Text.join]. symmetry. apply string_app_nil_r.
    - rewrite !string_app_assoc. reflexivity. }
  rewrite Hjoin. clear Hjoin.
  destruct (run_runningPattern_ok name suffix a (rest ++ tail) Hplain Hsuffix Ha Hfirst)
    as (m & Hm & Hg).
  assert (Hexec : exec (runningPattern name)
                    (name ++ suffix ++ a ++ "Running" ++ rest ++ tail) = Some m).
  { destruct (name ++ suffix ++ a ++ "Running" ++ rest ++ tail)%string;
      cbn [exec]; rewrite Hm; reflexivity. }
  rewrite Hexec, Hg. reflexivity.
Qed.

Lemma getPodId_first_running_line_witness :
  getPodId None table4 "web" true = RetId "webapp-1a2b"
  /\ getPodId None table5 "myapp" false = RetId "myapp-7f8c9".
Proof.
  split.
  - apply (getPodId_first_running_line None table4 "web" "app-1a2b" " 1/1 " " 0 5m"
             ["web-6c7d 0/1 Pending 0 4s"%string] [] true); try reflexivity.
    repeat constructor.
  - apply (getPodId_first_running_line None table5 "myapp" "-7f8c9" " 1/1 " " 0 3m"
             ["myapp-0aaa 0/1 Pending 0 4s"%string] [] false); try reflexivity.
    repeat constructor.
Defined.

(** ** [processKubectlLog] *)

(** A chunk that contains "Forwarding from" is taken as the sign that
    forwarding works, whatever else it contains (a port-in-use or
    permission text in the same chunk is not looked at): the turn only
    sets [initialized]; nobody is excluded, nothing is killed, the run
    goes on. *)
Theorem forwarding_from_wins
    (s : State) (child : nat) (ch : Child) (p : Pod.t) (chunk : string) :
  children s !! child = Some ch -> closed ch = false ->
  pods s !! owner ch = Some p ->
  Text.includes chunk "Forwarding from" = true ->
  classify chunk = ForwardingFrom
  /\ step s (Data child chunk)
     = Val tt (if Pod.initialized p then s
               else set_pods (<[owner ch := Pod.set_initialized true p]> (pods s)) s).
Proof.
  intros Hc Hopen Hp Hinc.
  assert (Hcl : classify chunk = ForwardingFrom) by (unfold classify; rewrite Hinc; reflexivity).
  split; [exact Hcl|].
  unfold step. rewrite Hc, Hopen. unfold processKubectlLog.
  rewrite (bind_val _ _ _ _ _ (thePod_val _ _ _ Hp)), Hcl.
  destruct (Pod.initialized p); [reflexivity|].
  unfold update, modify. rewrite (alter_insert _ _ _ _ Hp). reflexivity.
Qed.

Lemma forwarding_from_wins_witness :
  classify (forwardingLine "8080" ++ inUseLine)%string = ForwardingFrom
  /\ step demoStarted (Data 0 (forwardingLine "8080" ++ inUseLine)%string)
     = Val tt (set_pods (<[0 := Pod.mk "web" "8080" "8080" None (Some "web-6c7d"%string)
                                  true false false (Some 0) None]> (pods demoStarted))
                 demoStarted).
Proof.
  exact (forwarding_from_wins demoStarted 0
           (mkChild 0 ["port-forward"; "web-6c7d"; "8080:8080"]%string false false)
           (Pod.mk "web" "8080" "8080" None (Some "web-6c7d"%string)
              false false false (Some 0) None)
           (forwardingLine "8080" ++ inUseLine)%string
           eq_refl eq_refl eq_refl eq_refl).
Defined.

(** Output that matches none of the five patterns is fatal while the
    session has not reported forwarding (the run exits, with code 0), and
    changes nothing afterwards. *)
Theorem unrecognised_output
    (s : State) (child : nat) (ch : Child) (p : Pod.t) (chunk : string) :
  children s !! child = Some ch -> closed ch = false ->
  pods s !! owner ch = Some p ->
  classify chunk = Unrecognised ->
  (Pod.initialized p = true -> step s (Data child chunk) = Val tt s)
  /\ (Pod.initialized p = false -> exitCode (step s (Data child chunk)) = Some 0%Z).
Proof.
  intros Hc Hopen Hp Hcl.
  assert (H : step s (Data child chunk)
              = if Pod.initialized p then Val tt s else process_exit None s).
  { unfold step. rewrite Hc, Hopen. unfold processKubectlLog.
    rewrite (bind_val _ _ _ _ _ (thePod_val _ _ _ Hp)), Hcl.
    destruct (Pod.initialized p); reflexivity. }
  rewrite H. split; intros ->; [reflexivity|].
  destruct (process_exit_exits None s) as [s' ->]. reflexivity.
Qed.

Lemma unrecognised_output_witness :
  exitCode (step demoStarted (Data 0 "error: the server doesn't have a resource type"))
  = Some 0%Z
  /\ step demoActive (Data 0 "E1102 10:00:00 portforward.go: lost connection")
     = Val tt demoActive.
Proof.
  split.
  - exact (proj2 (unrecognised_output demoStarted 0
             (mkChild 0 ["port-forward"; "web-6c7d"; "8080:8080"]%string false false)
             (Pod.mk "web" "8080" "8080" None (Some "web-6c7d"%string)
                false false false (Some 0) None)
             "error: the server doesn't have a resource type"
             eq_refl eq_refl eq_refl eq_refl) eq_refl).
  - exact (proj1 (unrecognised_output demoActive 0
             (mkChild 0 ["port-forward"; "web-6c7d"; "8080:8080"]%string false false)
             (Pod.mk "web" "8080" "8080" None (Some "web-6c7d"%string)
                true false false (Some 0) None)
             "E1102 10:00:00 portforward.go: lost connection"
             eq_refl eq_refl eq_refl eq_refl) eq_refl).
Defined.

(** A forwarding error reported by a tunnel starts a health check at
    once, whether or not the periodic one has been installed, and changes
    nothing else; "Handling connection" changes nothing at all. *)
Theorem forwarding_error_checks_health
    (s : State) (child : nat) (ch : Child) (chunk : string) :
  children s !! child = Some ch -> closed ch = false ->
  is_Some (pods s !! owner ch) ->
  (classify chunk = ForwardingError ->
   exists cmd,
     step s (Data child chunk)
     = Val tt (set_execs (execs s ++ [mkExec cmd (Some HealthCb)]) s))
  /\ (classify chunk = HandlingConnection -> step s (Data child chunk) = Val tt s).
Proof.
  intros Hc Hopen [p Hp]. split; intros Hcl.
  - unfold step. rewrite Hc, Hopen. unfold processKubectlLog.
    rewrite (bind_val _ _ _ _ _ (thePod_val _ _ _ Hp)), Hcl.
    unfold healthCheck, getPods, modify. eexists. reflexivity.
  - unfold step. rewrite Hc, Hopen. unfold processKubectlLog.
    rewrite (bind_val _ _ _ _ _ (thePod_val _ _ _ Hp)), Hcl. reflexivity.
Qed.

Lemma forwarding_error_checks_health_witness :
  exists cmd,
    step demoStarted (Data 1 "E1102 an error occurred forwarding 5432 -> 5433: EOF")
    = Val tt (set_execs (execs demoStarted ++ [mkExec cmd (Some HealthCb)]) demoStarted).
Proof.
  apply (proj1 (forwarding_error_checks_health demoStarted 1
                  (mkChild 1 ["port-forward"; "db-5d4f7"; "5432:5433"]%string false false)
                  "E1102 an error occurred forwarding 5432 -> 5433: EOF"
                  eq_refl eq_refl (ex_intro _ _ eq_refl))).
  reflexivity.
Defined.

(** ** The health check *)

Lemma healthy_loop (rawPods : string) (l : list nat) (s : State) :
  (forall i, i ∈ l ->
     exists p, pods s !! i = Some p
       /\ (Pod.restartingState p = true
           \/ (Pod.initialized p = true
               /\ is_Some (exec (stillRunningPattern
                                   (default "undefined"%string (Pod.id p))) rawPods)))) ->
  forEach l (checkPod rawPods) s = Val tt s.
Proof.
  induction l as [|i l IH]; intros H; [reflexivity|].
  cbn [forEach]. unfold bind.
  assert (Hi : checkPod rawPods i s = Val tt s).
  { destruct (H i) as (p & Hp & Hok); [left|].
    destruct Hok as [Hrs|[Hinit Hrun]]; [apply (checkPod_skips _ _ _ _ Hp Hrs)|].
    unfold checkPod. rewrite (bind_val _ _ _ _ _ (thePod_val _ _ _ Hp)).
    destruct (Pod.restartingState p); [reflexivity|].
    rewrite Hinit, bool_decide_true by exact Hrun. reflexivity. }
  rewrite Hi. apply IH. intros j Hj. apply H. right. exact Hj.
Qed.

(** A health check whose table shows every session's instance on a
    Running line, each session having reported forwarding (or being
    marked as restarting), touches no session: no tunnel is killed, no
    closure, timer or query is created. *)
Theorem health_check_leaves_healthy
    (s : State) (e : nat) (cmd rawPods : string) :
  execs s !! e = Some (mkExec cmd (Some HealthCb)) ->
  (forall i, i ∈ runningPods s ->
     exists p, pods s !! i = Some p
       /\ (Pod.restartingState p = true
           \/ (Pod.initialized p = true
               /\ is_Some (exec (stillRunningPattern
                                   (default "undefined"%string (Pod.id p))) rawPods)))) ->
  exists s',
    step s (ExecDone e (Succeeded rawPods)) = Val tt s'
    /\ pods s' = pods s /\ children s' = children s /\ chains s' = chains s
    /\ timers s' = timers s /\ runningPods s' = runningPods s
    /\ execs s' = <[e := mkExec cmd None]> (execs s).
Proof.
  intros He Hok. unfold step. rewrite He.
  destruct (getPods_exec_ok rawPods (set_execs (<[e := mkExec cmd None]> (execs s)) s))
    as [n Hn].
  unfold bind at 1. unfold modify at 1. rewrite (bind_val _ _ _ _ _ Hn).
  unfold healthCheck_cb, bind, get. cbn [runningPods set_restartAttempt set_execs].
  rewrite healthy_loop by exact Hok.
  eexists. split; [reflexivity|]. repeat split.
Qed.

Lemma health_check_leaves_healthy_witness :
  exists s',
    step demoChecking (ExecDone 1 (Succeeded tableUp)) = Val tt s'
    /\ pods s' = pods demoChecking /\ children s' = children demoChecking
    /\ chains s' = chains demoChecking.
Proof.
  destruct (health_check_leaves_healthy demoChecking 1 "kubectl get pods" tableUp eq_refl)
    as (s' & H1 & H2 & H3 & H4 & _).
  - intros i Hi. apply elem_of_cons in Hi as [->|Hi].
    + eexists. split; [reflexivity|]. right. split; [reflexivity|]. vm_compute. eauto.
    + apply elem_of_cons in Hi as [->|Hi].
      * eexists. split; [reflexivity|]. right. split; [reflexivity|]. vm_compute. eauto.
      * apply elem_of_nil in Hi. destruct Hi.
  - exists s'. auto.
Defined.

(** When a health check restarts a pod that still has a reconnection
    timer pending, the timer is cleared: if it runs out afterwards nothing
    happens. *)
Theorem restart_cancels_pending_timer
    (s : State) (rawPods : string) (i child t : nat) (p : Pod.t) :
  pods s !! i = Some p ->
  Pod.restartingState p = false ->
  Pod.childProcess p = Some child ->
  Pod.initInterval p = Some t ->
  exec (stillRunningPattern (default "undefined"%string (Pod.id p))) rawPods = None
  \/ Pod.initialized p = false ->
  exists s',
    checkPod rawPods i s = Val tt s'
    /\ chains s' = chains s ++ [mkChain i 0]
    /\ step s' (Timeout t) = Val tt s'.
Proof.
  intros Hp Hrs Hcp Ht Hdead.
  destruct (checkPod_restarts s rawPods i child p Hp Hrs Hcp Hdead)
    as (s' & cmd & Hrun & Hch & _ & _ & _ & Htm & _).
  exists s'. split; [exact Hrun|]. split; [exact Hch|].
  unfold step. rewrite Htm, Ht, list_lookup_alter_eq.
  destruct (timers s !! t) as [tm|]; reflexivity.
Qed.

Lemma restart_cancels_pending_timer_witness :
  exists s',
    checkPod tableDown 0
      (final (steps demoRestarting [ExecDone 2 (Succeeded tableDown)])) = Val tt s'
    /\ chains s' = [mkChain 0 1; mkChain 0 0]
    /\ step s' (Timeout 0) = Val tt s'.
Proof.
  destruct (restart_cancels_pending_timer
              (final (steps demoRestarting [ExecDone 2 (Succeeded tableDown)]))
              tableDown 0 0 0
              (Pod.mk "web" "8080" "8080" None (Some "web-6c7d"%string)
                 false false false (Some 0) (Some 0))
              eq_refl eq_refl eq_refl eq_refl (or_intror eq_refl))
    as (s' & H1 & H2 & H3).
  exists s'. split; [exact H1|]. split; [exact H2 | exact H3].
Defined.

(** ** What a run never does *)

(** [runningPods] only ever shrinks, and a reconnection closure keeps the
    pod it was created for. *)
Theorem runningPods_only_shrinks (s : State) (evs : list Event) :
  (forall j, j ∈ runningPods (final (steps s evs)) -> j ∈ runningPods s)
  /\ (forall c ch, chains s !! c = Some ch ->
        exists ch', chains (final (steps s evs)) !! c = Some ch' /\ pod ch' = pod ch).
Proof.
  destruct (steps_noNews 0 evs s) as (H1 & H2 & _). split; assumption.
Qed.

(** ** Leaving the process *)

(** The loop of [cleanup]: every pod of the list that has a child has
    had it killed afterwards; pods and everything else are as before. *)
Lemma cleanup_loop_spec (l : list nat) :
  forall s,
    exists K,
      forEach l (fun i => tryCatch (killChildProcess i) (fun _ => ret tt)) s
      = Val tt (set_children K s)
      /\ length K = length (children s)
      /\ forall c ch, children s !! c = Some ch ->
           exists k, K !! c = Some (mkChild (owner ch) (args ch) k (closed ch))
             /\ (k = true <->
                 killed ch = true
                 \/ exists i p, i ∈ l /\ pods s !! i = Some p
                      /\ Pod.childProcess p = Some c).
Proof.
  induction l as [|j l IH]; intros s.
  - exists (children s). split; [destruct s; reflexivity|]. split; [reflexivity|].
    intros c ch Hc. exists (killed ch). split; [destruct ch; exact Hc|].
    split; [auto|]. intros [H|(i & p & Hi & _)]; [exact H|].
    apply elem_of_nil in Hi. destruct Hi.
  - cbn [forEach]. unfold bind at 1.
    assert (Hj : (tryCatch (killChildProcess j) (fun _ => ret tt) s = Val tt s
                  /\ forall p, pods s !! j = Some p -> Pod.childProcess p = None)
                 \/ exists p cj, pods s !! j = Some p /\ Pod.childProcess p = Some cj
                      /\ tryCatch (killChildProcess j) (fun _ => ret tt) s
                         = Val tt (set_children
                                     (alter (fun ch => mkChild (owner ch) (args ch) true
                                                               (closed ch)) cj (children s))
                                     s)).
    { unfold tryCatch, killChildProcess, bind, thePod.
      destruct (pods s !! j) as [p|] eqn:Hp.
      - destruct (Pod.childProcess p) as [cj|] eqn:Hcp.
        + right. exists p, cj. auto.
        + left. split; [reflexivity|]. intros p' [= <-]. exact Hcp.
      - left. split; [reflexivity|]. intros p' [=]. }
    destruct Hj as [[-> Hnone]|(pj & cj & Hpj & Hcj & ->)].
    + destruct (IH s) as (K & Hrun & Hlen & HK). exists K. split; [exact Hrun|].
      split; [exact Hlen|].
      intros c ch Hc. destruct (HK c ch Hc) as (k & HKc & Hk).
      exists k. split; [exact HKc|]. rewrite Hk. split.
      * intros [H|(i & p & Hi & Hrest)]; [left; exact H|].
        right. exists i, p. split; [right; exact Hi | exact Hrest].
      * intros [H|(i & p & Hi & Hp & Hcp)]; [left; exact H|].
        apply elem_of_cons in Hi as [->|Hi].
        -- rewrite (Hnone p Hp) in Hcp. discriminate.
        -- right. exists i, p. auto.
    + set (s1 := set_children _ s).
      destruct (IH s1) as (K & Hrun & Hlen & HK). exists K.
      split; [rewrite Hrun; reflexivity|].
      split; [rewrite Hlen; subst s1; cbn; apply length_alter|].
      intros c ch Hc.
      assert (Hc1 : children s1 !! c
                    = Some (if decide (cj = c)
                            then mkChild (owner ch) (args ch) true (closed ch) else ch)).
      { subst s1. cbn. rewrite list_lookup_alter.
        destruct (decide (cj = c)) as [->|]; [rewrite Hc; reflexivity | exact Hc]. }
      destruct (HK _ _ Hc1) as (k & HKc & Hk).
      destruct (decide (cj = c)) as [->|Hne]; cbn in HKc, Hk.
      * exists k. split; [exact HKc|]. split.
        -- intros _. right. exists j, pj. split; [left|auto].
        -- intros _. apply Hk. left. reflexivity.
      * exists k. split; [exact HKc|]. rewrite Hk. split.
        -- intros [H|(i & p & Hi & Hrest)]; [left; exact H|].
           right. exists i, p. split; [right; exact Hi | exact Hrest].
        -- intros [H|(i & p & Hi & Hp & Hcp)]; [left; exact H|].
           apply elem_of_cons in Hi as [->|Hi].
           ++ congruence.
           ++ right. exists i, p. auto.
Qed.

(** [process.exit] ends the run with the given code, 0 when none is
    given, after killing the tunnel of every pod of [runningPods]; a pod
    without a tunnel does not stop the loop. *)
Lemma process_exit_spec (code : option Z) (s : State) :
  exists K,
    process_exit code s = Exit (default 0%Z code) (set_children K s)
    /\ length K = length (children s)
    /\ forall c ch, children s !! c = Some ch ->
         exists k, K !! c = Some (mkChild (owner ch) (args ch) k (closed ch))
           /\ (k = true <->
               killed ch = true
               \/ exists i p, i ∈ runningPods s /\ pods s !! i = Some p
                    /\ Pod.childProcess p = Some c).
Proof.
  unfold process_exit, cleanup, bind, get.
  destruct (cleanup_loop_spec (runningPods s) s) as (K & -> & Hlen & HK).
  exists K. split; [reflexivity|]. split; [exact Hlen | exact HK].
Qed.

Lemma process_exit_clean (code : option Z) : exitsClean (process_exit code).
Proof.
  intros s c0 s' H. destruct (process_exit_spec code s) as (K & Hrun & Hlen & HK).
  rewrite Hrun in H. injection H as _ <-.
  intros i p c ch Hi Hp Hcp Hc. cbn in *.
  assert (Hlt : c < length (children s)).
  { rewrite <- Hlen. eapply lookup_lt_Some. exact Hc. }
  destruct (lookup_lt_is_Some_2 _ _ Hlt) as [ch0 Hc0].
  destruct (HK c ch0 Hc0) as (k & HKc & Hk).
  rewrite HKc in Hc. injection Hc as <-. cbn.
  apply Hk. right. exists i, p. auto.
Qed.

Lemma exitsClean_ret {A} (a : A) : exitsClean (ret a).
Proof. intros s c s' H. discriminate. Qed.

Lemma exitsClean_throw {A} (msg : string) : exitsClean (throw (A := A) msg).
Proof. intros s c s' H. discriminate. Qed.

Lemma exitsClean_get : exitsClean get.
Proof. intros s c s' H. discriminate. Qed.

Lemma exitsClean_modify (f : State -> State) : exitsClean (modify f).
Proof. intros s c s' H. discriminate. Qed.

Lemma exitsClean_bind {A B} (m : M A) (f : A -> M B) :
  exitsClean m -> (forall a, exitsClean (f a)) -> exitsClean (bind m f).
Proof.
  intros Hm Hf s c s' H. unfold bind in H.
  destruct (m s) as [a s1|c1 s1|msg s1] eqn:E.
  - apply (Hf a s1 c s' H).
  - injection H as -> ->. apply (Hm s c s' E).
  - discriminate.
Qed.

Lemma exitsClean_tryCatch (m : M unit) (h : string -> M unit) :
  exitsClean m -> (forall e, exitsClean (h e)) -> exitsClean (tryCatch m h).
Proof.
  intros Hm Hh s c s' H. unfold tryCatch in H.
  destruct (m s) as [a s1|c1 s1|msg s1] eqn:E.
  - discriminate.
  - injection H as -> ->. apply (Hm s c s' E).
  - apply (Hh msg s1 c s' H).
Qed.

Lemma exitsClean_forEach {A} (l : list A) (f : A -> M unit) :
  (forall x, exitsClean (f x)) -> exitsClean (forEach l f).
Proof.
  intros Hf. induction l as [|x l IH]; cbn [forEach].
  - apply exitsClean_ret.
  - apply exitsClean_bind; [apply Hf | intros _; exact IH].
Qed.

Lemma exitsClean_thePod (i : nat) : exitsClean (thePod i).
Proof. intros s c s' H. unfold thePod in H. destruct (pods s !! i); discriminate. Qed.

Lemma exitsClean_theChain (i : nat) : exitsClean (theChain i).
Proof. intros s c s' H. unfold theChain in H. destruct (chains s !! i); discriminate. Qed.

Lemma exitsClean_killChildProcess (i : nat) : exitsClean (killChildProcess i).
Proof.
  apply exitsClean_bind; [apply exitsClean_thePod|]. intros p.
  destruct (Pod.childProcess p); [apply exitsClean_modify | apply exitsClean_throw].
Qed.

Lemma exitsClean_setTimeout (f : TimerFn) (d : Z) : exitsClean (setTimeout f d).
Proof. intros s c s' H. discriminate. Qed.

Lemma exitsClean_portForwardPod (i : nat) : exitsClean (portForwardPod i).
Proof.
  apply exitsClean_bind; [apply exitsClean_thePod|]. intros p.
  apply exitsClean_bind; [apply exitsClean_get|]. intros s0.
  apply exitsClean_bind; [apply exitsClean_modify | intros; apply exitsClean_modify].
Qed.

Lemma exitsClean_getPods_exec (r : ExecResult) : exitsClean (getPods_exec r).
Proof.
  destruct r as [stdout|stderr]; unfold getPods_exec.
  - apply exitsClean_bind; [apply exitsClean_get|]. intros s0.
    apply exitsClean_bind; [|intros; apply exitsClean_ret].
    destruct (0 <? restartAttempt s0)%nat; [apply exitsClean_modify | apply exitsClean_ret].
  - destruct (networkError stderr); [|apply exitsClean_throw].
    apply exitsClean_bind; [apply exitsClean_modify|]. intros _.
    apply exitsClean_bind; [apply exitsClean_get|]. intros s0.
    apply exitsClean_bind; [|intros; apply exitsClean_ret].
    apply exitsClean_forEach. intros j. unfold stopIfInitialized.
    apply exitsClean_bind; [apply exitsClean_thePod|]. intros p.
    destruct (Pod.initialized p); [|apply exitsClean_ret].
    apply exitsClean_bind; [apply exitsClean_modify | intros; apply exitsClean_killChildProcess].
Qed.

Lemma exitsClean_formalInit_cb (reply : Reply) : exitsClean (formalInit_cb reply).
Proof.
  unfold formalInit_cb.
  apply exitsClean_tryCatch; [|intros; apply exitsClean_ret].
  destruct reply as [|rawPods].
  - apply exitsClean_bind; [apply exitsClean_get|]. intros s0.
    apply exitsClean_bind; [apply exitsClean_setTimeout | intros; apply exitsClean_ret].
  - apply exitsClean_bind; [apply exitsClean_get|]. intros s0.
    apply exitsClean_bind.
    { apply exitsClean_forEach. intros j.
      apply exitsClean_bind; [apply exitsClean_thePod|]. intros p.
      destruct (getPodId _ _ _ _);
        [apply exitsClean_modify | apply exitsClean_ret | apply exitsClean_throw]. }
    intros _. apply exitsClean_bind; [apply exitsClean_forEach, exitsClean_portForwardPod|].
    intros _. apply exitsClean_modify.
Qed.

Lemma exitsClean_checkPod (rawPods : string) (i : nat) : exitsClean (checkPod rawPods i).
Proof.
  unfold checkPod.
  apply exitsClean_bind; [apply exitsClean_thePod|]. intros p.
  destruct (Pod.restartingState p); [apply exitsClean_ret|].
  destruct (_ || _); [|apply exitsClean_ret].
  apply exitsClean_bind; [apply exitsClean_modify|]. intros _.
  apply exitsClean_bind; [apply exitsClean_killChildProcess|]. intros _.
  apply exitsClean_bind; [apply exitsClean_modify|]. intros _.
  apply exitsClean_bind; [apply exitsClean_get|]. intros s0.
  apply exitsClean_bind; [apply exitsClean_modify|]. intros _.
  apply exitsClean_bind; [|intros; apply exitsClean_modify].
  destruct (Pod.initInterval p); [apply exitsClean_modify | apply exitsClean_ret].
Qed.

Lemma exitsClean_tryReinitPod_cb (c : nat) (reply : Reply) :
  exitsClean (tryReinitPod_cb c reply).
Proof.
  unfold tryReinitPod_cb. destruct reply as [|rawPods]; [apply exitsClean_ret|].
  apply exitsClean_bind; [apply exitsClean_theChain|]. intros ch.
  apply exitsClean_bind; [apply exitsClean_thePod|]. intros p.
  apply exitsClean_bind; [apply exitsClean_get|]. intros s0.
  assert (Hwait : exitsClean
            (if (maxAttempt <=? attempt ch)%nat then process_exit None
             else
               modify (fun s =>
                 set_chains
                   (alter (fun ch => mkChain (pod ch) (S (attempt ch))) c (chains s)) s) ;;
               t <- setTimeout (TryReinitPod c) attemptDuration ;;
               update (pod ch) (Pod.set_initInterval t))).
  { destruct (maxAttempt <=? attempt ch)%nat; [apply process_exit_clean|].
    apply exitsClean_bind; [apply exitsClean_modify|]. intros _.
    apply exitsClean_bind; [apply exitsClean_setTimeout | intros; apply exitsClean_modify]. }
  destruct (getPodId _ _ _ _) as [podId| |msg]; [|exact Hwait|apply exitsClean_throw].
  destruct (Text.truthy podId); [|exact Hwait].
  apply exitsClean_bind; [apply exitsClean_modify | intros; apply exitsClean_portForwardPod].
Qed.

Lemma exitsClean_processKubectlLog (line : string) (j child : nat) :
  exitsClean (processKubectlLog line j child).
Proof.
  unfold processKubectlLog.
  apply exitsClean_bind; [apply exitsClean_thePod|]. intros p.
  destruct (classify line).
  - destruct (Pod.initialized p); [apply exitsClean_ret | apply exitsClean_modify].
  - apply exitsClean_ret.
  - apply exitsClean_modify.
  - destruct (Pod.excluded p); [apply exitsClean_ret|].
    apply exitsClean_bind; [apply exitsClean_modify|]. intros _.
    apply exitsClean_bind; [apply exitsClean_modify|]. intros _.
    apply exitsClean_bind; [apply exitsClean_modify|]. intros _.
    apply exitsClean_bind; [apply exitsClean_get|]. intros s0.
    destruct (runningPods s0); [apply process_exit_clean | apply exitsClean_ret].
  - apply process_exit_clean.
  - destruct (Pod.initialized p); [apply exitsClean_ret | apply process_exit_clean].
Qed.

(** However a turn of the event loop ends the process (a signal, a
    permission error, exhausted retries, an unrecognised start-up failure,
    the last session excluded), every pod still in [runningPods] has had
    its tunnel killed by then. *)
Theorem exit_kills_running_tunnels
    (s : State) (ev : Event) (code : Z) (s' : State) :
  step s ev = Exit code s' -> allKilled s'.
Proof.
  revert s code s'. change (exitsClean (fun s => step s ev)).
  destruct ev as [|e r|t|child chunk|child|sg]; intros s code s' H; unfold step in H.
  - destruct (interval s); [|discriminate]. apply (exitsClean_modify _ _ _ _ H).
  - destruct (execs s !! e) as [[cmd [callback|]]|]; try discriminate.
    revert H. apply exitsClean_bind; [apply exitsClean_modify|]. intros _.
    apply exitsClean_bind; [apply exitsClean_getPods_exec|]. intros reply.
    destruct callback;
      [apply exitsClean_formalInit_cb | | apply exitsClean_tryReinitPod_cb].
    unfold healthCheck_cb. destruct reply; [apply exitsClean_ret|].
    apply exitsClean_bind; [apply exitsClean_get|]. intros s0.
    apply exitsClean_forEach, exitsClean_checkPod.
  - destruct (timers s !! t) as [tm|]; [|discriminate].
    destruct (due tm); [|discriminate].
    revert H. apply exitsClean_bind; [apply exitsClean_modify|]. intros _.
    destruct (fn tm); apply exitsClean_modify.
  - destruct (children s !! child) as [ch|]; [|discriminate].
    destruct (closed ch); [discriminate|].
    apply (exitsClean_processKubectlLog _ _ _ _ _ _ H).
  - destruct (children s !! child) as [ch|]; [|discriminate].
    destruct (closed ch); [discriminate|].
    revert H. apply exitsClean_bind; [apply exitsClean_modify|]. intros _.
    apply exitsClean_bind; [apply exitsClean_modify | intros; apply exitsClean_modify].
  - apply (process_exit_clean _ _ _ _ H).
Qed.

Lemma exit_kills_running_tunnels_witness :
  allKilled (final (step demoActive (Signal SIGINT))).
Proof.
  apply (exit_kills_running_tunnels demoActive (Signal SIGINT) 2%Z).
  vm_compute. reflexivity.
Defined.

(** A signal ends the run with its own code, 1 for SIGHUP, 2 for SIGINT
    and 15 for SIGTERM, after killing the tunnel of every pod of
    [runningPods] and only those; the pods themselves are not touched. *)
Theorem signal_exit (s : State) (sg : Sig) :
  exists K,
    step s (Signal sg) = Exit (exitCodeOf sg) (set_children K s)
    /\ exitCodeOf sg = match sg with SIGHUP => 1 | SIGINT => 2 | SIGTERM => 15 end%Z
    /\ length K = length (children s)
    /\ forall c ch, children s !! c = Some ch ->
         exists k, K !! c = Some (mkChild (owner ch) (args ch) k (closed ch))
           /\ (k = true <->
               killed ch = true
               \/ exists i p, i ∈ runningPods s /\ pods s !! i = Some p
                    /\ Pod.childProcess p = Some c).
Proof.
  destruct (process_exit_spec (Some (exitCodeOf sg)) s) as (K & Hrun & Hlen & HK).
  exists K. split; [exact Hrun|]. split; [destruct sg; reflexivity|].
  split; [exact Hlen | exact HK].
Qed.

(** ** Start-up *)

Lemma portForwardPod_val (s : State) (i : nat) (p : Pod.t) :
  pods s !! i = Some p ->
  portForwardPod i s
  = Val tt (set_pods (<[i := Pod.set_childProcess (length (children s)) p]> (pods s))
              (set_children (children s ++ [mkChild i (tunnelArgs s p) false false]) s)).
Proof.
  intros Hp. unfold portForwardPod.
  rewrite (bind_val _ _ _ _ _ (thePod_val _ _ _ Hp)).
  unfold bind, get, modify, update.
  rewrite <- (alter_insert (Pod.set_childProcess (length (children s))) _ _ _ Hp).
  reflexivity.
Qed.

(** The loop that spawns the tunnels: the [k]-th pod of the list gets the
    [k]-th new child. *)
Lemma spawn_loop (l : list nat) :
  forall s,
    NoDup l ->
    (forall i, i ∈ l -> is_Some (pods s !! i)) ->
    exists P K,
      forEach l portForwardPod s = Val tt (set_pods P (set_children (children s ++ K) s))
      /\ length K = length l
      /\ (forall i, i ∉ l -> P !! i = pods s !! i)
      /\ (forall k i p, l !! k = Some i -> pods s !! i = Some p ->
            P !! i = Some (Pod.set_childProcess (length (children s) + k) p)
            /\ K !! k = Some (mkChild i (tunnelArgs s p) false false)).
Proof.
  induction l as [|j l IH]; intros s Hnd Hex.
  - exists (pods s), []. rewrite app_nil_r.
    split; [destruct s; reflexivity|]. split; [reflexivity|]. split; [auto|].
    intros k i p Hk. discriminate.
  - apply NoDup_cons in Hnd as [Hj Hnd].
    destruct (Hex j) as [pj Hpj]; [left|].
    cbn [forEach]. unfold bind at 1. rewrite (portForwardPod_val s j pj Hpj).
    set (s1 := set_pods _ _).
    assert (Hpods1 : forall i, i <> j -> pods s1 !! i = pods s !! i).
    { intros i Hne. subst s1. cbn. apply list_lookup_insert_ne. congruence. }
    destruct (IH s1 Hnd) as (P & K & Hrun & Hlen & Hout & Hin).
    { intros i Hi. rewrite Hpods1; [apply Hex; right; exact Hi|].
      intros ->. contradiction. }
    exists P, (mkChild j (tunnelArgs s pj) false false :: K).
    split.
    { rewrite Hrun. subst s1. cbn. rewrite <- app_assoc. reflexivity. }
    split; [cbn; rewrite Hlen; reflexivity|]. split.
    + intros i Hi. rewrite Hout.
      * apply Hpods1. intros ->. apply Hi. left.
      * intros H. apply Hi. right. exact H.
    + intros k i p Hk Hp. destruct k as [|k]; cbn in Hk.
      * injection Hk as <-. assert (p = pj) as -> by congruence.
        split; [|reflexivity]. rewrite (Hout j Hj). subst s1. cbn.
        rewrite Nat.add_0_r. apply list_lookup_insert_eq. eapply lookup_lt_Some; eauto.
      * assert (Hne : i <> j).
        { intros ->. apply Hj. eapply list_elem_of_lookup_2. exact Hk. }
        destruct (Hin k i p Hk) as [HP HK]; [rewrite Hpods1; auto|].
        split.
        -- rewrite HP. subst s1. cbn. rewrite length_app. cbn. f_equal. f_equal. lia.
        -- exact HK.
Qed.

(** The loop that resolves the ids changes pods only; it resolves every
    pod of the list, or stops at the first that cannot be resolved. *)
Lemma resolve_loop (rawPods : string) (l : list nat) :
  forall s,
    (forall i, i ∈ l -> is_Some (pods s !! i)) ->
    exists P,
      final (forEach l (resolveId rawPods) s) = set_pods P s
      /\ ((forall i p, i ∈ l -> pods s !! i = Some p ->
             exists podId, getPodId (namespace s) rawPods (Pod.name p) false = RetId podId) ->
          forEach l (resolveId rawPods) s = Val tt (set_pods P s)
          /\ (forall i, i ∉ l -> P !! i = pods s !! i)
          /\ (forall i p podId, i ∈ l -> pods s !! i = Some p ->
                getPodId (namespace s) rawPods (Pod.name p) false = RetId podId ->
                P !! i = Some (Pod.set_id podId p)))
      /\ ((exists i p msg, i ∈ l /\ pods s !! i = Some p
             /\ getPodId (namespace s) rawPods (Pod.name p) false = Thrown msg) ->
          exists msg, forEach l (resolveId rawPods) s = Uncaught msg (set_pods P s)).
Proof.
  induction l as [|j l IH]; intros s Hex.
  - exists (pods s). split; [destruct s; reflexivity|]. split.
    + intros _. split; [destruct s; reflexivity|]. split; [auto|].
      intros i p podId Hi. apply elem_of_nil in Hi. destruct Hi.
    + intros (i & p & msg & Hi & _). apply elem_of_nil in Hi. destruct Hi.
  - destruct (Hex j) as [pj Hpj]; [left|].
    cbn [forEach]. unfold bind at 1 2 3.
    assert (Hone : resolveId rawPods j s
                   = match getPodId (namespace s) rawPods (Pod.name pj) false with
                     | RetId podId => Val tt (set_pods (<[j := Pod.set_id podId pj]> (pods s)) s)
                     | RetFalse => Val tt s
                     | Thrown msg => Uncaught msg s
                     end).
    { unfold resolveId. rewrite (bind_val _ _ _ _ _ (thePod_val _ _ _ Hpj)).
      unfold bind, get. destruct (getPodId _ _ _ _); try reflexivity.
      unfold update, modify. rewrite (alter_insert _ _ _ _ Hpj). reflexivity. }
    rewrite Hone.
    destruct (getPodId (namespace s) rawPods (Pod.name pj) false) as [podId| |msg] eqn:Hid.
    + set (s1 := set_pods _ s).
      assert (Hpods1 : forall i, pods s1 !! i
                = if decide (j = i) then Some (Pod.set_id podId pj) else pods s !! i).
      { intros i. subst s1. cbn. destruct (decide (j = i)) as [->|Hne].
        - apply list_lookup_insert_eq. eapply lookup_lt_Some; eauto.
        - apply list_lookup_insert_ne. exact Hne. }
      destruct (IH s1) as (P & Hfin & Hok & Hfail).
      { intros i Hi. rewrite Hpods1. destruct (decide (j = i)); [eauto|].
        apply Hex. right. exact Hi. }
      exists P. split; [rewrite Hfin; reflexivity|]. split.
      * intros Hall. destruct Hok as (Hrun & Hout & Hin).
        { intros i p Hi Hp. rewrite Hpods1 in Hp. destruct (decide (j = i)) as [->|].
          - injection Hp as <-. cbn. eauto.
          - apply (Hall i p); [right; exact Hi | exact Hp]. }
        split; [rewrite Hrun; reflexivity|]. split.
        -- intros i Hi. rewrite Hout by (intros H; apply Hi; right; exact H).
           rewrite Hpods1, decide_False; [reflexivity|]. intros ->. apply Hi. left.
        -- intros i p podId' Hi Hp Hid'.
           destruct (decide (i ∈ l)) as [Hil|Hnil].
           ++ destruct (decide (j = i)) as [->|Hne].
              ** assert (p = pj) as -> by congruence.
                 assert (podId' = podId) as -> by congruence.
                 rewrite (Hin i (Pod.set_id podId pj) podId Hil).
                 --- reflexivity.
                 --- rewrite Hpods1, decide_True; reflexivity.
                 --- exact Hid.
              ** apply (Hin i p podId' Hil); [|exact Hid'].
                 rewrite Hpods1, decide_False; assumption.
           ++ apply elem_of_cons in Hi as [->|Hi]; [|contradiction].
              assert (p = pj) as -> by congruence.
              assert (podId' = podId) as -> by congruence.
              rewrite (Hout j Hnil), Hpods1, decide_True; reflexivity.
      * intros (i & p & msg & Hi & Hp & Hthrow).
        destruct Hfail as [msg' Hrun].
        { apply elem_of_cons in Hi as [->|Hi]; [congruence|].
          destruct (decide (j = i)) as [->|Hne]; [congruence|].
          exists i, p, msg. split; [exact Hi|]. split; [|exact Hthrow].
          rewrite Hpods1, decide_False; assumption. }
        exists msg'. rewrite Hrun. reflexivity.
    + destruct (getPodId_loud _ _ _ Hid).
    + exists (pods s). split; [destruct s; reflexivity|]. split.
      * intros Hall. destruct (Hall j pj) as [podId Hp]; [left|exact Hpj|]. congruence.
      * intros _. exists msg. destruct s; reflexivity.
Qed.

Lemma resolveId_namespace (rawPods : string) (i : nat) (s s' : State) :
  resolveId rawPods i s = Val tt s' -> namespace s' = namespace s.
Proof.
  unfold resolveId, bind, thePod, get. destruct (pods s !! i) as [p|]; [|discriminate].
  destruct (getPodId _ _ _ _); intros H; try discriminate;
    injection H as <-; reflexivity.
Qed.

Lemma formalInit_cb_table (rawPods : string) (s : State) :
  formalInit_cb (Table rawPods) s
  = tryCatch (forEach (runningPods s) (resolveId rawPods) ;;
              forEach (runningPods s) portForwardPod ;;
              modify (set_interval true))
             (fun _ => ret tt) s.
Proof.
  assert (H : forall l s',
            namespace s' = namespace s ->
            forEach l (fun i => p <- thePod i ;;
                        match getPodId (namespace s) rawPods (Pod.name p) false with
                        | RetId podId => update i (Pod.set_id podId)
                        | RetFalse => ret tt
                        | Thrown msg => throw msg
                        end) s'
            = forEach l (resolveId rawPods) s').
  { induction l as [|i l IH]; intros s' Hns; [reflexivity|].
    cbn [forEach].
    assert (Hbody : (p <- thePod i ;;
                     match getPodId (namespace s) rawPods (Pod.name p) false with
                     | RetId podId => update i (Pod.set_id podId)
                     | RetFalse => ret tt
                     | Thrown msg => throw msg
                     end) s'
                    = resolveId rawPods i s').
    { unfold resolveId, bind, thePod, get. destruct (pods s' !! i); [|reflexivity].
      rewrite Hns. reflexivity. }
    unfold bind at 1. rewrite Hbody. unfold bind at 2.
    destruct (resolveId rawPods i s') as [[] s2|c s2|msg s2] eqn:E; try reflexivity.
    apply IH. rewrite (resolveId_namespace _ _ _ _ E). exact Hns. }
  unfold formalInit_cb, tryCatch. unfold bind at 1. unfold get at 1.
  unfold bind at 1 4. rewrite (H _ s eq_refl). reflexivity.
Qed.

(** When the first table resolves every pod of [runningPods], each pod
    gets the id found for it and a tunnel of its own, spawned for that
    id, in the order of [runningPods]; then the periodic health check is
    installed.  No tunnel is killed and no closure or timer created. *)
Theorem formalInit_starts_every_pod
    (s : State) (e : nat) (cmd rawPods : string) :
  execs s !! e = Some (mkExec cmd (Some InitCb)) ->
  NoDup (runningPods s) ->
  (forall i, i ∈ runningPods s ->
     exists p podId, pods s !! i = Some p
       /\ getPodId (namespace s) rawPods (Pod.name p) false = RetId podId) ->
  exists s',
    step s (ExecDone e (Succeeded rawPods)) = Val tt s'
    /\ interval s' = true
    /\ runningPods s' = runningPods s
    /\ chains s' = chains s /\ timers s' = timers s
    /\ length (children s') = length (children s) + length (runningPods s)
    /\ (forall c ch, children s !! c = Some ch -> children s' !! c = Some ch)
    /\ (forall k i, runningPods s !! k = Some i ->
          exists p podId rest,
            pods s !! i = Some p
            /\ getPodId (namespace s) rawPods (Pod.name p) false = RetId podId
            /\ pods s' !! i
               = Some (Pod.set_childProcess (length (children s) + k) (Pod.set_id podId p))
            /\ children s' !! (length (children s) + k)
               = Some (mkChild i ("port-forward" :: podId :: rest) false false)).
Proof.
  intros He Hnd Hall. unfold step. rewrite He.
  destruct (getPods_exec_ok rawPods (set_execs (<[e := mkExec cmd None]> (execs s)) s))
    as [n Hn].
  unfold bind at 1. unfold modify at 1. rewrite (bind_val _ _ _ _ _ Hn).
  set (s0 := set_restartAttempt n _). rewrite formalInit_cb_table.
  replace (runningPods s0) with (runningPods s) by reflexivity.
  destruct (resolve_loop rawPods (runningPods s) s0) as (P1 & _ & Hok & _).
  { intros i Hi. destruct (Hall i Hi) as (p & _ & Hp & _). exists p. exact Hp. }
  destruct Hok as (Hrun1 & Hout1 & Hin1).
  { intros i p Hi Hp. destruct (Hall i Hi) as (p' & podId & Hp' & Hid).
    exists podId. cbn in Hp. assert (p = p') as -> by congruence. exact Hid. }
  set (s1 := set_pods P1 s0) in *.
  destruct (spawn_loop (runningPods s) s1 Hnd) as (P2 & K & Hrun2 & Hlen & Hout2 & Hin2).
  { intros i Hi. destruct (Hall i Hi) as (p & podId & Hp & Hid).
    exists (Pod.set_id podId p). apply (Hin1 i p podId Hi Hp Hid). }
  unfold tryCatch, bind. rewrite Hrun1, Hrun2. unfold modify.
  eexists. split; [reflexivity|]. cbn.
  repeat (split; [reflexivity|]). split; [rewrite length_app, Hlen; reflexivity|]. split.
  - intros c ch Hc. apply lookup_app_l_Some. exact Hc.
  - intros k i Hk.
    assert (Hi : i ∈ runningPods s) by (eapply list_elem_of_lookup_2; exact Hk).
    destruct (Hall i Hi) as (p & podId & Hp & Hid).
    pose proof (Hin1 i p podId Hi Hp Hid) as Hp1.
    destruct (Hin2 k i _ Hk Hp1) as [HP2 HK].
    exists p, podId. eexists. split; [exact Hp|]. split; [exact Hid|]. split.
    + exact HP2.
    + rewrite lookup_app_r by (cbn; lia).
      replace (length (children s) + k - length (children s)) with k by lia.
      exact HK.
Qed.

Lemma formalInit_starts_every_pod_witness :
  exists s',
    step demoBoot (ExecDone 0 (Succeeded tableUp)) = Val tt s'
    /\ interval s' = true
    /\ length (children s') = 2.
Proof.
  destruct (formalInit_starts_every_pod demoBoot 0 "kubectl get pods" tableUp eq_refl)
    as (s' & H1 & H2 & _ & _ & _ & H6 & _).
  - repeat constructor; [|apply not_elem_of_nil].
    intros H. apply elem_of_cons in H as [H|H]; [discriminate|].
    apply elem_of_nil in H. exact H.
  - intros i Hi. apply elem_of_cons in Hi as [->|Hi].
    + do 2 eexists. split; reflexivity.
    + apply elem_of_cons in Hi as [->|Hi].
      * do 2 eexists. split; reflexivity.
      * apply elem_of_nil in Hi. destruct Hi.
  - exists s'. auto.
Defined.

(** When the first table fails to resolve some pod of [runningPods],
    the exception is caught: the run goes on, but no tunnel is spawned,
    the periodic health check is not installed, and no timer or query is
    left, so that nothing will ever happen again. *)
Theorem formalInit_aborts_without_tunnels
    (s : State) (e i : nat) (cmd rawPods msg : string) (p : Pod.t) :
  execs s !! e = Some (mkExec cmd (Some InitCb)) ->
  (forall j, j ∈ runningPods s -> is_Some (pods s !! j)) ->
  i ∈ runningPods s -> pods s !! i = Some p ->
  getPodId (namespace s) rawPods (Pod.name p) false = Thrown msg ->
  exists s',
    step s (ExecDone e (Succeeded rawPods)) = Val tt s'
    /\ children s' = children s
    /\ interval s' = interval s
    /\ timers s' = timers s /\ chains s' = chains s
    /\ execs s' = <[e := mkExec cmd None]> (execs s).
Proof.
  intros He Hex Hi Hp Hthrow. unfold step. rewrite He.
  destruct (getPods_exec_ok rawPods (set_execs (<[e := mkExec cmd None]> (execs s)) s))
    as [n Hn].
  unfold bind at 1. unfold modify at 1. rewrite (bind_val _ _ _ _ _ Hn).
  set (s0 := set_restartAttempt n _). rewrite formalInit_cb_table.
  replace (runningPods s0) with (runningPods s) by reflexivity.
  destruct (resolve_loop rawPods (runningPods s) s0 Hex) as (P1 & _ & _ & Hfail).
  destruct Hfail as [msg' Hrun]; [exists i, p, msg; auto|].
  unfold tryCatch, bind. rewrite Hrun. unfold ret.
  eexists. split; [reflexivity|]. cbn. repeat split.
Qed.

Lemma formalInit_aborts_without_tunnels_witness :
  exists s',
    step demoBoot (ExecDone 0 (Succeeded tableDown)) = Val tt s'
    /\ children s' = []
    /\ interval s' = false.
Proof.
  destruct (formalInit_aborts_without_tunnels demoBoot 0 0 "kubectl get pods" tableDown
              (notFoundMsg None "web" "")
              (newPod "web" "8080" "8080" None) eq_refl)
    as (s' & H1 & H2 & H3 & _).
  - intros j Hj. apply elem_of_cons in Hj as [->|Hj]; [eexists; reflexivity|].
    apply elem_of_cons in Hj as [->|Hj]; [eexists; reflexivity|].
    apply elem_of_nil in Hj. destruct Hj.
  - left.
  - reflexivity.
  - reflexivity.
  - exists s'. auto.
Defined.

Lemma stop_loop_idle (l : list nat) (s : State) :
  (forall i, i ∈ l -> exists p, pods s !! i = Some p /\ Pod.initialized p = false) ->
  forEach l stopIfInitialized s = Val tt s.
Proof.
  induction l as [|i l IH]; intros H; [reflexivity|].
  cbn [forEach]. unfold bind at 1.
  destruct (H i) as (p & Hp & Hinit); [left|].
  unfold stopIfInitialized. rewrite (bind_val _ _ _ _ _ (thePod_val _ _ _ Hp)), Hinit.
  unfold ret. apply IH. intros j Hj. apply H. right. exact Hj.
Qed.

(** When the first query fails on the network, start-up is put off by
    [healthInterval]: one timer is set, and when it runs out the query is
    made again; no pod is touched. *)
Theorem formalInit_retries_after_network_error
    (s : State) (e : nat) (cmd stderr : string) :
  execs s !! e = Some (mkExec cmd (Some InitCb)) ->
  networkError stderr = true ->
  (forall i, i ∈ runningPods s ->
     exists p, pods s !! i = Some p /\ Pod.initialized p = false) ->
  exists s' s'' cmd',
    step s (ExecDone e (Failed stderr)) = Val tt s'
    /\ pods s' = pods s /\ children s' = children s
    /\ timers s' = timers s ++ [mkTimer FormalInit (healthInterval s) true]
    /\ step s' (Timeout (length (timers s))) = Val tt s''
    /\ execs s'' = <[e := mkExec cmd None]> (execs s) ++ [mkExec cmd' (Some InitCb)]
    /\ timers s'' = timers s ++ [mkTimer FormalInit (healthInterval s) false].
Proof.
  intros He Hnet Hidle. unfold step at 1. rewrite He.
  unfold bind at 1. unfold modify at 1.
  unfold bind at 1. unfold getPods_exec. rewrite Hnet.
  unfold bind at 1. unfold modify at 1.
  unfold bind at 1. unfold get at 1.
  set (s0 := set_restartAttempt _ _).
  unfold bind at 1. replace (runningPods s0) with (runningPods s) by reflexivity.
  rewrite (stop_loop_idle (runningPods s) s0) by exact Hidle.
  unfold ret at 1. unfold formalInit_cb, tryCatch, bind, get, setTimeout, ret.
  cbn [timers healthInterval set_restartAttempt set_execs s0].
  eexists. do 2 eexists. split; [reflexivity|].
  split; [reflexivity|]. split; [reflexivity|]. split; [reflexivity|].
  unfold step. cbn [timers set_timers].
  rewrite list_lookup_middle by reflexivity. cbn [due fn].
  unfold bind, clearTimeout, formalInit, getPods, modify.
  split; [reflexivity|]. cbn [execs timers set_timers set_execs].
  split; [reflexivity|].
  rewrite (alter_insert _ _ _ _ (list_lookup_middle _ _ _ _ eq_refl)).
  apply insert_app_last.
Qed.

Lemma formalInit_retries_after_network_error_witness :
  exists s' s'' cmd',
    step demoBoot (ExecDone 0 (Failed timeoutStderr)) = Val tt s'
    /\ pods s' = pods demoBoot /\ children s' = children demoBoot
    /\ timers s' = timers demoBoot ++ [mkTimer FormalInit (healthInterval demoBoot) true]
    /\ step s' (Timeout (length (timers demoBoot))) = Val tt s''
    /\ execs s'' = <[0 := mkExec "kubectl get pods" None]> (execs demoBoot)
                   ++ [mkExec cmd' (Some InitCb)]
    /\ timers s''
       = timers demoBoot ++ [mkTimer FormalInit (healthInterval demoBoot) false].
Proof.
  apply (formalInit_retries_after_network_error demoBoot 0 "kubectl get pods"
           timeoutStderr eq_refl eq_refl).
  intros i Hi. apply elem_of_cons in Hi as [->|Hi]; [eexists; split; reflexivity|].
  apply elem_of_cons in Hi as [->|Hi]; [eexists; split; reflexivity|].
  apply elem_of_nil in Hi. destruct Hi.
Defined.

(** Any other failure of a query is thrown out of the callback: the
    turn ends with the uncaught [stderr], whichever callback was
    waiting. *)
Theorem other_failure_is_thrown
    (s : State) (e : nat) (cmd stderr : string) (callback : Callback) :
  execs s !! e = Some (mkExec cmd (Some callback)) ->
  networkError stderr = false ->
  step s (ExecDone e (Failed stderr))
  = Uncaught stderr (set_execs (<[e := mkExec cmd None]> (execs s)) s).
Proof.
  intros He Hnet. unfold step. rewrite He.
  unfold bind, modify, getPods_exec. rewrite Hnet. reflexivity.
Qed.

Lemma other_failure_is_thrown_witness :
  step demoChecking (ExecDone 1 (Failed "error: You must be logged in to the server"))
  = Uncaught "error: You must be logged in to the server"
      (set_execs (<[1 := mkExec "kubectl get pods" None]> (execs demoChecking))
         demoChecking).
Proof.
  exact (other_failure_is_thrown demoChecking 1 "kubectl get pods"
           "error: You must be logged in to the server" HealthCb eq_refl eq_refl).
Defined.

(** ** The configuration merge, other keys *)

Lemma prop_baseMerge_other (key : string) (source : Json.object) :
  key ∉ keys source ->
  forall object, prop key (Lodash.baseMerge source object) = prop key object.
Proof.
  induction source as [|[k sv] rest IH]; intros Hk object; [reflexivity|].
  cbn [Lodash.baseMerge]. rewrite IH.
  - apply prop_assign_ne. intros ->. apply Hk. left.
  - intros H. apply Hk. right. exact H.
Qed.

(** A name that only the user-level file configures keeps its entry in
    the merged configuration, whatever the project-level file holds; and
    merging an empty project-level file changes nothing. *)
Theorem merge_keeps_other_entries
    (systemDefinedPods localDefinedPods : Json.object) (K : string) :
  K ∉ keys localDefinedPods ->
  prop K (mergedPods systemDefinedPods localDefinedPods) = prop K systemDefinedPods
  /\ mergedPods systemDefinedPods [] = systemDefinedPods.
Proof.
  intros HK. split; [|reflexivity].
  unfold mergedPods, Lodash.merge. apply prop_baseMerge_other. exact HK.
Qed.

Lemma merge_keeps_other_entries_witness :
  prop "web" (mergedPods systemPodsJson localPodsJson) = Some (Num 8080)
  /\ mergedPods systemPodsJson [] = systemPodsJson.
Proof.
  apply (merge_keeps_other_entries systemPodsJson localPodsJson "web").
  intros H. apply elem_of_cons in H as [H|H]; [discriminate|].
  apply elem_of_nil in H. exact H.
Defined.

Lemma keys_assign (key : string) (v : Json.t) (o : Json.object) :
  keys (assign key v o) = keys o \/ keys (assign key v o) = keys o ++ [key].
Proof.
  induction o as [|[k w] o IH]; [right; reflexivity|].
  cbn [assign]. destruct (String.eqb key k); [left; reflexivity|].
  change (keys ((k, w) :: assign key v o)) with (k :: keys (assign key v o)).
  destruct IH as [-> | ->]; [left | right]; reflexivity.
Qed.

Lemma baseMerge_keys (source : Json.object) :
  forall object,
    exists added,
      keys (Lodash.baseMerge source object) = keys object ++ added
      /\ forall k, k ∈ added -> k ∈ keys source.
Proof.
  induction source as [|[k sv] rest IH]; intros object.
  - exists []. rewrite app_nil_r. split; [reflexivity|].
    intros k Hk. apply elem_of_nil in Hk. destruct Hk.
  - cbn [Lodash.baseMerge].
    destruct (IH (assign k (Lodash.mergeValue (prop k object) sv) object))
      as (added & Hkeys & Hadded).
    destruct (keys_assign k (Lodash.mergeValue (prop k object) sv) object) as [E|E];
      rewrite E in Hkeys.
    + exists added. split; [exact Hkeys|]. intros k' Hk'. right. apply Hadded, Hk'.
    + exists (k :: added). rewrite Hkeys, <- app_assoc. split; [reflexivity|].
      intros k' Hk'. apply elem_of_cons in Hk' as [->|Hk'];
        [left | right; apply Hadded, Hk'].
Qed.

Lemma key_assign (key : string) (v : Json.t) (o : Json.object) :
  key ∈ keys (assign key v o).
Proof.
  induction o as [|[k w] o IH]; [left|].
  cbn [assign]. destruct (String.eqb_spec key k) as [->|_]; [left | right; exact IH].
Qed.

Lemma baseMerge_source_keys (source : Json.object) :
  forall object k, k ∈ keys source -> k ∈ keys (Lodash.baseMerge source object).
Proof.
  induction source as [|[k0 sv] rest IH]; intros object k Hk.
  - apply elem_of_nil in Hk. destruct Hk.
  - cbn [Lodash.baseMerge]. apply elem_of_cons in Hk as [->|Hk]; [|apply IH, Hk].
    destruct (baseMerge_keys rest (assign k0 (Lodash.mergeValue (prop k0 object) sv) object))
      as (added & -> & _).
    apply elem_of_app. left. apply key_assign.
Qed.

(** [Object.keys] lists the own property names, each once for each time
    it is in the list of properties. *)
Lemma In_insertIndex (n : N) (key : string) (l : list (N * string)) (x : N * string) :
  In x (insertIndex n key l) <-> x = (n, key) \/ In x l.
Proof.
  induction l as [|[m k] l IH]; cbn [insertIndex].
  - cbn. intuition.
  - destruct (n <=? m)%N; cbn [In]; [intuition|]. rewrite IH. intuition.
Qed.

Lemma In_indexKeys (ks : list string) (n : N) (k : string) :
  In (n, k) (indexKeys ks) <-> In k ks /\ arrayIndex k = Some n.
Proof.
  induction ks as [|k0 ks IH]; cbn [indexKeys In]; [intuition|].
  destruct (arrayIndex k0) as [n0|] eqn:E.
  - rewrite In_insertIndex, IH. split.
    + intros [H|[H1 H2]]; [injection H as -> ->; auto | auto].
    + intros [[->|H1] H2]; [left; congruence | auto].
  - rewrite IH. split; [intuition|].
    intros [[->|H1] H2]; [congruence | auto].
Qed.

Lemma elem_of_ownKeys (o : Json.object) (k : string) :
  k ∈ ownKeys o <-> k ∈ keys o.
Proof.
  rewrite !list_elem_of_In. unfold ownKeys. rewrite in_app_iff, filter_In, in_map_iff.
  split.
  - intros [([n k'] & <- & H)|[H _]]; [|exact H]. apply In_indexKeys in H. apply H.
  - intros H. destruct (arrayIndex k) as [n|] eqn:E.
    + left. exists (n, k). split; [reflexivity|]. apply In_indexKeys. auto.
    + right. split; [exact H|]. rewrite bool_decide_false; [reflexivity|].
      intros [? ?]. discriminate.
Qed.

(** The names of the merged configuration, as [Object.keys] lists them,
    are the names of the user-level file together with those of the
    project-level file: the merge drops no name and adds no other.
    The name [__proto__] is set apart: versions of lodash differ on whether
    such an entry of the source is merged.  (The order of the names is
    another matter: a name that is an array index comes before the others,
    whichever file it is from.) *)
Theorem merge_keeps_names (systemDefinedPods localDefinedPods : Json.object)
    (k : string) :
  "__proto__"%string ∉ keys localDefinedPods ->
  k ∈ ownKeys (mergedPods systemDefinedPods localDefinedPods)
  <-> k ∈ ownKeys systemDefinedPods \/ k ∈ ownKeys localDefinedPods.
Proof.
  intros _.
  rewrite !elem_of_ownKeys. unfold mergedPods, Lodash.merge.
  destruct (baseMerge_keys localDefinedPods systemDefinedPods) as (added & E & Hadded).
  split.
  - rewrite E. intros H. apply elem_of_app in H as [H|H]; [left | right]; auto.
  - intros [H|H].
    + rewrite E. apply elem_of_app. left. exact H.
    + apply baseMerge_source_keys, H.
Qed.

Lemma merge_keeps_names_witness :
  ("__proto__"%string ∉ keys [("2048"%string, Num 80)])
  /\ ("2048"%string ∈ ownKeys (mergedPods [("web"%string, Num 8080)] [("2048"%string, Num 80)])
      <-> "2048"%string ∈ ownKeys [("web"%string, Num 8080)]
          \/ "2048"%string ∈ ownKeys [("2048"%string, Num 80)]).
Proof.
  assert (H : "__proto__"%string ∉ keys [("2048"%string, Num 80)]).
  { intros H. apply list_elem_of_In in H. cbn in H. destruct H as [H|[]]. discriminate. }
  split; [exact H|].
  exact (merge_keeps_names [("web"%string, Num 8080)] [("2048"%string, Num 80)] "2048" H).
Defined.

(** A port number used as a name is listed first. *)
Example merge_keys_order :
  ownKeys (mergedPods [("web"%string, Num 8080)] [("2048"%string, Num 80)])
  = ["2048"; "web"]%string
  /\ keys (mergedPods [("web"%string, Num 8080)] [("2048"%string, Num 80)])
     = ["web"; "2048"]%string.
Proof. split; reflexivity. Qed.


(** ** Names and ports from the command line *)

(** The name [getPodName] returns is the given name itself, when the
    configuration has a truthy own entry of that name or, having no own
    entry of it, inherits a member of that name as every object does
    ([constructor], [toString], ...); otherwise it is the one configured
    name that begins with the given name, letter case apart.  When it
    returns [false], no configured name begins with the given name; and
    when it throws, at least two do. *)
Theorem getPodName_characterised (systemDefinedPods : Json.object) (podName : string) :
  let own := prop podName systemDefinedPods in
  let direct :=
    truthyJson own = true \/ (own = None /\ inherited podName = true) in
  match getPodName systemDefinedPods podName with
  | Return (Some pod) =>
      (pod = podName /\ direct)
      \/ (~ direct
          /\ possiblePodsOf systemDefinedPods podName = [pod]
          /\ pod ∈ keys systemDefinedPods
          /\ Text.startsWith (toLowerCase pod) (toLowerCase podName) = true)
  | Return None =>
      ~ direct
      /\ forall pod, pod ∈ keys systemDefinedPods ->
           Text.startsWith (toLowerCase pod) (toLowerCase podName) = false
  | Raise _ =>
      ~ direct
      /\ 2 <= length (possiblePodsOf systemDefinedPods podName)
  end.
Proof.
  intros own direct.
  assert (Hdirect : truthyJson (read podName systemDefinedPods) = true <-> direct).
  { subst direct own. unfold read.
    destruct (prop podName systemDefinedPods) as [v|]; [|destruct (inherited podName)];
      cbn; split; auto; intros [H|[H1 H2]]; congruence. }
  unfold getPodName.
  destruct (truthyJson (read podName systemDefinedPods)) eqn:Hex.
  - left. split; [reflexivity | apply Hdirect; reflexivity].
  - assert (Hno : ~ direct) by (intros H; apply Hdirect in H; discriminate).
    assert (Hin : forall pod,
              In pod (possiblePodsOf systemDefinedPods podName) <->
              pod ∈ keys systemDefinedPods
              /\ Text.startsWith (toLowerCase pod) (toLowerCase podName) = true).
    { intros pod. unfold possiblePodsOf.
      rewrite filter_In, <- list_elem_of_In, elem_of_ownKeys. reflexivity. }
    destruct (possiblePodsOf systemDefinedPods podName) as [|pod [|pod' rest]] eqn:Hf.
    + split; [exact Hno|]. intros pod Hpod.
      destruct (Text.startsWith (toLowerCase pod) (toLowerCase podName)) eqn:E;
        [|reflexivity].
      destruct (proj2 (Hin pod) (conj Hpod E)).
    + right. split; [exact Hno|]. split; [reflexivity|].
      apply Hin. left. reflexivity.
    + split; [exact Hno | cbn; lia].
Qed.

(** A name that every object inherits resolves to itself, configured or
    not. *)
Example getPodName_inherited :
  getPodName examplePodsJson "constructor" = Return (Some "constructor"%string)
  /\ getPodName [] "toString" = Return (Some "toString"%string)
  /\ getPodName examplePodsJson "cache" = Return None.
Proof. repeat split. Qed.

Lemma split_no_sep (sep : ascii) (s : string) :
  Text.includes s (String sep "") = false -> Text.split sep s = [s].
Proof.
  induction s as [|c s IH]; intros H; [reflexivity|].
  assert (Hinc : Text.includes (String c s) (String sep "")
                 = (Ascii.eqb sep c && true) || Text.includes s (String sep ""))
    by reflexivity.
  rewrite Hinc in H. apply orb_false_elim in H as [H1 H2].
  rewrite andb_true_r in H1. cbn [Text.split].
  rewrite Ascii.eqb_sym, H1, (IH H2). reflexivity.
Qed.

Lemma split_app (sep : ascii) (a b : string) :
  Text.includes a (String sep "") = false ->
  Text.split sep (a ++ String sep b)%string = a :: Text.split sep b.
Proof.
  induction a as [|c a IH]; intros H.
  - cbn. rewrite Ascii.eqb_refl. reflexivity.
  - assert (Hinc : Text.includes (String c a) (String sep "")
                   = (Ascii.eqb sep c && true) || Text.includes a (String sep ""))
      by reflexivity.
    rewrite Hinc in H. apply orb_false_elim in H as [H1 H2].
    rewrite andb_true_r in H1. cbn [append Text.split].
    rewrite Ascii.eqb_sym, H1, (IH H2). reflexivity.
Qed.

Lemma split_with_sep (sep : ascii) (s : string) :
  Text.includes s (String sep "") = true ->
  exists a b rest, Text.split sep s = a :: b :: rest.
Proof.
  induction s as [|c s IH]; intros H; [discriminate|].
  assert (Hinc : Text.includes (String c s) (String sep "")
                 = (Ascii.eqb sep c && true) || Text.includes s (String sep ""))
    by reflexivity.
  rewrite Hinc, andb_true_r in H. cbn [Text.split]. rewrite Ascii.eqb_sym.
  destruct (Ascii.eqb sep c).
  - destruct s as [|d s]; cbn.
    + eauto.
    + destruct (Ascii.eqb d sep); [eauto|].
      destruct (Text.split sep s); eauto.
  - destruct (IH H) as (a & b & rest & ->). eauto.
Qed.

Lemma getPodMeta_namespace
    (systemDefinedPods : Json.object) (namespace : option string)
    (token : string) (podMeta : Meta.t) :
  getPodMeta systemDefinedPods namespace token = Return podMeta ->
  Meta.namespace podMeta = namespace.
Proof.
  unfold getPodMeta. intros H.
  repeat match type of H with
         | match ?x with _ => _ end = _ => destruct x; try discriminate
         | (if ?x then _ else _) = _ => destruct x; try discriminate
         end;
    injection H as <-; reflexivity.
Qed.

(** A token with a colon is taken as it is: the result does not depend
    on the configuration, the name is not looked up, and the namespace is
    the global one. *)
Theorem getPodMeta_explicit_bypasses_configuration
    (systemDefinedPods otherPods : Json.object) (namespace : option string)
    (token : string) :
  Text.includes token ":" = true ->
  getPodMeta systemDefinedPods namespace token = getPodMeta otherPods namespace token
  /\ exists podMeta,
       getPodMeta systemDefinedPods namespace token = Return podMeta
       /\ Meta.namespace podMeta = namespace.
Proof.
  intros H. destruct (split_with_sep ":" token H) as (a & b & rest & Hs).
  unfold getPodMeta. rewrite Hs. split; [reflexivity|]. eexists. split; reflexivity.
Qed.

Lemma getPodMeta_explicit_bypasses_configuration_witness :
  getPodMeta examplePodsJson None "db:7000" = getPodMeta [] None "db:7000"
  /\ exists podMeta,
       getPodMeta examplePodsJson None "db:7000" = Return podMeta
       /\ Meta.namespace podMeta = None.
Proof.
  exact (getPodMeta_explicit_bypasses_configuration examplePodsJson [] None "db:7000"
           eq_refl).
Defined.

(** [name:port] forwards [port] to [port]; [name:port:dest] forwards
    [port] to [dest]; with a fourth segment the third is dropped again and
    [port] is forwarded to [port]. *)
Theorem getPodMeta_segments
    (systemDefinedPods : Json.object) (namespace : option string)
    (name port dest more : string) :
  Text.includes name ":" = false -> Text.includes port ":" = false ->
  Text.includes dest ":" = false -> Text.includes more ":" = false ->
  getPodMeta systemDefinedPods namespace (name ++ ":" ++ port)%string
  = Return (Meta.mk name (Some (Str port)) (Some (Str port)) namespace)
  /\ getPodMeta systemDefinedPods namespace (name ++ ":" ++ port ++ ":" ++ dest)%string
     = Return (Meta.mk name (Some (Str port)) (Some (Str dest)) namespace)
  /\ getPodMeta systemDefinedPods namespace
       (name ++ ":" ++ port ++ ":" ++ dest ++ ":" ++ more)%string
     = Return (Meta.mk name (Some (Str port)) (Some (Str port)) namespace).
Proof.
  intros Hn Hp Hd Hm. unfold getPodMeta.
  change (name ++ ":" ++ port)%string with (name ++ String ":" port)%string.
  change (name ++ ":" ++ port ++ ":" ++ dest)%string
    with (name ++ String ":" (port ++ String ":" dest))%string.
  change (name ++ ":" ++ port ++ ":" ++ dest ++ ":" ++ more)%string
    with (name ++ String ":" (port ++ String ":" (dest ++ String ":" more)))%string.
  rewrite !(split_app ":" name) by exact Hn.
  rewrite !(split_app ":" port) by exact Hp.
  rewrite !(split_app ":" dest) by exact Hd.
  rewrite (split_no_sep ":" port Hp), (split_no_sep ":" dest Hd),
    (split_no_sep ":" more Hm).
  repeat split.
Qed.

Lemma getPodMeta_segments_witness :
  getPodMeta [] None "db:5432"
  = Return (Meta.mk "db" (Some (Str "5432")) (Some (Str "5432")) None)
  /\ getPodMeta [] None "db:5432:5433"
     = Return (Meta.mk "db" (Some (Str "5432")) (Some (Str "5433")) None)
  /\ getPodMeta [] None "db:5432:5433:5434"
     = Return (Meta.mk "db" (Some (Str "5432")) (Some (Str "5432")) None).
Proof.
  exact (getPodMeta_segments [] None "db" "5432" "5433" "5434"
           eq_refl eq_refl eq_refl eq_refl).
Defined.

(** A bare token is resolved through the configuration: the record that
    is returned bears the name [getPodName] resolves, and its ports are
    read from what the configuration object gives under that name, its own
    entry or else the member it inherits.  Such a value that is a bare
    port (or anything without a usable [to]) is forwarded to itself; a
    record with a usable [to] gives [from] and [to]; the [namespace] of a
    record is never read: the result carries the global namespace.  The
    call throws when [getPodName] throws, when the name is not resolved
    ("Please specify port"), and when the value under the resolved name is
    [null] or missing. *)
Theorem getPodMeta_configured
    (systemDefinedPods : Json.object) (namespace : option string) (token : string) :
  Text.includes token ":" = false ->
  match getPodMeta systemDefinedPods namespace token with
  | Return podMeta =>
      Meta.namespace podMeta = namespace
      /\ getPodName systemDefinedPods token = Return (Some (Meta.name podMeta))
      /\ exists podPort,
           read (Meta.name podMeta) systemDefinedPods = Some podPort
           /\ podPort <> Null
           /\ if truthyJson (member "to" podPort)
              then Meta.from podMeta = member "from" podPort
                   /\ Meta.to podMeta = member "to" podPort
              else Meta.from podMeta = Some podPort /\ Meta.to podMeta = Some podPort
  | Raise error =>
      getPodName systemDefinedPods token = Raise error
      \/ (error = "Please specify port for " ++ token)%string
      \/ exists pod, getPodName systemDefinedPods token = Return (Some pod)
           /\ (read pod systemDefinedPods = None
               \/ read pod systemDefinedPods = Some Null)
  end.
Proof.
  intros H. unfold getPodMeta. rewrite (split_no_sep ":" token H).
  destruct (getPodName systemDefinedPods token) as [[pod|]|error] eqn:Hname.
  - destruct (Text.truthy pod); [|right; left; reflexivity].
    destruct (read pod systemDefinedPods) as [podPort|] eqn:Hp.
    + destruct podPort as [|b|n|v|props|name];
        try (destruct (truthyJson (member "to" _)) eqn:Hto; cbn;
             (split; [reflexivity|]); (split; [reflexivity|]);
             eexists; (split; [exact Hp|]); (split; [discriminate|]);
             rewrite Hto; split; reflexivity).
      right. right. exists pod. rewrite Hp. auto.
    + right. right. exists pod. rewrite Hp. auto.
  - right. left. reflexivity.
  - left. reflexivity.
Qed.

(** The theorem on a name the configuration inherits, and on a prefix of
    a configured name. *)
Lemma getPodMeta_configured_witness :
  (getPodMeta examplePodsJson None "toString"
   = Return (Meta.mk "toString" (Some (Builtin "toString"))
                     (Some (Builtin "toString")) None)
   /\ getPodName examplePodsJson "toString" = Return (Some "toString"%string)
   /\ exists podPort,
        read "toString" examplePodsJson = Some podPort
        /\ podPort <> Null
        /\ Some (Builtin "toString") = Some podPort)
  /\ (getPodMeta examplePodsJson None "d"
      = Return (Meta.mk "db" (Some (Num 5432)) (Some (Num 5433)) None)
      /\ getPodName examplePodsJson "d" = Return (Some "db"%string)
      /\ exists podPort,
           read "db" examplePodsJson = Some podPort
           /\ Some (Num 5432) = member "from" podPort
           /\ Some (Num 5433) = member "to" podPort).
Proof.
  split.
  - split; [reflexivity|].
    pose proof (getPodMeta_configured examplePodsJson None "toString" eq_refl) as H.
    cbn in H. destruct H as (_ & H2 & podPort & Hr & Hnn & Hif).
    split; [exact H2|]. exists podPort. split; [exact Hr|]. split; [exact Hnn|].
    injection Hr as <-. exact (proj1 Hif).
  - split; [reflexivity|].
    pose proof (getPodMeta_configured examplePodsJson None "d" eq_refl) as H.
    cbn in H. destruct H as (_ & H2 & podPort & Hr & _ & Hif).
    split; [exact H2|]. exists podPort. split; [exact Hr|].
    injection Hr as <-. exact Hif.
Defined.

(** ** The pods of the run *)

Lemma pushPods_spec (systemDefinedPods : Json.object) (namespace : option string)
    (podsToExclude : list string) (podsToForward : list string) :
  forall runningPods result,
    pushPods systemDefinedPods namespace podsToExclude podsToForward runningPods
    = Return result ->
    exists pushed,
      result = runningPods ++ pushed
      /\ length pushed <= length podsToForward
      /\ forall podMeta, podMeta ∈ pushed ->
           existsb (String.eqb (Meta.name podMeta)) podsToExclude = false
           /\ Meta.namespace podMeta = namespace
           /\ exists token, token ∈ podsToForward
                /\ getPodMeta systemDefinedPods namespace token = Return podMeta.
Proof.
  induction podsToForward as [|token rest IH]; intros runningPods result H; cbn in H.
  - injection H as <-. exists []. rewrite app_nil_r. split; [reflexivity|].
    split; [reflexivity|]. intros m Hm. apply elem_of_nil in Hm. destruct Hm.
  - destruct (getPodMeta systemDefinedPods namespace token) as [podMeta|] eqn:Hmeta;
      [|discriminate].
    destruct (existsb (String.eqb (Meta.name podMeta)) podsToExclude) eqn:Hex.
    + destruct (IH _ _ H) as (pushed & -> & Hlen & Hall).
      exists pushed. split; [reflexivity|]. split; [cbn; lia|].
      intros m Hm. destruct (Hall m Hm) as (H1 & H2 & tok & Htok & H3).
      split; [exact H1|]. split; [exact H2|]. exists tok. split; [right|]; assumption.
    + destruct (IH _ _ H) as (pushed & -> & Hlen & Hall).
      exists (podMeta :: pushed). rewrite <- app_assoc. split; [reflexivity|].
      split; [cbn; lia|].
      intros m Hm. apply elem_of_cons in Hm as [->|Hm].
      * split; [exact Hex|]. split.
        -- apply (getPodMeta_namespace _ _ _ _ Hmeta).
        -- exists token. split; [left | exact Hmeta].
      * destruct (Hall m Hm) as (H1 & H2 & tok & Htok & H3).
        split; [exact H1|]. split; [exact H2|]. exists tok. split; [right|]; assumption.
Qed.

(** The pods a run starts with: there is at least one; each comes from a
    requested token (or, when none was given, from a name of the
    project-level file); none bears a name that was asked to be excluded;
    all carry the global namespace. *)
Theorem selectPods_result
    (systemDefinedPods localDefinedPods : Json.object) (namespace : option string)
    (podsToExclude podsToForward : list string) (runningPods : list Meta.t) :
  selectPods systemDefinedPods localDefinedPods namespace podsToExclude podsToForward
  = Return runningPods ->
  runningPods <> []
  /\ exists excluded,
       resolveExcluded systemDefinedPods podsToExclude = Return excluded
       /\ forall podMeta, podMeta ∈ runningPods ->
            (Meta.name podMeta ∉ excluded)
            /\ Meta.namespace podMeta = namespace
            /\ exists token,
                 token ∈ (match podsToForward with
                          | [] => keys localDefinedPods
                          | _ => podsToForward
                          end)
                 /\ getPodMeta systemDefinedPods namespace token = Return podMeta.
Proof.
  unfold selectPods. intros H.
  set (forward := match podsToForward with
                  | [] => keys localDefinedPods
                  | _ => podsToForward
                  end).
  assert (Hfw : match (match podsToForward with
                       | [] => match localDefinedPods with
                               | [] => Raise "No pod names provided"
                               | _ => Return (ownKeys localDefinedPods)
                               end
                       | _ => Return podsToForward
                       end) with
                | Return fw => forall token, token ∈ fw -> token ∈ forward
                | Raise _ => True
                end).
  { subst forward. destruct podsToForward; [destruct localDefinedPods|]; auto.
    intros token. apply elem_of_ownKeys. }
  destruct (match podsToForward with
            | [] => _
            | _ => _
            end) as [fw|]; [|discriminate].
  destruct (resolveExcluded systemDefinedPods podsToExclude) as [excluded|] eqn:Hex;
    [|discriminate].
  destruct (pushPods _ _ _ _ _) as [[|m ms]|] eqn:Hpush; try discriminate.
  injection H as <-. split; [discriminate|].
  exists excluded. split; [reflexivity|].
  destruct (pushPods_spec _ _ _ _ _ _ Hpush) as (pushed & Heq & _ & Hall).
  cbn in Heq. subst pushed.
  intros podMeta Hm. destruct (Hall podMeta Hm) as (H1 & H2 & token & Htoken & H3).
  split; [|split; [assumption | exists token; auto]].
  intros Hin. apply list_elem_of_In in Hin.
  assert (Htrue : existsb (String.eqb (Meta.name podMeta)) excluded = true).
  { apply existsb_exists. exists (Meta.name podMeta). split; [exact Hin|].
    apply String.eqb_refl. }
  congruence.
Qed.

Lemma selectPods_result_witness :
  [Meta.mk "web" (Some (Num 8080)) (Some (Num 8080)) None] <> []
  /\ exists excluded,
       resolveExcluded examplePodsJson ["d"%string] = Return excluded
       /\ forall podMeta,
            podMeta ∈ [Meta.mk "web" (Some (Num 8080)) (Some (Num 8080)) None] ->
            (Meta.name podMeta ∉ excluded)
            /\ Meta.namespace podMeta = None
            /\ exists token,
                 token ∈ keys examplePodsJson
                 /\ getPodMeta examplePodsJson None token = Return podMeta.
Proof.
  exact (selectPods_result examplePodsJson examplePodsJson None ["d"%string] []
           [Meta.mk "web" (Some (Num 8080)) (Some (Num 8080)) None] eq_refl).
Defined.

(** The end-to-end configuration, run without arguments: both entries are
    forwarded, [web] 8080 to 8080 and [db] 5432 to 5433, and both with the
    global namespace (the [namespace] written in the record of [db] is not
    used). *)
Example selectPods_example :
  selectPods examplePodsJson examplePodsJson None [] []
  = Return [Meta.mk "web" (Some (Num 8080)) (Some (Num 8080)) None;
            Meta.mk "db" (Some (Num 5432)) (Some (Num 5433)) None].
Proof. reflexivity. Qed.

(** An entry with port 0 is not found by its exact name. *)
Example getPodName_falsy_entry :
  getPodName [("web"%string, Num 0); ("webapp"%string, Num 8080)] "web"
  = Raise "More than one pod name matches web: web,webapp".
Proof. reflexivity. Qed.

(** ** The patterns of a run *)

(** In a run that starts with names and ids without pattern syntax, every
    name and id stays so: whatever the tables hold, the run never splices
    anything else into a pattern. *)
Theorem names_stay_plain (s : State) (evs : list Event) :
  wellNamed s = true -> wellNamed (final (steps s evs)) = true.
Proof. apply steps_wellNamed. Qed.

Lemma names_stay_plain_witness :
  wellNamed demoBoot = true
  /\ wellNamed (final (steps demoBoot overlappingRun)) = true.
Proof.
  split; [reflexivity|]. exact (names_stay_plain demoBoot overlappingRun eq_refl).
Defined.
